(** * Tongits rules engine: a shallow embedding of [server.mjs] and its card
    utilities, with the properties of the specification stated over it.

    Conventions of the embedding.
    - A JavaScript array is a [list] in the same order: index 0 is the head,
      [push] appends at the end and [pop] removes the last element.
    - A slot that may hold [undefined] (the result of [hand[i]], of [pop] on an
      empty array, an element of the discard pile) is an [option].
    - A card is an object; [===] and [indexOf] on cards compare references.
      The field [uid] is that reference: [createDeck] allocates 52 objects,
      numbered in creation order.
    - [Math.random] is an oracle [rand : nat -> nat]; the draw made at loop
      index [i] yields [rand i mod (i + 1)], any value of [0..i].
    - Indices sent by a client are integers ([Z]): [hand[i]] is [undefined]
      for a negative or too large [i], and [splice] counts a negative start
      from the end, as in JavaScript.
    - A [player-action] message is an [Action]: its type with the fields that
      the handler of that type reads. A message that lacks one of them (a meld
      without [cardIndices], a sapaw without [target]) is outside the
      embedding.
    - A name that server.mjs uses and does not bind is a [ReferenceError] at
      the use, as in a module. *)

From Stdlib Require Import ZArith Lia String.
From stdpp Require Import base tactics option list strings sorting.

Local Open Scope Z_scope.
Local Open Scope nat_scope.

(** ** Cards *)

Inductive Suit := hearts | diamonds | clubs | spades.

Inductive Rank := rA | r2 | r3 | r4 | r5 | r6 | r7 | r8 | r9 | r10 | rJ | rQ | rK.

Record Card := mkCard { uid : nat; suit : Suit; rank : Rank }.

#[global] Instance Suit_eq_dec : EqDecision Suit.
Proof. solve_decision. Defined.

#[global] Instance Rank_eq_dec : EqDecision Rank.
Proof. solve_decision. Defined.

#[global] Instance Card_eq_dec : EqDecision Card.
Proof. solve_decision. Defined.

(** [a === b] on two card objects. *)
Definition sameObject (a b : Card) : bool := Nat.eqb (uid a) (uid b).

(** ** Array primitives *)

Section Arrays.
Context {A : Type}.

(** [arr[i]] for a client-supplied integer. *)
Definition jsAt (arr : list A) (i : Z) : option A :=
  if (i <? 0)%Z then None else arr !! Z.to_nat i.

(** [arr.pop()]: the removed element (if any) and the array left. *)
Definition pop (arr : list A) : option A * list A :=
  (last arr, removelast arr).

(** Start position of [arr.splice(i, ...)]. *)
Definition spliceStart (arr : list A) (i : Z) : nat :=
  if (i <? 0)%Z then Z.to_nat (Z.max (Z.of_nat (length arr) + i) 0)
  else Nat.min (Z.to_nat i) (length arr).

(** [arr.splice(i, 1)]: the removed elements and the array left. *)
Definition splice1 (arr : list A) (i : Z) : list A * list A :=
  let s := spliceStart arr i in
  (take 1 (drop s arr), delete s arr).

(** [arr.indexOf(x)], [-1] when absent; [eqb] is the equality used. *)
Fixpoint indexOfFrom (eqb : A -> A -> bool) (x : A) (arr : list A) (i : Z) : Z :=
  match arr with
  | [] => (-1)%Z
  | y :: arr' => if eqb y x then i else indexOfFrom eqb x arr' (i + 1)%Z
  end.

Definition indexOf (eqb : A -> A -> bool) (x : A) (arr : list A) : Z :=
  indexOfFrom eqb x arr 0%Z.

(** [arr.sort(cmp)]: the sort is stable, so with a consistent comparator
    its result is the one of a stable insertion sort. *)
Fixpoint sortInsert (cmp : A -> A -> Z) (x : A) (arr : list A) : list A :=
  match arr with
  | [] => [x]
  | y :: arr' =>
      if (cmp x y <=? 0)%Z then x :: arr else y :: sortInsert cmp x arr'
  end.

Definition jsSort (cmp : A -> A -> Z) (arr : list A) : list A :=
  foldr (sortInsert cmp) [] arr.

(** [arr.every((x, index) => f(index, x))], indices starting at [i]. *)
Fixpoint everyFrom (i : nat) (f : nat -> A -> bool) (arr : list A) : bool :=
  match arr with
  | [] => true
  | x :: arr' => f i x && everyFrom (S i) f arr'
  end.

Definition every (f : nat -> A -> bool) (arr : list A) : bool :=
  everyFrom 0 f arr.

(** All slots of an array hold a value: the array without the options. *)
Fixpoint allDefined (arr : list (option A)) : option (list A) :=
  match arr with
  | [] => Some []
  | Some x :: arr' =>
      match allDefined arr' with Some l => Some (x :: l) | None => None end
  | None :: _ => None
  end.

(** The values an array of slots holds, [undefined] slots left out. *)
Definition defined (arr : list (option A)) : list A := omap id arr.
End Arrays.

(** ** card-utils: deck, ranks, meld validation *)

Definition suits : list Suit := [hearts; diamonds; clubs; spades].

Definition rankOrder : list Rank :=
  [rA; r2; r3; r4; r5; r6; r7; r8; r9; r10; rJ; rQ; rK].

Definition rankToNumber (r : Rank) : Z :=
  indexOf (fun a b => bool_decide (a = b)) r rankOrder.

(** The nested loops of [createDeck]: every suit with every rank. *)
Definition suitRankPairs : list (Suit * Rank) :=
  s ← suits; r ← rankOrder; [(s, r)].

(** The deck in creation order, before [shuffleDeck]. *)
Definition orderedDeck : list Card :=
  imap (fun i sr => mkCard i sr.1 sr.2) suitRankPairs.

Definition isThreeOfAKind (cards : list (option Card)) : bool :=
  bool_decide (length cards = 3) &&
  forallb (fun card =>
             match card, mjoin (cards !! 0) with
             | Some c, Some c0 => bool_decide (rank c = rank c0)
             | _, _ => false
             end) cards.

Definition isFourOfAKind (cards : list (option Card)) : bool :=
  bool_decide (length cards = 4) &&
  forallb (fun card =>
             match card, mjoin (cards !! 0) with
             | Some c, Some c0 => bool_decide (rank c = rank c0)
             | _, _ => false
             end) cards.

Definition byRank (a b : Card) : Z :=
  (rankToNumber (rank a) - rankToNumber (rank b))%Z.

Definition isStraightFlush (cards : list (option Card)) : bool :=
  if bool_decide (length cards < 3) then false
  else
    match allDefined cards with
    | None => false
    | Some cs =>
        let sortedCards := jsSort byRank cs in
        let sameSuit :=
          forallb (fun card =>
                     match sortedCards !! 0 with
                     | Some c0 => bool_decide (suit card = suit c0)
                     | None => false
                     end) sortedCards in
        let consecutive :=
          every (fun index card =>
                   (index =? 0) ||
                   match sortedCards !! (index - 1) with
                   | Some prev =>
                       (rankToNumber (rank card) - rankToNumber (rank prev) =? 1)%Z
                   | None => false
                   end) sortedCards in
        sameSuit && consecutive
    end.

Definition isValidMeld (cards : list (option Card)) : bool :=
  isThreeOfAKind cards || isFourOfAKind cards || isStraightFlush cards.

Definition calculateCardPoints (card : Card) : nat :=
  match rank card with
  | rA => 1
  | rJ | rQ | rK => 10
  | r2 => 2 | r3 => 3 | r4 => 4 | r5 => 5 | r6 => 6
  | r7 => 7 | r8 => 8 | r9 => 9 | r10 => 10
  end.

(** ** card-utils: scoring *)

(** [for (x = a; x < b; x++)]: the values the loop variable takes. *)
Definition range (a b : nat) : list nat := seq a (b - a).

(** A loop whose body may [return]: the first value returned. *)
Fixpoint firstSome {A B : Type} (body : A -> option B) (l : list A) : option B :=
  match l with
  | [] => None
  | x :: l' =>
      match body x with
      | Some y => Some y
      | None => firstSome body l'
      end
  end.

(** The three nested loops of [findAndRemoveMeld]: the indices [i < j < k]
    at which the loops return. *)
Definition findSetIndices (cards : list Card) : option (nat * nat * nat) :=
  let n := length cards in
  firstSome (fun i =>
    firstSome (fun j =>
      firstSome (fun k =>
        match cards !! i, cards !! j, cards !! k with
        | Some ci, Some cj, Some ck =>
            if bool_decide (rank ci = rank cj) && bool_decide (rank cj = rank ck)
            then Some (i, j, k) else None
        | _, _, _ => None
        end) (range (j + 1) n)) (range (i + 1) (n - 1))) (range 0 (n - 2)).

(** The loop over the rank-sorted copy: the window at which it returns. *)
Definition findRunWindow (sortedCards : list Card) : option (Card * Card * Card) :=
  firstSome (fun i =>
    match sortedCards !! i, sortedCards !! (i + 1), sortedCards !! (i + 2) with
    | Some a, Some b, Some c =>
        if bool_decide (suit a = suit b) && bool_decide (suit b = suit c) &&
           (rankToNumber (rank b) - rankToNumber (rank a) =? 1)%Z &&
           (rankToNumber (rank c) - rankToNumber (rank b) =? 1)%Z
        then Some (a, b, c) else None
    | _, _, _ => None
    end) (range 0 (length sortedCards - 2)).

(** [cards.splice(cards.indexOf(x), 1)], the array left. *)
Definition spliceOut (cards : list Card) (x : Card) : list Card :=
  (splice1 cards (indexOf sameObject x cards)).2.

(** [findAndRemoveMeld(cards)]: the meld returned and [cards] as the call
    leaves it, or [None] for [null] (then [cards] is untouched). *)
Definition findAndRemoveMeld (cards : list Card) : option (list Card * list Card) :=
  match findSetIndices cards with
  | Some (i, j, k) =>
      let meld := omap (fun x => cards !! x) [i; j; k] in
      let cards1 := (splice1 cards (Z.of_nat k)).2 in
      let cards2 := (splice1 cards1 (Z.of_nat j)).2 in
      let cards3 := (splice1 cards2 (Z.of_nat i)).2 in
      Some (meld, cards3)
  | None =>
      let sortedCards := jsSort byRank cards in
      match findRunWindow sortedCards with
      | Some (a, b, c) =>
          let cards1 := spliceOut cards c in
          let cards2 := spliceOut cards1 b in
          let cards3 := spliceOut cards2 a in
          Some ([a; b; c], cards3)
      | None => None
      end
  end.

(** The [while (true)] loop of [calculateHandPoints]; every iteration but the
    last removes three cards, so [length hand] iterations are enough
    (lemma [meldLoop_exits]). *)
Fixpoint meldLoop (fuel : nat) (allCards : list Card)
    (allMelds : list (list (option Card))) : list Card * list (list (option Card)) :=
  match fuel with
  | 0 => (allCards, allMelds)
  | S fuel' =>
      match findAndRemoveMeld allCards with
      | Some (meldFound, allCards') =>
          meldLoop fuel' allCards' (allMelds ++ [Some <$> meldFound])
      | None => (allCards, allMelds)
      end
  end.

Definition calculateHandPoints (hand : list Card)
    (secretMelds : list (list (option Card))) : nat :=
  let allCards := hand in
  let allMelds := secretMelds in
  let '(allCards', _) := meldLoop (length hand) allCards allMelds in
  foldl (fun total card => total + calculateCardPoints card) 0 allCards'.

(** [playerHand.findIndex(c => c === x)]. *)
Definition findIndex (x : Card) (playerHand : list Card) : Z :=
  indexOf sameObject x playerHand.

(** [canFormMeldWithCard(card, playerHand)] for a card object: the pair
    [(canMeld, indices)]. *)
Definition canFormMeldWithCard (card : Card) (playerHand : list Card)
    : bool * list Z :=
  let sameRankCards := filter (fun c => rank c = rank card) playerHand in
  if 2 <=? length sameRankCards then
    (true,
     take 2 (foldl (fun acc ic => if bool_decide (rank ic.2 = rank card)
                                  then acc ++ [Z.of_nat ic.1] else acc)
                   [] (imap (fun i c => (i, c)) playerHand)))
  else
    let sameSuitCards := filter (fun c => suit c = suit card) playerHand in
    match
      firstSome (fun i =>
        firstSome (fun j =>
          match sameSuitCards !! i, sameSuitCards !! j with
          | Some ci, Some cj =>
              if isValidMeld [Some card; Some ci; Some cj]
              then Some [findIndex ci playerHand; findIndex cj playerHand]
              else None
          | _, _ => None
          end) (range (i + 1) (length sameSuitCards)))
        (range 0 (length sameSuitCards - 1))
    with
    | Some indices => (true, indices)
    | None => (false, [])
    end.

(** ** card-utils: shuffling and dealing *)

(** [[arr[i], arr[j]] = [arr[j], arr[i]]] for two positions of the array. *)
Definition swap {A : Type} (arr : list A) (i j : nat) : list A :=
  match arr !! i, arr !! j with
  | Some x, Some y => <[j := x]> (<[i := y]> arr)
  | _, _ => arr
  end.

(** [for (let i = ...; i > 0; i--)] of the Fisher-Yates loop. *)
Fixpoint shuffleLoop {A : Type} (rand : nat -> nat) (i : nat) (arr : list A) : list A :=
  match i with
  | 0 => arr
  | S i' => shuffleLoop rand i' (swap arr i (rand i mod (i + 1)))
  end.

Definition shuffleDeck {A : Type} (rand : nat -> nat) (deck : list A) : list A :=
  shuffleLoop rand (length deck - 1) deck.

Definition createDeck (rand : nat -> nat) : list Card :=
  shuffleDeck rand orderedDeck.

(** One pass of the inner loop body of [dealCards] for player [j]. *)
Definition dealOne (st : list (list Card) * list Card) (j : nat)
    : list (list Card) * list Card :=
  match last st.2 with
  | Some card => (alter (fun h => h ++ [card]) j st.1, removelast st.2)
  | None => st
  end.

(** [dealCards]: the pair [(hands, remainingDeck)]. *)
Definition dealCards (deck : list Card) (numPlayers cardsPerPlayer : nat)
    : list (list Card) * list Card :=
  foldl (fun st _ => foldl dealOne st (range 0 numPlayers))
        (replicate numPlayers [], deck) (range 0 cardsPerPlayer).

(** ** server: the session *)

(** A meld on the table: the array pushed on [exposedMelds]. *)
Abbreviation Meld := (list (option Card)).

(** A player object; [playerId] is the field [id] (the socket id). *)
Record Player := mkPlayer {
  playerId : string;
  name : string;
  playerNumber : nat;
  hand : list Card;
  exposedMelds : list Meld;
  secretMelds : list Meld;
  score : nat;
  consecutiveWins : nat;
  isSapawed : bool;
  points : nat;
  turnsPlayed : nat;
  isBot : bool
}.

(** The game object; [gameId] is the field [id]. [winner] is a reference to
    one of the player objects of [players], kept as its position there. *)
Record Game := mkGame {
  gameId : string;
  players : list Player;
  deck : list Card;
  discardPile : list (option Card);
  currentPlayerIndex : nat;
  hasDrawnThisTurn : bool;
  round : nat;
  entryFee : nat;
  gameEnded : bool;
  winner : option nat;
  selectedCardIndices : list Z;
  gameStarted : bool;
  firstPlayerHasPlayed : bool
}.

Module P.
Definition withHand (v : list Card) (p : Player) : Player :=
  mkPlayer (playerId p) (name p) (playerNumber p) v (exposedMelds p)
    (secretMelds p) (score p) (consecutiveWins p) (isSapawed p) (points p)
    (turnsPlayed p) (isBot p).
Definition withExposedMelds (v : list Meld) (p : Player) : Player :=
  mkPlayer (playerId p) (name p) (playerNumber p) (hand p) v
    (secretMelds p) (score p) (consecutiveWins p) (isSapawed p) (points p)
    (turnsPlayed p) (isBot p).
Definition withSecretMelds (v : list Meld) (p : Player) : Player :=
  mkPlayer (playerId p) (name p) (playerNumber p) (hand p) (exposedMelds p)
    v (score p) (consecutiveWins p) (isSapawed p) (points p)
    (turnsPlayed p) (isBot p).
Definition withScore (v : nat) (p : Player) : Player :=
  mkPlayer (playerId p) (name p) (playerNumber p) (hand p) (exposedMelds p)
    (secretMelds p) v (consecutiveWins p) (isSapawed p) (points p)
    (turnsPlayed p) (isBot p).
Definition withConsecutiveWins (v : nat) (p : Player) : Player :=
  mkPlayer (playerId p) (name p) (playerNumber p) (hand p) (exposedMelds p)
    (secretMelds p) (score p) v (isSapawed p) (points p)
    (turnsPlayed p) (isBot p).
Definition withIsSapawed (v : bool) (p : Player) : Player :=
  mkPlayer (playerId p) (name p) (playerNumber p) (hand p) (exposedMelds p)
    (secretMelds p) (score p) (consecutiveWins p) v (points p)
    (turnsPlayed p) (isBot p).
Definition withPoints (v : nat) (p : Player) : Player :=
  mkPlayer (playerId p) (name p) (playerNumber p) (hand p) (exposedMelds p)
    (secretMelds p) (score p) (consecutiveWins p) (isSapawed p) v
    (turnsPlayed p) (isBot p).
Definition withTurnsPlayed (v : nat) (p : Player) : Player :=
  mkPlayer (playerId p) (name p) (playerNumber p) (hand p) (exposedMelds p)
    (secretMelds p) (score p) (consecutiveWins p) (isSapawed p) (points p)
    v (isBot p).
End P.

Module G.
Definition withPlayers (v : list Player) (g : Game) : Game :=
  mkGame (gameId g) v (deck g) (discardPile g) (currentPlayerIndex g)
    (hasDrawnThisTurn g) (round g) (entryFee g) (gameEnded g) (winner g)
    (selectedCardIndices g) (gameStarted g) (firstPlayerHasPlayed g).
Definition withDeck (v : list Card) (g : Game) : Game :=
  mkGame (gameId g) (players g) v (discardPile g) (currentPlayerIndex g)
    (hasDrawnThisTurn g) (round g) (entryFee g) (gameEnded g) (winner g)
    (selectedCardIndices g) (gameStarted g) (firstPlayerHasPlayed g).
Definition withDiscardPile (v : list (option Card)) (g : Game) : Game :=
  mkGame (gameId g) (players g) (deck g) v (currentPlayerIndex g)
    (hasDrawnThisTurn g) (round g) (entryFee g) (gameEnded g) (winner g)
    (selectedCardIndices g) (gameStarted g) (firstPlayerHasPlayed g).
Definition withCurrentPlayerIndex (v : nat) (g : Game) : Game :=
  mkGame (gameId g) (players g) (deck g) (discardPile g) v
    (hasDrawnThisTurn g) (round g) (entryFee g) (gameEnded g) (winner g)
    (selectedCardIndices g) (gameStarted g) (firstPlayerHasPlayed g).
Definition withHasDrawnThisTurn (v : bool) (g : Game) : Game :=
  mkGame (gameId g) (players g) (deck g) (discardPile g) (currentPlayerIndex g)
    v (round g) (entryFee g) (gameEnded g) (winner g)
    (selectedCardIndices g) (gameStarted g) (firstPlayerHasPlayed g).
Definition withRound (v : nat) (g : Game) : Game :=
  mkGame (gameId g) (players g) (deck g) (discardPile g) (currentPlayerIndex g)
    (hasDrawnThisTurn g) v (entryFee g) (gameEnded g) (winner g)
    (selectedCardIndices g) (gameStarted g) (firstPlayerHasPlayed g).
Definition withGameEnded (v : bool) (g : Game) : Game :=
  mkGame (gameId g) (players g) (deck g) (discardPile g) (currentPlayerIndex g)
    (hasDrawnThisTurn g) (round g) (entryFee g) v (winner g)
    (selectedCardIndices g) (gameStarted g) (firstPlayerHasPlayed g).
Definition withWinner (v : option nat) (g : Game) : Game :=
  mkGame (gameId g) (players g) (deck g) (discardPile g) (currentPlayerIndex g)
    (hasDrawnThisTurn g) (round g) (entryFee g) (gameEnded g) v
    (selectedCardIndices g) (gameStarted g) (firstPlayerHasPlayed g).
Definition withSelectedCardIndices (v : list Z) (g : Game) : Game :=
  mkGame (gameId g) (players g) (deck g) (discardPile g) (currentPlayerIndex g)
    (hasDrawnThisTurn g) (round g) (entryFee g) (gameEnded g) (winner g)
    v (gameStarted g) (firstPlayerHasPlayed g).
Definition withGameStarted (v : bool) (g : Game) : Game :=
  mkGame (gameId g) (players g) (deck g) (discardPile g) (currentPlayerIndex g)
    (hasDrawnThisTurn g) (round g) (entryFee g) (gameEnded g) (winner g)
    (selectedCardIndices g) v (firstPlayerHasPlayed g).
Definition withFirstPlayerHasPlayed (v : bool) (g : Game) : Game :=
  mkGame (gameId g) (players g) (deck g) (discardPile g) (currentPlayerIndex g)
    (hasDrawnThisTurn g) (round g) (entryFee g) (gameEnded g) (winner g)
    (selectedCardIndices g) (gameStarted g) v.
End G.

(** What a handler leaves behind: it returns ([Done]) or an error escapes it
    ([Thrown]: a [TypeError], or the [ReferenceError] of [handleDraw]); either
    way with the session as mutated so far. *)
Inductive Outcome :=
| Done (g : Game)
| Thrown (g : Game).

Definition stateOf (o : Outcome) : Game :=
  match o with Done g | Thrown g => g end.

(** The [type] discriminator of an action with its payload. *)
Inductive Action :=
| draw (fromDeck : bool) (meldIndices : list Z)
| discard (cardIndex : Z)
| meld (cardIndices : list Z)
| sapaw (targetPlayerIndex targetMeldIndex : Z) (cardIndices : list Z)
| callDraw
| updateSelectedIndices (indices : list Z)
| autoSort
| shuffle
| nextGame
| resetGame
| otherType.

Definition PLAYERS_REQUIRED : nat := 3.

(** The game object the [join-game] handler creates. *)
Definition newGame (gid : string) : Game :=
  mkGame gid [] [] [] 0 false 1 500 false None [] false false.

(** The [join-game] handler on the open game [g]. *)
Definition joinGame (g : Game) (socketId playerName : string) : Game :=
  let playerNumber := length (players g) + 1 in
  let g1 :=
    G.withPlayers
      (players g ++
       [mkPlayer socketId playerName playerNumber [] [] [] 0 0 false 0 0 false]) g in
  if (length (players g1) =? PLAYERS_REQUIRED) && negb (gameStarted g1)
  then G.withGameStarted true g1 else g1.

(** [indices.sort((a, b) => b - a).forEach(index => hand.splice(index, 1))]. *)
Definition spliceAll (hand : list Card) (indices : list Z) : list Card :=
  foldl (fun h index => (splice1 h index).2) hand
        (jsSort (fun a b => (b - a)%Z) indices).

(** The [forEach] of [startGame] and [handleNextGame] over the players, with
    the deck as the [pop] for seat 0 leaves it. Both deal three hands to at
    most three players from a deck of 52, so [hands[index]] is an array and
    [deck.pop()] a card; the two defaults below stand for [undefined] there
    and are never taken. *)
Definition dealtPlayers (hands : list (list Card)) (deck : list Card)
    (reset : Player -> Player) (ps : list Player) : list Player * list Card :=
  (imap (fun index player =>
           let h := default [] (hands !! index) in
           let h' := if index =? 0 then h ++ option_list (last deck) else h in
           reset (P.withHand h' player)) ps,
   match ps with [] => deck | _ :: _ => removelast deck end).

Definition startGame (rand : nat -> nat) (g : Game) : Game :=
  if negb (length (players g) =? PLAYERS_REQUIRED) then g
  else
    let '(hands, remainingDeck) := dealCards (createDeck rand) PLAYERS_REQUIRED 12 in
    let '(ps, deck') :=
      dealtPlayers hands remainingDeck (P.withExposedMelds []) (players g) in
    G.withPlayers ps
      (G.withFirstPlayerHasPlayed false
         (G.withSelectedCardIndices []
            (G.withHasDrawnThisTurn true
               (G.withDiscardPile [] (G.withDeck deck' g))))).

(** ** server: the action handlers *)

(** [cardIndices.map(index => currentPlayer.hand[index])]; the callback, and
    with it the read of [currentPlayer.hand], runs once per index. *)
Definition namedCards (currentPlayer : option Player) (cardIndices : list Z)
    : option (list (option Card)) :=
  match cardIndices, currentPlayer with
  | [], _ => Some []
  | _ :: _, Some p => Some (jsAt (hand p) <$> cardIndices)
  | _ :: _, None => None
  end.

(** [handleDraw]. The import list of server.mjs does not name
    [canFormMeldWithCard], and the module binds the name nowhere else: the
    call that opens the discard-pile branch raises a [ReferenceError] when the
    name is looked up, before its arguments are evaluated, and nothing behind
    it in that branch is run. [meldIndices] is read in that part only. *)
Definition handleDraw (g : Game) (fromDeck : bool) (meldIndices : list Z) : Outcome :=
  if hasDrawnThisTurn g then Done g
  else
    let cur := currentPlayerIndex g in
    let currentPlayer := players g !! cur in
    match (if fromDeck then None else last (discardPile g)) with
    | Some topCard =>
        (* !fromDeck && game.discardPile.length > 0:
           canFormMeldWithCard(topCard, currentPlayer.hand) *)
        Thrown g
    | None =>
        match last (deck g) with
        | Some card =>
            (* game.deck.length > 0 *)
            let g1 := G.withDeck (removelast (deck g)) g in
            match currentPlayer with
            | None => Thrown g1
            | Some p =>
                Done (G.withHasDrawnThisTurn true
                        (G.withPlayers
                           (<[cur := P.withHand (hand p ++ [card]) p]> (players g)) g1))
            end
        | None => Done g
        end
    end.

Definition handleDiscard (g : Game) (cardIndex : Z) : Outcome :=
  if negb (hasDrawnThisTurn g) && negb (currentPlayerIndex g =? 0) then Done g
  else
    let cur := currentPlayerIndex g in
    match players g !! cur with
    | None => Thrown g
    | Some p =>
        let '(removed, hand') := splice1 (hand p) cardIndex in
        let discardedCard := head removed in
        let p' := P.withTurnsPlayed (turnsPlayed p + 1) (P.withHand hand' p) in
        Done (G.withSelectedCardIndices []
                (G.withHasDrawnThisTurn false
                   (G.withCurrentPlayerIndex ((cur + 1) mod length (players g))
                      (G.withPlayers (<[cur := p']> (players g))
                         (G.withDiscardPile (discardPile g ++ [discardedCard]) g)))))
    end.

Definition handleTongits (g : Game) : Outcome :=
  let cur := currentPlayerIndex g in
  match players g !! cur with
  | None => Thrown g
  | Some p =>
      let currentPlayer :=
        P.withConsecutiveWins (consecutiveWins p + 1) (P.withScore 0 p) in
      let ps1 := <[cur := currentPlayer]> (players g) in
      let ps2 :=
        (fun player =>
           if bool_decide (playerId player ≠ playerId currentPlayer)
           then P.withConsecutiveWins 0
                  (P.withScore (calculateHandPoints (hand player) []) player)
           else player) <$> ps1 in
      Done (G.withGameEnded true (G.withWinner (Some cur) (G.withPlayers ps2 g)))
  end.

Definition handleMeld (g : Game) (cardIndices : list Z) : Outcome :=
  let cur := currentPlayerIndex g in
  let currentPlayer := players g !! cur in
  match namedCards currentPlayer cardIndices with
  | None => Thrown g
  | Some meldedCards =>
      if negb (isValidMeld meldedCards) then Done g
      else
        match currentPlayer with
        | None => Thrown g
        | Some p =>
            let hand' := spliceAll (hand p) cardIndices in
            let p' := P.withHand hand'
                        (P.withExposedMelds (exposedMelds p ++ [meldedCards]) p) in
            let g1 := G.withSelectedCardIndices []
                        (G.withPlayers (<[cur := p']> (players g)) g) in
            if length hand' =? 0 then handleTongits g1 else Done g1
        end
  end.

Definition handleSapaw (g : Game) (targetPlayerIndex targetMeldIndex : Z)
    (cardIndices : list Z) : Outcome :=
  let cur := currentPlayerIndex g in
  let currentPlayer := players g !! cur in
  let targetPlayer := jsAt (players g) targetPlayerIndex in
  match namedCards currentPlayer cardIndices with
  | None => Thrown g
  | Some sapawCards =>
      match targetPlayer with
      | None => Thrown g
      | Some tp =>
          match jsAt (exposedMelds tp) targetMeldIndex with
          | None => Thrown g
          | Some old =>
              let targetMeld := old ++ sapawCards in
              if negb (isValidMeld targetMeld) then Done g
              else
                let t := Z.to_nat targetPlayerIndex in
                let ps1 :=
                  alter (fun q => P.withExposedMelds
                                    (<[Z.to_nat targetMeldIndex := targetMeld]>
                                       (exposedMelds q)) q) t (players g) in
                let ps2 :=
                  alter (fun q => P.withHand (spliceAll (hand q) cardIndices) q)
                        cur ps1 in
                let ps3 := alter (P.withIsSapawed true) t ps2 in
                Done (G.withSelectedCardIndices [] (G.withPlayers ps3 g))
          end
      end
  end.

(** [scores.reduce((min, player) => player.score < min.score ? player : min)]. *)
Definition lowestScore (scores : list (string * nat)) : option (string * nat) :=
  match scores with
  | [] => None
  | s0 :: rest =>
      Some (foldl (fun min player => if player.2 <? min.2 then player else min)
                  s0 rest)
  end.

Definition handleCallDraw (g : Game) : Outcome :=
  let scores :=
    (fun player => (playerId player, calculateHandPoints (hand player) []))
      <$> players g in
  match lowestScore scores with
  | None => Thrown g
  | Some winner =>
      let update player :=
        match list_find (fun s => s.1 = playerId player) scores with
        | Some (_, s) =>
            let player1 := P.withScore s.2 player in
            Some (if bool_decide (playerId player = winner.1)
                  then P.withConsecutiveWins (consecutiveWins player1 + 1) player1
                  else P.withConsecutiveWins 0 player1)
        | None => None
        end in
      match mapM update (players g) with
      | None => Thrown g
      | Some ps =>
          Done (G.withGameEnded true
                  (G.withWinner
                     (fst <$> list_find (fun p => playerId p = winner.1) ps)
                     (G.withPlayers ps g)))
      end
  end.

Definition suitName (s : Suit) : string :=
  match s with
  | hearts => "hearts" | diamonds => "diamonds"
  | clubs => "clubs" | spades => "spades"
  end.

Definition rankName (r : Rank) : string :=
  match r with
  | rA => "A" | r2 => "2" | r3 => "3" | r4 => "4" | r5 => "5" | r6 => "6"
  | r7 => "7" | r8 => "8" | r9 => "9" | r10 => "10"
  | rJ => "J" | rQ => "Q" | rK => "K"
  end.

(** [a.localeCompare(b)] on the suit and rank names: digits sort before
    letters and the names have one case each, where the collation order is the
    order of the character codes. *)
Definition localeCompare (a b : string) : Z :=
  match String.compare a b with
  | Lt => (-1)%Z
  | Eq => 0%Z
  | Gt => 1%Z
  end.

Definition autoSortCompare (a b : Card) : Z :=
  if bool_decide (suit a ≠ suit b)
  then localeCompare (suitName (suit a)) (suitName (suit b))
  else localeCompare (rankName (rank a)) (rankName (rank b)).

Definition handleAutoSort (g : Game) (playerIndex : nat) : Outcome :=
  match players g !! playerIndex with
  | None => Thrown g
  | Some player =>
      Done (G.withPlayers
              (<[playerIndex := P.withHand (jsSort autoSortCompare (hand player)) player]>
                 (players g)) g)
  end.

Definition handleShuffle (rand : nat -> nat) (g : Game) (playerIndex : nat) : Outcome :=
  match players g !! playerIndex with
  | None => Thrown g
  | Some player =>
      Done (G.withPlayers
              (<[playerIndex := P.withHand (shuffleDeck rand (hand player)) player]>
                 (players g)) g)
  end.

Definition resetForNextGame (player : Player) : Player :=
  P.withTurnsPlayed 0
    (P.withPoints 0
       (P.withIsSapawed false
          (P.withScore 0 (P.withSecretMelds [] (P.withExposedMelds [] player))))).

Definition handleNextGame (rand : nat -> nat) (g : Game) : Outcome :=
  let '(hands, remainingDeck) := dealCards (createDeck rand) PLAYERS_REQUIRED 12 in
  let '(ps, deck') := dealtPlayers hands remainingDeck resetForNextGame (players g) in
  let g' :=
    G.withPlayers ps
      (G.withFirstPlayerHasPlayed false
         (G.withSelectedCardIndices []
            (G.withGameEnded false
               (G.withHasDrawnThisTurn true
                  (G.withCurrentPlayerIndex 0
                     (G.withDiscardPile []
                        (G.withDeck deck' (G.withRound (round g + 1) g)))))))) in
  (* game.players[0].isBot *)
  match ps with
  | [] => Thrown g'
  | _ :: _ => Done g'
  end.

Definition handleResetGame (rand : nat -> nat) (g : Game) : Outcome :=
  handleNextGame rand
    (G.withPlayers (P.withConsecutiveWins 0 <$> players g) (G.withRound 1 g)).

Definition handlePlayerAction (rand : nat -> nat) (g : Game) (action : Action)
    (playerIndex : nat) : Outcome :=
  match action with
  | draw fromDeck meldIndices =>
      if (playerIndex =? 0) && negb (firstPlayerHasPlayed g) then Done g
      else handleDraw g fromDeck meldIndices
  | discard cardIndex =>
      match handleDiscard g cardIndex with
      | Done g' =>
          if (playerIndex =? 0) && negb (firstPlayerHasPlayed g')
          then Done (G.withFirstPlayerHasPlayed true g') else Done g'
      | Thrown g' => Thrown g'
      end
  | meld cardIndices => handleMeld g cardIndices
  | sapaw targetPlayerIndex targetMeldIndex cardIndices =>
      handleSapaw g targetPlayerIndex targetMeldIndex cardIndices
  | callDraw => handleCallDraw g
  | updateSelectedIndices indices => Done (G.withSelectedCardIndices indices g)
  | autoSort => handleAutoSort g playerIndex
  | shuffle => handleShuffle rand g playerIndex
  | nextGame => handleNextGame rand g
  | resetGame => handleResetGame rand g
  | otherType => Done g
  end.

(** The [player-action] socket handler for the game of the sender, who sits
    at position [playerIndex] of [players]. *)
Definition onPlayerAction (rand : nat -> nat) (g : Game) (playerIndex : nat)
    (action : Action) : Outcome :=
  if negb (playerIndex =? currentPlayerIndex g) then Done g
  else handlePlayerAction rand g action playerIndex.

(** ** A fixed deal, for the concrete runs *)

(** An outcome of the random draws of [shuffleDeck] under which seat 0 is
    dealt the ace to four and the nine of spades first, and seat 1 the nines
    of hearts and diamonds first. *)
Definition fixedDraws : list nat :=
  [0; 0; 2; 1; 1; 3; 2; 2; 0; 3; 0; 11; 4; 1; 12; 3; 2; 17; 6; 13; 16; 5; 14;
   15; 4; 3; 14; 3; 26; 13; 2; 25; 12; 1; 24; 11; 0; 23; 10; 21; 22; 9; 42;
   20; 7; 41; 19; 21; 40; 18; 8; 39].

Definition fixedRand (i : nat) : nat := default 0 (fixedDraws !! i).

(** Three players joined and the game started. *)
Definition lobby (gid : string) (ids names : list string) : Game :=
  foldl (fun g sn => joinGame g sn.1 sn.2) (newGame gid) (zip ids names).

Definition fixedGame : Game :=
  startGame fixedRand (lobby "g" ["s0"; "s1"; "s2"] ["ann"; "ben"; "cy"]).

(** ** The specification's notions, in its own words *)

(** The rank numbers [lo, lo + 1, ..., lo + n - 1]. *)
Fixpoint consecutiveFrom (lo : Z) (n : nat) : list Z :=
  match n with
  | 0 => []
  | S n' => lo :: consecutiveFrom (lo + 1) n'
  end.

(** A set in the spec's words: three or four cards, all of one rank. *)
Definition isSet (cards : list Card) : Prop :=
  (length cards = 3 ∨ length cards = 4) ∧
  ∃ r, ∀ c, c ∈ cards → rank c = r.

(** A run in the spec's words: at least three cards of one suit whose ranks,
    in the order A < 2 < ... < K, are consecutive once sorted. *)
Definition isRun (cards : list Card) : Prop :=
  3 ≤ length cards ∧
  (∃ s, ∀ c, c ∈ cards → suit c = s) ∧
  ∃ lo, (rankToNumber ∘ rank) <$> cards ≡ₚ consecutiveFrom lo (length cards).


(** Point value of a card: ace 1, ranks 2 to 10 their face value, J, Q, K 10. *)
Definition cardValue (c : Card) : nat :=
  match rank c with
  | rA => 1
  | rJ | rQ | rK => 10
  | r => Z.to_nat (rankToNumber r) + 1
  end.

(** All index triples [i < j < k < n], in increasing index order. *)
Definition indexTriples (n : nat) : list (nat * nat * nat) :=
  i ← seq 0 n; j ← seq (S i) (n - S i); k ← seq (S j) (n - S j); [(i, j, k)].

Definition sameRankAt (hand : list Card) (t : nat * nat * nat) : bool :=
  match hand !! t.1.1, hand !! t.1.2, hand !! t.2 with
  | Some a, Some b, Some c => bool_decide (rank a = rank b ∧ rank b = rank c)
  | _, _, _ => false
  end.

(** The first three-of-a-kind of the scan over the index triples. *)
Definition firstThreeOfAKind (hand : list Card) : option (nat * nat * nat) :=
  head (filter (λ t, sameRankAt hand t = true) (indexTriples (length hand))).

(** The three-in-a-row windows of a list, left to right. *)
Definition windows3 (l : list Card) : list (Card * Card * Card) :=
  zip (zip l (drop 1 l)) (drop 2 l).

Definition isRunOfThree (w : Card * Card * Card) : bool :=
  bool_decide (suit w.1.1 = suit w.1.2 ∧ suit w.1.2 = suit w.2 ∧
               rankToNumber (rank w.1.2) = (rankToNumber (rank w.1.1) + 1)%Z ∧
               rankToNumber (rank w.2) = (rankToNumber (rank w.1.2) + 1)%Z).

(** The hand sorted by rank, ace low: the aces in the order they are held,
    then the twos, and so on up to the kings. *)
Definition rankSorted (hand : list Card) : list Card :=
  r ← [rA; r2; r3; r4; r5; r6; r7; r8; r9; r10; rJ; rQ; rK];
  filter (λ c, rank c = r) hand.

(** The first same-suit consecutive run of three in the rank-sorted hand. *)
Definition firstRunOfThree (hand : list Card) : option (Card * Card * Card) :=
  head (filter (λ w, isRunOfThree w = true) (windows3 (rankSorted hand))).

(** The hand without the cards at the positions [ps]; [off] is the position
    of the head. *)
Fixpoint withoutPositionsFrom (off : nat) (ps : list nat) (hand : list Card)
    : list Card :=
  match hand with
  | [] => []
  | c :: hand' =>
      if bool_decide (off ∈ ps) then withoutPositionsFrom (S off) ps hand'
      else c :: withoutPositionsFrom (S off) ps hand'
  end.

Definition withoutPositions (ps : list nat) (hand : list Card) : list Card :=
  withoutPositionsFrom 0 ps hand.

(** The hand without (the first slot holding) the card object [x]. *)
Fixpoint withoutObject (x : Card) (hand : list Card) : list Card :=
  match hand with
  | [] => []
  | y :: hand' => if sameObject y x then hand' else y :: withoutObject x hand'
  end.

(** One extraction: the hand left once the meld found is removed. *)
Definition extractMeld (hand : list Card) : option (list Card) :=
  match firstThreeOfAKind hand with
  | Some (i, j, k) => Some (withoutPositions [i; j; k] hand)
  | None =>
      match firstRunOfThree hand with
      | Some (a, b, c) =>
          Some (withoutObject a (withoutObject b (withoutObject c hand)))
      | None => None
      end
  end.

(** Extraction repeated until no meld is extractable. *)
Inductive extractsTo : list Card → list Card → Prop :=
| extracts_done hand :
    extractMeld hand = None → extractsTo hand hand
| extracts_more hand rest final :
    extractMeld hand = Some rest → extractsTo rest final → extractsTo hand final.

(** ** Sessions over time *)

(** One message reaching the [player-action] handler: the sender's position
    among the players, the action, and the random draws of the handling. *)
Record Event := mkEvent {
  evRand : nat → nat;
  evPlayer : nat;
  evAction : Action
}.

Definition step (g : Game) (ev : Event) : Game :=
  stateOf (onPlayerAction (evRand ev) g (evPlayer ev) (evAction ev)).

Definition run (g : Game) (evs : list Event) : Game := foldl step g evs.

(** A session of three players, freshly started. *)
Definition freshGame (rand : nat → nat) (gid : string)
    (ids names : string * string * string) : Game :=
  startGame rand
    (lobby gid [ids.1.1; ids.1.2; ids.2] [names.1.1; names.1.2; names.2]).

(** The cards a player holds: hand, exposed melds and secret melds. *)
Definition playerCards (p : Player) : list Card :=
  hand p ++ defined (concat (exposedMelds p)) ++ defined (concat (secretMelds p)).

(** Deck, discard pile, and what every player holds. *)
Definition tableCards (g : Game) : list Card :=
  deck g ++ defined (discardPile g) ++ (players g ≫= playerCards).

Definition currentHand (g : Game) : list Card :=
  default [] (hand <$> players g !! currentPlayerIndex g).

Definition inBounds (h : list Card) (i : Z) : bool :=
  (0 <=? i)%Z && (i <? Z.of_nat (length h))%Z.

(** The legal actions of the conservation property as the specification
    lists them. *)
Definition legalAsClaimed (g : Game) (ev : Event) : bool :=
  (evPlayer ev =? currentPlayerIndex g) &&
  match evAction ev with
  | draw _ _ => true
  | discard i => inBounds (currentHand g) i
  | meld idxs | sapaw _ _ idxs =>
      bool_decide (NoDup idxs) && forallb (inBounds (currentHand g)) idxs
  | callDraw | updateSelectedIndices _ | autoSort | shuffle => true
  | nextGame | resetGame | otherType => false
  end.

(** The same, with the meld indices of a draw pairwise distinct as well. *)
Definition legalAction (g : Game) (ev : Event) : bool :=
  legalAsClaimed g ev &&
  match evAction ev with
  | draw _ meldIndices => bool_decide (NoDup meldIndices)
  | _ => true
  end.

Fixpoint legalTrace (legal : Game → Event → bool) (g : Game) (evs : list Event)
    : bool :=
  match evs with
  | [] => true
  | ev :: evs' => legal g ev && legalTrace legal (step g ev) evs'
  end.

(** The rule violations and degenerate draws that the handlers turn down:
    out of turn; a draw after the draw of the turn, by seat 0 before its first
    discard, or from an exhausted deck (asked for, or fallen back to because
    the discard pile is empty); a discard before the draw by a seat other than
    0; a meld, or a sapaw on an existing meld, whose cards do not validate. *)
Definition rejected (g : Game) (playerIndex : nat) (a : Action) : bool :=
  negb (playerIndex =? currentPlayerIndex g) ||
  match a, players g !! currentPlayerIndex g with
  | draw fromDeck _, Some p =>
      hasDrawnThisTurn g
      || ((playerIndex =? 0) && negb (firstPlayerHasPlayed g))
      || match (if fromDeck then None else last (discardPile g)) with
         | Some _ => false
         | None => bool_decide (deck g = [])
         end
  | discard _, Some _ =>
      negb (hasDrawnThisTurn g) && negb (currentPlayerIndex g =? 0)
  | meld idxs, Some p => negb (isValidMeld (jsAt (hand p) <$> idxs))
  | sapaw t m idxs, Some p =>
      match jsAt (players g) t with
      | Some tp =>
          match jsAt (exposedMelds tp) m with
          | Some old => negb (isValidMeld (old ++ (jsAt (hand p) <$> idxs)))
          | None => false
          end
      | None => false
      end
  | _, _ => false
  end.

(** The [isSapawed] flag of the player at seat [t]. *)
Definition flagAt (g : Game) (t : nat) : bool :=
  default false (isSapawed <$> players g !! t).

(** In state [g] the event is a sapaw by the player in turn on a meld of
    seat [t], and the meld with the cards named validates. *)
Definition sapawAccepted (g : Game) (ev : Event) (t : nat) : Prop :=
  evPlayer ev = currentPlayerIndex g ∧
  ∃ (m : Z) (idxs : list Z) (tp : Player) (old cards : list (option Card)),
    evAction ev = sapaw (Z.of_nat t) m idxs ∧
    players g !! t = Some tp ∧
    jsAt (exposedMelds tp) m = Some old ∧
    namedCards (players g !! currentPlayerIndex g) idxs = Some cards ∧
    isValidMeld (old ++ cards) = true.

(** The hand points of a player at the end of a round. *)
Definition handPoints (p : Player) : nat := calculateHandPoints (hand p) [].

(** The player object at seat [i] (a blank one if the seat is empty). *)
Definition seatOf (g : Game) (i : nat) : Player :=
  default (mkPlayer "" "" 0 [] [] [] 0 0 false 0 0 false) (players g !! i).


(** ** Auxiliary notions of the proofs *)

(** Strictly descending, as the indices are once sorted by [b - a]. *)
Fixpoint descending (l : list Z) : Prop :=
  match l with
  | [] => True
  | x :: r => Forall (λ y, (y < x)%Z) r ∧ descending r
  end.

(** ** Concrete sessions *)

Definition ev (playerIndex : nat) (a : Action) : Event :=
  mkEvent fixedRand playerIndex a.

(** A session late in a round: seat 0 holds three nines and nothing else. *)
Definition lateGame : Game :=
  mkGame "g"
    [mkPlayer "s0" "ann" 1
       [mkCard 47 spades r9; mkCard 8 hearts r9; mkCard 21 diamonds r9]
       [] [] 0 2 false 0 4 false;
     mkPlayer "s1" "ben" 2
       [mkCard 39 spades rA; mkCard 40 spades r2; mkCard 41 spades r3;
        mkCard 12 hearts rK]
       [] [] 0 1 false 0 4 false;
     mkPlayer "s2" "cy" 3
       [mkCard 30 clubs r5; mkCard 31 clubs r6]
       [] [] 0 0 false 0 4 false]
    [mkCard 51 spades rK; mkCard 50 spades rQ]
    [Some (mkCard 34 clubs r9)]
    0 true 1 500 false None [] true true.

(** The fixed session after seat 0 discarded its nine of spades. *)
Definition afterFirstDiscard : Game := step fixedGame (ev 0 (discard 4)).

(** The fixed session when the turn is back at seat 0: every seat has
    discarded once, seats 1 and 2 after drawing from the deck. *)
Definition backAtSeat0 : Game :=
  run fixedGame
    [ev 0 (discard 12); ev 1 (draw true []); ev 1 (discard 12);
     ev 2 (draw true []); ev 2 (discard 12)].

(** Seat 0 melds its ace to three of spades and lays its four of spades off
    on that meld of its own. *)
Definition selfSapaw : list Event :=
  [ev 0 (meld [0; 1; 2]%Z); ev 0 (sapaw 0 0 [0]%Z)].

(** Seat 0 discards its nine of spades; seat 1 asks for it, naming its nine
    of hearts twice. *)
Definition doubledIndexDraw : list Event :=
  [ev 0 (discard 4); ev 1 (draw false [0; 0]%Z)].


(** ** card-utils: [sortCards] *)

(** The [suitOrder] array of the comparator of [sortCards]. *)
Definition suitOrder : list string := ["♠"; "♥"; "♦"; "♣"].

(** The comparator of [sortCards]; [a.suit] is one of the four suit names. *)
Definition sortCardsCompare (a b : Card) : Z :=
  let suitDiff :=
    (indexOf String.eqb (suitName (suit a)) suitOrder
     - indexOf String.eqb (suitName (suit b)) suitOrder)%Z in
  if negb (suitDiff =? 0)%Z then suitDiff
  else (rankToNumber (rank b) - rankToNumber (rank a))%Z.

Definition sortCards (cards : list Card) : list Card :=
  jsSort sortCardsCompare cards.

(** ** server: the connection handlers *)

(** [games], the Map of the sessions, as its values in insertion order. The
    key of an entry is the [id] of its game object, which is set when the
    object is created and assigned nowhere else. *)
Abbreviation Games := (list Game).

(** [games.set(game.id, game)]: an existing key keeps its place. *)
Fixpoint mapSet (game : Game) (games : Games) : Games :=
  match games with
  | [] => [game]
  | g :: rest =>
      if String.eqb (gameId g) (gameId game) then game :: rest
      else g :: mapSet game rest
  end.

(** [games.delete(gameId)]. *)
Definition mapDelete (gid : string) (games : Games) : Games :=
  filter (λ g, gameId g ≠ gid) games.

(** [game.players.findIndex(p => p.id === socket.id)], [None] for [-1]. *)
Definition findSeat (socketId : string) (g : Game) : option nat :=
  fst <$> list_find (λ p, playerId p = socketId) (players g).

(** The [join-game] handler; [now] is [Date.now().toString()]. The player is
    pushed on the game object found or created, which the Map holds. *)
Definition onJoinGame (now : string) (games : Games)
    (socketId playerName : string) : Games :=
  match list_find (λ g, length (players g) < PLAYERS_REQUIRED) games with
  | Some (i, g) => <[i := joinGame g socketId playerName]> games
  | None => mapSet (joinGame (newGame now) socketId playerName) games
  end.

(** The [player-action] handler: the first game seating the socket. No
    player object is ever a bot, so the check that follows
    [handlePlayerAction] starts nothing; an error ends the handler with the
    game as mutated so far. *)
Definition onPlayerActionMsg (rand : nat → nat) (games : Games)
    (socketId : string) (action : Action) : Games :=
  match list_find (λ g, Exists (λ p, playerId p = socketId) (players g)) games with
  | Some (i, g) =>
      match findSeat socketId g with
      | Some playerIndex =>
          <[i := stateOf (onPlayerAction rand g playerIndex action)]> games
      | None => games
      end
  | None => games
  end.

(** [game.players.splice(playerIndex, 1)]. The field [winner] goes on
    referring to the player object it referred to: its position among the
    players left is re-indexed, and a winner who is spliced out is among them
    no more, which [None] stands for here as well. *)
Definition leave (playerIndex : nat) (g : Game) : Game :=
  let winner' :=
    match winner g with
    | Some w =>
        if w <? playerIndex then Some w
        else if playerIndex <? w then Some (w - 1) else None
    | None => None
    end in
  G.withWinner winner' (G.withPlayers (delete playerIndex (players g)) g).

(** The [disconnect] handler: the loop over the Map stops at the first game
    seating the socket. *)
Definition onDisconnect (games : Games) (socketId : string) : Games :=
  match list_find (λ g, is_Some (findSeat socketId g)) games with
  | Some (i, g) =>
      match findSeat socketId g with
      | Some playerIndex =>
          let g' := leave playerIndex g in
          if length (players g') =? 0 then mapDelete (gameId g) games
          else <[i := g']> games
      | None => games
      end
  | None => games
  end.

(** A [join-game] message as it is handled: the string of [Date.now()], the
    id of the socket and the name sent. *)
Record Join := mkJoin {
  joinNow : string;
  joinSocket : string;
  joinName : string
}.

(** The Map after a sequence of joins, handled one after the other. *)
Definition joinAll (games : Games) (joins : list Join) : Games :=
  foldl (λ gs j, onJoinGame (joinNow j) gs (joinSocket j) (joinName j))
        games joins.

(** The player object the [join-game] handler pushes at seat [s]. *)
Definition joiner (j : Join) (s : nat) : Player :=
  mkPlayer (joinSocket j) (joinName j) (s + 1) [] [] [] 0 0 false 0 0 false.

(** ** Notions used to state the further properties *)

(** The place of a card in the order of [handleAutoSort]: suits in the order
    clubs, diamonds, hearts, spades; in a suit the ranks in the order
    10, 2, 3, ..., 9, A, J, K, Q. *)
Definition autoSortKey (c : Card) : Z :=
  (13 * match suit c with
        | clubs => 0 | diamonds => 1 | hearts => 2 | spades => 3
        end
   + match rank c with
     | r10 => 0 | r2 => 1 | r3 => 2 | r4 => 3 | r5 => 4 | r6 => 5 | r7 => 6
     | r8 => 7 | r9 => 8 | rA => 9 | rJ => 10 | rK => 11 | rQ => 12
     end)%Z.

(** The references of an array are coherent: slots with the same [uid] hold
    the same card, as slots holding one object do. *)
Definition coherent (cards : list Card) : Prop :=
  ∀ a b, a ∈ cards → b ∈ cards → uid a = uid b → a = b.

(** The card values of a hand added up, no meld taken out. *)
Definition rawPoints (cards : list Card) : nat :=
  sum_list (calculateCardPoints <$> cards).

(** What tells who sits at a seat: the fields of a player object set by the
    join. *)
Definition seatId (p : Player) : string * string * nat * bool :=
  (playerId p, name p, playerNumber p, isBot p).

(** The state of play: the fields of a game that the action handlers read. *)
Definition play (g : Game)
    : list Player * list Card * list (option Card) * nat * bool * bool * nat :=
  (players g, deck g, discardPile g, currentPlayerIndex g, hasDrawnThisTurn g,
   firstPlayerHasPlayed g, round g).

(** A handler failed. *)
Definition thrown (o : Outcome) : bool :=
  match o with Done _ => false | Thrown _ => true end.

(** The two ways the handling of an action of the seat in turn fails in
    state [g]: a sapaw on a player or on a meld that does not exist (a
    [TypeError]), and a draw that gets to the discard-pile branch of
    [handleDraw] (the [ReferenceError]). *)
Definition failing (g : Game) (playerIndex : nat) (a : Action) : Prop :=
  match a with
  | sapaw t m _ =>
      match jsAt (players g) t with
      | Some tp => jsAt (exposedMelds tp) m = None
      | None => True
      end
  | draw false _ =>
      hasDrawnThisTurn g = false ∧
      ¬ (playerIndex = 0 ∧ firstPlayerHasPlayed g = false) ∧
      discardPile g ≠ []
  | _ => False
  end.

(** The Map of the sessions is well formed: its keys are pairwise distinct,
    and every game it holds has at least one player and at most three. *)
Definition registryOk (games : Games) : Prop :=
  NoDup (gameId <$> games) ∧
  Forall (λ g, 1 ≤ length (players g) ≤ PLAYERS_REQUIRED) games.

(** The Map after the joins [joins], with no other message in between: game
    [m] seats the joins [3 * m], [3 * m + 1] and [3 * m + 2]. *)
Definition seatedInOrder (joins : list Join) (games : Games) : Prop :=
  (∀ m s j, s < 3 → joins !! (3 * m + s) = Some j →
     ∃ g, games !! m = Some g ∧ players g !! s = Some (joiner j s)) ∧
  (∀ m g, games !! m = Some g →
     3 * m < length joins ∧
     length (players g) = Nat.min 3 (length joins - 3 * m) ∧
     gameStarted g = bool_decide (length (players g) = 3) ∧
     ∃ j0, joins !! (3 * m) = Some j0 ∧ gameId g = joinNow j0).

(** ** Further concrete sessions *)

(** The late session with the socket of seat 0 seated at seat 1 as well, as
    the [join-game] handler seats a socket that joins twice. *)
Definition twiceSeated : Game :=
  G.withPlayers
    (alter (λ p, mkPlayer "s0" (name p) (playerNumber p) (hand p)
                   (exposedMelds p) (secretMelds p) (score p)
                   (consecutiveWins p) (isSapawed p) (points p)
                   (turnsPlayed p) (isBot p)) 1 (players lateGame))
    lateGame.

(** The session of a socket that joined twice before a second one joined,
    freshly started. *)
Definition twiceJoined : Game :=
  freshGame fixedRand "g" ("s0", "s0", "s2") ("ann", "ben", "cy").

(** The fixed session when the turn has reached seat 2: seat 0 has
    discarded, seat 1 has drawn from the deck and discarded. *)
Definition lastSeatInTurn : Game :=
  run fixedGame [ev 0 (discard 12); ev 1 (draw true []); ev 1 (discard 12)].
(** * Properties *)

(** ** Facts on the array primitives *)

Section ArrayFacts.
Context {A : Type}.
Implicit Types (l : list A) (cmp : A → A → Z).

Lemma sortInsert_perm cmp x l : sortInsert cmp x l ≡ₚ x :: l.
Proof.
  induction l as [|y l IH]; simpl; [done|].
  destruct (cmp x y <=? 0)%Z; [done|].
  rewrite IH. apply Permutation_swap.
Qed.

Lemma jsSort_perm cmp l : jsSort cmp l ≡ₚ l.
Proof.
  induction l as [|x l IH]; simpl; [done|].
  rewrite sortInsert_perm. by f_equiv.
Qed.

Lemma jsSort_length cmp l : length (jsSort cmp l) = length l.
Proof. by rewrite (jsSort_perm cmp l). Qed.

(** With a comparator that subtracts keys, the result is ordered by key. *)
Lemma sortInsert_sorted cmp (key : A → Z) x l :
  (∀ a b, cmp a b = (key a - key b)%Z) →
  Sorted Z.le (key <$> l) → Sorted Z.le (key <$> sortInsert cmp x l).
Proof.
  intros Hcmp. induction l as [|y l IH]; simpl; intros Hs.
  - repeat constructor.
  - destruct (Z.leb_spec (cmp x y) 0) as [Hle|Hgt]; rewrite Hcmp in *.
    + simpl. constructor; [done|]. constructor. lia.
    + simpl. apply Sorted_inv in Hs as [Hs Hhd].
      constructor; [by apply IH|].
      destruct l as [|z l]; simpl.
      * constructor. lia.
      * destruct (Z.leb_spec (cmp x z) 0); simpl; constructor; try lia.
        by apply HdRel_inv in Hhd.
Qed.

Lemma jsSort_sorted cmp (key : A → Z) l :
  (∀ a b, cmp a b = (key a - key b)%Z) →
  Sorted Z.le (key <$> jsSort cmp l).
Proof.
  intros Hcmp. induction l as [|x l IH]; simpl; [constructor|].
  by apply sortInsert_sorted.
Qed.

Lemma everyFrom_spec i (f : nat → A → bool) l :
  everyFrom i f l = true ↔ ∀ k x, l !! k = Some x → f (i + k) x = true.
Proof.
  revert i. induction l as [|y l IH]; intros i; simpl.
  - split; [intros _ k x Hk; by destruct k | done].
  - rewrite andb_true_iff, IH. split.
    + intros [Hy Hl] [|k] x Hk; simpl in Hk.
      * injection Hk as <-. by rewrite Nat.add_0_r.
      * replace (i + S k) with (S i + k) by lia. by apply Hl.
    + intros H. split.
      * specialize (H 0 y eq_refl). by rewrite Nat.add_0_r in H.
      * intros k x Hk. replace (S i + k) with (i + S k) by lia. by apply H.
Qed.

Lemma allDefined_Some (cs : list A) : allDefined (Some <$> cs) = Some cs.
Proof. induction cs as [|c cs IH]; csimpl; [done|]. by rewrite IH. Qed.

Lemma allDefined_inv (arr : list (option A)) cs :
  allDefined arr = Some cs → arr = Some <$> cs.
Proof.
  revert cs. induction arr as [|[x|] arr IH]; intros cs; simpl; try done.
  - by intros [= <-].
  - destruct (allDefined arr) as [l|]; [|done].
    intros [= <-]. by rewrite (IH l eq_refl).
Qed.

End ArrayFacts.

(** ** Meld validation (claim C3) *)

Lemma consecutiveFrom_sorted lo n : Sorted Z.le (consecutiveFrom lo n).
Proof.
  revert lo. induction n as [|n IH]; intros lo; simpl; constructor; [apply IH|].
  destruct n; simpl; constructor. lia.
Qed.

(** Neighbours differ by one exactly when the list counts up from its head. *)
Lemma adjacent_consecutiveFrom (ks : list Z) :
  (∀ i p c, ks !! i = Some p → ks !! S i = Some c → (c - p)%Z = 1%Z) ↔
  ks = consecutiveFrom (default 0%Z (head ks)) (length ks).
Proof.
  induction ks as [|k ks IH]; simpl; [done|].
  split.
  - intros H. f_equal.
    destruct ks as [|k' ks]; simpl in *; [done|].
    assert (k' = (k + 1)%Z) as -> by (specialize (H 0 k k' eq_refl eq_refl); lia).
    apply IH. intros i p c Hp Hc. exact (H (S i) p c Hp Hc).
  - intros [= Heq] i p c Hp Hc.
    destruct ks as [|k' ks]; [by destruct i|].
    simpl in Heq. injection Heq as -> Heq.
    destruct i as [|i]; simpl in *.
    + injection Hp as <-. injection Hc as <-. lia.
    + eapply (proj2 IH); [|exact Hp|exact Hc]. simpl. by f_equal.
Qed.

Lemma Sorted_Zle_unique (l1 l2 : list Z) :
  Sorted Z.le l1 → Sorted Z.le l2 → l1 ≡ₚ l2 → l1 = l2.
Proof. apply (Sorted_unique Z.le). Qed.

Lemma sameRank_forallb (cs : list Card) :
  forallb (fun card : option Card =>
             match card, mjoin ((Some <$> cs) !! 0) with
             | Some c, Some c0 => bool_decide (rank c = rank c0)
             | _, _ => false
             end) (Some <$> cs) = true ↔
  ∃ r, ∀ c, c ∈ cs → rank c = r.
Proof.
  rewrite forallb_forall. setoid_rewrite <- list_elem_of_In.
  destruct cs as [|c0 cs]; simpl.
  - split; [intros _; exists rA; intros c Hc; by apply elem_of_nil in Hc|].
    intros _ x Hx. by apply elem_of_nil in Hx.
  - split.
    + intros H. exists (rank c0). intros c Hc.
      specialize (H (Some c)). simpl in H.
      apply bool_decide_eq_true in H; [done|]. 
      change (Some c ∈ Some <$> (c0 :: cs)). by apply list_elem_of_fmap_2.
    + intros [r Hr] x Hx.
      change (x ∈ Some <$> (c0 :: cs)) in Hx.
      apply list_elem_of_fmap in Hx as (c & -> & Hc).
      apply bool_decide_eq_true. rewrite (Hr c Hc). symmetry. apply Hr. left.
Qed.

Lemma isThreeOfAKind_spec (cs : list Card) :
  isThreeOfAKind (Some <$> cs) = true ↔
  length cs = 3 ∧ ∃ r, ∀ c, c ∈ cs → rank c = r.
Proof.
  unfold isThreeOfAKind. rewrite andb_true_iff, bool_decide_eq_true, sameRank_forallb.
  by rewrite length_fmap.
Qed.

Lemma isFourOfAKind_spec (cs : list Card) :
  isFourOfAKind (Some <$> cs) = true ↔
  length cs = 4 ∧ ∃ r, ∀ c, c ∈ cs → rank c = r.
Proof.
  unfold isFourOfAKind. rewrite andb_true_iff, bool_decide_eq_true, sameRank_forallb.
  by rewrite length_fmap.
Qed.

Lemma isStraightFlush_spec (cs : list Card) :
  isStraightFlush (Some <$> cs) = true ↔ isRun cs.
Proof.
  unfold isStraightFlush, isRun.
  rewrite length_fmap, allDefined_Some.
  case_bool_decide as Hlen; [split; [done|lia]|].
  set (s := jsSort byRank cs).
  assert (Hperm : s ≡ₚ cs) by apply jsSort_perm.
  assert (Hsorted : Sorted Z.le ((rankToNumber ∘ rank) <$> s))
    by (apply jsSort_sorted; done).
  assert (Hslen : length s = length cs) by apply jsSort_length.
  rewrite andb_true_iff.
  assert (Hsuit :
    forallb (fun card => match s !! 0 with
                         | Some c0 => bool_decide (suit card = suit c0)
                         | None => false end) s = true ↔
    ∃ st, ∀ c, c ∈ cs → suit c = st).
  { rewrite forallb_forall. setoid_rewrite <- list_elem_of_In.
    setoid_rewrite <- Hperm.
    destruct s as [|c0 s']; [simpl in Hslen; lia|]. simpl. split.
    - intros H. exists (suit c0). intros c Hc.
      specialize (H c Hc). by apply bool_decide_eq_true in H.
    - intros [st Hst] c Hc. apply bool_decide_eq_true.
      rewrite (Hst c Hc). symmetry. apply Hst. left. }
  assert (Hcons :
    every (fun index card =>
             (index =? 0) ||
             match s !! (index - 1) with
             | Some prev =>
                 (rankToNumber (rank card) - rankToNumber (rank prev) =? 1)%Z
             | None => false
             end) s = true ↔
    ∃ lo, (rankToNumber ∘ rank) <$> cs ≡ₚ consecutiveFrom lo (length cs)).
  { unfold every. rewrite everyFrom_spec.
    rewrite <- Hslen. setoid_rewrite <- Hperm.
    trans (∀ i p c, ((rankToNumber ∘ rank) <$> s) !! i = Some p →
                    ((rankToNumber ∘ rank) <$> s) !! S i = Some c →
                    (c - p)%Z = 1%Z).
    - split.
      + intros H i p c Hp Hc.
        rewrite list_lookup_fmap in Hp, Hc.
        destruct (s !! i) as [cp|] eqn:Ei; [|done].
        destruct (s !! S i) as [cc|] eqn:Esi; [|done].
        simpl in Hp, Hc. injection Hp as <-. injection Hc as <-.
        specialize (H (S i) cc Esi). simpl in H.
        rewrite Nat.sub_0_r, Ei in H. by apply Z.eqb_eq in H.
      + intros H [|k] x Hk; simpl; [done|].
        rewrite Nat.sub_0_r.
        destruct (s !! k) as [cp|] eqn:Ek.
        * apply Z.eqb_eq. apply (H k); rewrite list_lookup_fmap.
          -- by rewrite Ek.
          -- by rewrite Hk.
        * apply lookup_ge_None in Ek. apply lookup_lt_Some in Hk. lia.
    - rewrite adjacent_consecutiveFrom, length_fmap. split.
      + intros H. eexists. by rewrite H at 1.
      + intros [lo Hlo].
        assert (Heq : (rankToNumber ∘ rank) <$> s = consecutiveFrom lo (length s)).
        { apply Sorted_Zle_unique; [done|apply consecutiveFrom_sorted|done]. }
        rewrite Heq. f_equal. destruct (length s) eqn:E; [lia|done]. }
  rewrite Hsuit, Hcons. split; [intros [? ?]; split; [lia|done] | intros (? & ? & ?); done].
Qed.

Lemma isValidMeld_spec (cs : list Card) :
  isValidMeld (Some <$> cs) = true ↔ isSet cs ∨ isRun cs.
Proof.
  unfold isValidMeld, isSet.
  rewrite !orb_true_iff, isThreeOfAKind_spec, isFourOfAKind_spec,
    isStraightFlush_spec.
  tauto.
Qed.

(** A meld with an [undefined] slot never validates. *)
Lemma isValidMeld_defined (cards : list (option Card)) :
  isValidMeld cards = true → ∃ cs, cards = Some <$> cs.
Proof.
  intros H. destruct (allDefined cards) as [cs|] eqn:E.
  { exists cs. by apply allDefined_inv. }
  exfalso. revert H. unfold isValidMeld, isThreeOfAKind, isFourOfAKind, isStraightFlush.
  rewrite E.
  assert (Hf : forallb (fun card : option Card =>
             match card, mjoin (cards !! 0) with
             | Some c, Some c0 => bool_decide (rank c = rank c0)
             | _, _ => false
             end) cards = false).
  { clear -E. generalize (mjoin (cards !! 0)) as o. intros o.
    induction cards as [|[c|] cards IH]; simpl in *; try done.
    - destruct (allDefined cards); [done|]. rewrite IH by done. apply andb_false_r. }
  rewrite Hf, !andb_false_r. simpl. by case_bool_decide.
Qed.

Lemma isValidMeld_length (cards : list (option Card)) :
  isValidMeld cards = true → 3 ≤ length cards.
Proof.
  intros H. destruct (isValidMeld_defined _ H) as [cs ->].
  rewrite length_fmap. apply isValidMeld_spec in H as [[[?|?] _]|[? _]]; lia.
Qed.

(** Validity depends on the cards of a meld and not on their order. *)
Lemma isSet_perm (cs1 cs2 : list Card) : cs1 ≡ₚ cs2 → isSet cs1 → isSet cs2.
Proof.
  intros Hp [Hl [r Hr]]. split; [by rewrite <- Hp|].
  exists r. intros c Hc. apply Hr. by rewrite Hp.
Qed.

Lemma isRun_perm (cs1 cs2 : list Card) : cs1 ≡ₚ cs2 → isRun cs1 → isRun cs2.
Proof.
  intros Hp (Hl & [s Hs] & [lo Hlo]). split; [by rewrite <- Hp|]. split.
  - exists s. intros c Hc. apply Hs. by rewrite Hp.
  - exists lo. by rewrite <- Hp.
Qed.

Lemma isValidMeld_perm (cs1 cs2 : list Card) :
  cs1 ≡ₚ cs2 → isValidMeld (Some <$> cs1) = isValidMeld (Some <$> cs2).
Proof.
  intros Hp. apply eq_true_iff_eq. rewrite !isValidMeld_spec.
  split; (intros [?|?]; [left; eapply isSet_perm | right; eapply isRun_perm]);
    done.
Qed.

(** C3. [isValidMeld] holds exactly of the sets (three or four cards of one
    rank) and the runs (three or more cards of one suit with consecutive ranks,
    ace low); fewer than three cards never validate; the five melds of the
    specification are judged as it says. *)
Theorem C3_isValidMeld_sets_and_runs :
  (∀ cs : list Card, isValidMeld (Some <$> cs) = true ↔ isSet cs ∨ isRun cs) ∧
  (∀ cards : list (option Card),
     isValidMeld cards && (length cards <? 3) = false) ∧
  isValidMeld [Some (mkCard 0 spades r9); Some (mkCard 1 hearts r9);
               Some (mkCard 2 diamonds r9)] = true ∧
  isValidMeld [Some (mkCard 0 spades r9); Some (mkCard 1 hearts r9);
               Some (mkCard 2 diamonds r9); Some (mkCard 3 clubs r9)] = true ∧
  isValidMeld [Some (mkCard 0 clubs r3); Some (mkCard 1 clubs r4);
               Some (mkCard 2 clubs r5)] = true ∧
  isValidMeld [Some (mkCard 0 clubs r3); Some (mkCard 1 clubs r5);
               Some (mkCard 2 clubs r7)] = false ∧
  isValidMeld [Some (mkCard 0 spades r9); Some (mkCard 1 hearts r9);
               Some (mkCard 2 diamonds r8)] = false ∧
  isValidMeld [Some (mkCard 0 spades rQ); Some (mkCard 1 spades rK);
               Some (mkCard 2 spades rA)] = false.
Proof.
  split; [exact isValidMeld_spec|]. split; [|by vm_compute].
  intros cards. destruct (isValidMeld cards) eqn:E; [|done].
  apply isValidMeld_length in E. simpl. apply Nat.ltb_ge. lia.
Qed.

(** ** Scoring (claims C10 and C4) *)

Lemma meldLoop_cards fuel cards melds1 melds2 :
  (meldLoop fuel cards melds1).1 = (meldLoop fuel cards melds2).1.
Proof.
  revert cards melds1 melds2.
  induction fuel as [|fuel IH]; intros cards melds1 melds2; simpl; [done|].
  destruct (findAndRemoveMeld cards) as [[m cards']|]; [apply IH|done].
Qed.

Lemma meldLoop_melds fuel cards melds :
  ∃ found, (meldLoop fuel cards melds).2 = melds ++ found.
Proof.
  revert cards melds.
  induction fuel as [|fuel IH]; intros cards melds; simpl.
  - exists []. by rewrite app_nil_r.
  - destruct (findAndRemoveMeld cards) as [[m cards']|]; simpl.
    + destruct (IH cards' (melds ++ [Some <$> m])) as [found ->].
      eexists. by rewrite <- app_assoc.
    + exists []. by rewrite app_nil_r.
Qed.

Lemma calculateHandPoints_eq hand secretMelds :
  calculateHandPoints hand secretMelds =
  foldl (fun total card => total + calculateCardPoints card) 0
        (meldLoop (length hand) hand secretMelds).1.
Proof. unfold calculateHandPoints. by destruct (meldLoop _ _ _). Qed.

(** C10. The points of a hand do not depend on the secret melds passed:
    they are collected in front of the melds found, and the total is taken
    over the cards left alone. *)
Theorem C10_secretMelds_ignored :
  ∀ (hand : list Card) (s1 s2 : list (list (option Card))),
    calculateHandPoints hand s1 = calculateHandPoints hand s2 ∧
    calculateHandPoints hand s1 = calculateHandPoints hand [] ∧
    ∃ found, (meldLoop (length hand) hand s1).2 = s1 ++ found.
Proof.
  intros hand s1 s2. rewrite !calculateHandPoints_eq.
  rewrite (meldLoop_cards _ _ s1 s2), (meldLoop_cards _ _ s2 []).
  split; [done|]. split; [done|]. apply meldLoop_melds.
Qed.

Section FirstSome.
Context {A B : Type}.
Implicit Types (f g : A → option B) (l : list A).

Lemma firstSome_app f l1 l2 :
  firstSome f (l1 ++ l2) =
  match firstSome f l1 with Some y => Some y | None => firstSome f l2 end.
Proof.
  induction l1 as [|x l1 IH]; simpl; [done|]. by destruct (f x).
Qed.

Lemma firstSome_None f l : (∀ x, x ∈ l → f x = None) → firstSome f l = None.
Proof.
  induction l as [|x l IH]; simpl; intros H; [done|].
  rewrite (H x) by left. apply IH. intros y Hy. apply H. by right.
Qed.

Lemma firstSome_ext f g l :
  (∀ x, x ∈ l → f x = g x) → firstSome f l = firstSome g l.
Proof.
  induction l as [|x l IH]; simpl; intros H; [done|].
  rewrite (H x) by left. rewrite IH; [done|]. intros y Hy. apply H. by right.
Qed.

Lemma firstSome_fmap {C : Type} f (h : C → A) (l : list C) :
  firstSome f (h <$> l) = firstSome (f ∘ h) l.
Proof. induction l as [|x l IH]; csimpl; [done|]. by rewrite IH. Qed.

Lemma firstSome_Some_inv f l y :
  firstSome f l = Some y →
  ∃ l1 x l2, l = l1 ++ x :: l2 ∧ f x = Some y ∧ ∀ z, z ∈ l1 → f z = None.
Proof.
  induction l as [|x l IH]; simpl; [done|].
  destruct (f x) as [y'|] eqn:E.
  - intros [= <-]. exists [], x, l. split; [done|]. split; [done|].
    intros z Hz. by apply elem_of_nil in Hz.
  - intros H. destruct (IH H) as (l1 & x' & l2 & -> & Hx' & Hl1).
    exists (x :: l1), x', l2. split; [done|]. split; [done|].
    intros z [->|Hz]%elem_of_cons; auto.
Qed.
End FirstSome.

Lemma firstSome_seq_extend {B : Type} (f : nat → option B) a m m' :
  m ≤ m' → (∀ x, a + m ≤ x < a + m' → f x = None) →
  firstSome f (seq a m') = firstSome f (seq a m).
Proof.
  intros Hle Hnone. replace m' with (m + (m' - m)) by lia.
  rewrite seq_app, firstSome_app.
  destruct (firstSome f (seq a m)); [done|].
  apply firstSome_None. intros x Hx. apply elem_of_seq in Hx. apply Hnone. lia.
Qed.

Lemma firstSome_head_filter {A : Type} (p : A → bool) (l : list A) :
  firstSome (λ x, if p x then Some x else None) l =
  head (filter (λ x, p x = true) l).
Proof.
  induction l as [|x l IH]; simpl; [done|].
  rewrite filter_cons. destruct (p x) eqn:E.
  - by rewrite decide_True.
  - by rewrite decide_False by congruence.
Qed.

Lemma head_filter_bind {A B : Type} (P : B → Prop) `{!∀ y, Decision (P y)}
    (g : A → list B) (l : list A) :
  head (filter P (l ≫= g)) = firstSome (λ x, head (filter P (g x))) l.
Proof.
  induction l as [|x l IH]; csimpl; [done|].
  rewrite filter_app. destruct (filter P (g x)) as [|y ?]; simpl; [apply IH|done].
Qed.

Lemma head_filter_Some {A : Type} (P : A → Prop) `{!∀ y, Decision (P y)}
    (l : list A) (x : A) :
  head (filter P l) = Some x → x ∈ l ∧ P x.
Proof.
  intros Hh. apply head_Some_elem_of in Hh.
  by apply list_elem_of_filter in Hh as [? ?].
Qed.

Lemma elem_of_indexTriples n i j k :
  (i, j, k) ∈ indexTriples n ↔ i < j ∧ j < k ∧ k < n.
Proof.
  unfold indexTriples.
  setoid_rewrite list_elem_of_bind. setoid_rewrite list_elem_of_bind.
  setoid_rewrite list_elem_of_bind.
  setoid_rewrite elem_of_seq. setoid_rewrite list_elem_of_singleton.
  split.
  - intros (i' & (j' & (k' & [= -> -> ->] & ?) & ?) & ?). lia.
  - intros (? & ? & ?). exists i. split; [|lia]. exists j. split; [|lia].
    exists k. split; [done|lia].
Qed.

(** The three nested loops visit the index triples in increasing order and
    stop at the first one of equal ranks. *)
Lemma findSetIndices_spec cards : findSetIndices cards = firstThreeOfAKind cards.
Proof.
  unfold findSetIndices, firstThreeOfAKind, indexTriples, range.
  set (n := length cards). rewrite head_filter_bind.
  symmetry. etrans.
  { apply (firstSome_seq_extend _ 0 (n - 2 - 0) n); [lia|].
    intros i Hi. rewrite head_filter_bind. apply firstSome_None.
    intros j Hj%elem_of_seq. rewrite head_filter_bind. apply firstSome_None.
    intros k Hk%elem_of_seq. lia. }
  apply firstSome_ext. intros i Hi%elem_of_seq. rewrite head_filter_bind.
  replace (i + 1) with (S i) by lia. etrans.
  { apply (firstSome_seq_extend _ (S i) (n - 1 - S i) (n - S i)); [lia|].
    intros j Hj. rewrite head_filter_bind. apply firstSome_None.
    intros k Hk%elem_of_seq. lia. }
  apply firstSome_ext. intros j Hj%elem_of_seq. rewrite head_filter_bind.
  replace (j + 1) with (S j) by lia.
  apply firstSome_ext. intros k Hk%elem_of_seq.
  rewrite filter_cons, filter_nil. unfold sameRankAt. simpl.
  destruct (cards !! i) as [ci|]; [|by rewrite decide_False].
  destruct (cards !! j) as [cj|]; [|by rewrite decide_False].
  destruct (cards !! k) as [ck|]; [|by rewrite decide_False].
  rewrite <- bool_decide_and.
  by destruct (bool_decide _).
Qed.

Lemma findRunWindow_spec (s : list Card) :
  findRunWindow s = head (filter (λ w, isRunOfThree w = true) (windows3 s)).
Proof.
  unfold findRunWindow, windows3, range.
  induction s as [|x s IH]; [done|].
  destruct s as [|y [|z r]]; [done|done|].
  replace (length (x :: y :: z :: r) - 2 - 0) with (S (length r)) by (simpl; lia).
  replace (length (y :: z :: r) - 2 - 0) with (length r) in IH by (simpl; lia).
  rewrite <- cons_seq, <- fmap_S_seq.
  cbn [firstSome]. rewrite firstSome_fmap.
  change (zip (zip (x :: y :: z :: r) (drop 1 (x :: y :: z :: r)))
              (drop 2 (x :: y :: z :: r)))
    with ((x, y, z) :: zip (zip (y :: z :: r) (drop 1 (y :: z :: r)))
                            (drop 2 (y :: z :: r))).
  rewrite filter_cons. cbn [lookup list_lookup Nat.add].
  assert (Hb : bool_decide (suit x = suit y) && bool_decide (suit y = suit z) &&
               (rankToNumber (rank y) - rankToNumber (rank x) =? 1)%Z &&
               (rankToNumber (rank z) - rankToNumber (rank y) =? 1)%Z
               = isRunOfThree (x, y, z)).
  { unfold isRunOfThree. simpl. apply eq_true_iff_eq.
    rewrite !andb_true_iff, !bool_decide_eq_true, !Z.eqb_eq. intuition lia. }
  rewrite Hb. destruct (isRunOfThree (x, y, z)) eqn:E; [done|].
  rewrite decide_False by done. rewrite <- IH.
  apply firstSome_ext. intros i _. simpl.
  by replace (i + 1) with (S i) by lia.
Qed.

Lemma elem_of_windows3 (l : list Card) a b c :
  (a, b, c) ∈ windows3 l → a ∈ l ∧ b ∈ l ∧ c ∈ l.
Proof.
  unfold windows3. intros H.
  pose proof (elem_of_zip_l _ _ _ _ H) as H1.
  pose proof (elem_of_zip_r _ _ _ _ H) as H2.
  pose proof (elem_of_zip_l _ _ _ _ H1) as H3.
  pose proof (elem_of_zip_r _ _ _ _ H1) as H4.
  split; [done|]. split.
  - eapply elem_of_sublist; [exact H4|]. apply sublist_drop.
  - eapply elem_of_sublist; [exact H2|]. apply sublist_drop.
Qed.

(** *** Removing the cards of a meld *)

Lemma delete_min {A : Type} (l : list A) k :
  delete (Nat.min k (length l)) l = delete k l.
Proof.
  destruct (decide (k < length l)) as [Hlt|Hge].
  - by rewrite Nat.min_l by lia.
  - rewrite Nat.min_r by lia.
    rewrite !delete_take_drop, !take_ge, !drop_ge by lia. done.
Qed.

Lemma splice1_nat {A : Type} (l : list A) (k : nat) :
  (splice1 l (Z.of_nat k)).2 = delete k l.
Proof.
  unfold splice1, spliceStart. simpl.
  destruct (Z.ltb_spec (Z.of_nat k) 0); [lia|].
  rewrite Nat2Z.id. apply delete_min.
Qed.

Lemma withoutPositionsFrom_below off ps hand :
  (∀ p, p ∈ ps → p < off) → withoutPositionsFrom off ps hand = hand.
Proof.
  revert off. induction hand as [|c hand IH]; intros off H; simpl; [done|].
  rewrite bool_decide_false by (intros Hin; apply H in Hin; lia).
  f_equal. apply IH. intros p Hp. apply H in Hp. lia.
Qed.

Lemma withoutPositionsFrom_delete off k ps hand :
  (∀ p, p ∈ ps → p < off + k) →
  withoutPositionsFrom off (off + k :: ps) hand =
  withoutPositionsFrom off ps (delete k hand).
Proof.
  revert off k. induction hand as [|c hand IH]; intros off k H; [by destruct k|].
  destruct k as [|k]; simpl.
  - rewrite Nat.add_0_r in *. rewrite bool_decide_true by left.
    rewrite !withoutPositionsFrom_below; [done|..].
    + intros p Hp. apply H in Hp. lia.
    + intros p [->|Hp]%elem_of_cons; [lia|]. apply H in Hp. lia.
  - replace (off + S k) with (S off + k) by lia.
    rewrite <- IH by (intros p Hp; apply H in Hp; lia).
    assert (Hiff : off ∈ S off + k :: ps ↔ off ∈ ps).
    { rewrite elem_of_cons. split; [intros [?|?]; [lia|done]|by right]. }
    by rewrite (bool_decide_ext _ _ Hiff).
Qed.

Lemma withoutPositionsFrom_ext off ps ps' hand :
  (∀ p, p ∈ ps ↔ p ∈ ps') →
  withoutPositionsFrom off ps hand = withoutPositionsFrom off ps' hand.
Proof.
  intros H. revert off. induction hand as [|c hand IH]; intros off; simpl; [done|].
  by rewrite (bool_decide_ext _ _ (H off)), IH.
Qed.

(** Splicing out the highest index first removes the three positions. *)
Lemma splice_three (hand : list Card) (i j k : nat) :
  i < j → j < k →
  (splice1 (splice1 (splice1 hand (Z.of_nat k)).2 (Z.of_nat j)).2 (Z.of_nat i)).2
  = withoutPositions [i; j; k] hand.
Proof.
  intros Hij Hjk. rewrite !splice1_nat. unfold withoutPositions.
  rewrite (withoutPositionsFrom_ext 0 [i; j; k] (0 + k :: 0 + j :: 0 + i :: [])).
  2:{ intros p. rewrite !elem_of_cons. simpl. tauto. }
  rewrite withoutPositionsFrom_delete.
  2:{ intros p. rewrite !elem_of_cons, elem_of_nil. simpl. lia. }
  rewrite withoutPositionsFrom_delete.
  2:{ intros p. rewrite !elem_of_cons, elem_of_nil. simpl. lia. }
  rewrite withoutPositionsFrom_delete.
  2:{ intros p. rewrite elem_of_nil. done. }
  symmetry. apply withoutPositionsFrom_below. intros p. by rewrite elem_of_nil.
Qed.

Lemma sameObject_eq (a b : Card) : sameObject a b = true ↔ uid a = uid b.
Proof. apply Nat.eqb_eq. Qed.

Lemma indexOfFrom_found (x : Card) (l : list Card) (i : Z) :
  (∃ y, y ∈ l ∧ sameObject y x = true) →
  ∃ l1 e l2, l = l1 ++ e :: l2 ∧ sameObject e x = true ∧
    indexOfFrom sameObject x l i = (i + Z.of_nat (length l1))%Z ∧
    withoutObject x l = l1 ++ l2.
Proof.
  revert i. induction l as [|y l IH]; intros i [z [Hz Hzx]].
  { by apply elem_of_nil in Hz. }
  simpl. destruct (sameObject y x) eqn:E.
  - exists [], y, l. simpl. repeat split; [done|lia].
  - destruct (IH (i + 1)%Z) as (l1 & e & l2 & -> & He & Hidx & Hw).
    { exists z. split; [|done]. apply elem_of_cons in Hz as [->|?]; [congruence|done]. }
    exists (y :: l1), e, l2. rewrite Hidx, Hw. simpl. repeat split; [done|lia].
Qed.

(** Splicing at [indexOf] removes the first slot that holds the object;
    every other card of the array stays. *)
Lemma spliceOut_found (x : Card) (l : list Card) :
  (∃ y, y ∈ l ∧ sameObject y x = true) →
  ∃ e, sameObject e x = true ∧
    spliceOut l x = withoutObject x l ∧
    S (length (withoutObject x l)) = length l ∧
    ∀ z, z ∈ l → z = e ∨ z ∈ withoutObject x l.
Proof.
  intros H. destruct (indexOfFrom_found x l 0 H) as (l1 & e & l2 & -> & He & Hidx & Hw).
  exists e. split; [done|]. rewrite Hw. repeat split.
  - unfold spliceOut, indexOf. rewrite Hidx, Z.add_0_l, splice1_nat.
    apply delete_middle.
  - rewrite !length_app. simpl. lia.
  - intros z. rewrite !elem_of_app, elem_of_cons. tauto.
Qed.

Lemma spliceOut_three (cards : list Card) (a b c : Card) :
  a ∈ cards → b ∈ cards → c ∈ cards → a ≠ b → b ≠ c → a ≠ c →
  spliceOut (spliceOut (spliceOut cards c) b) a =
    withoutObject a (withoutObject b (withoutObject c cards)) ∧
  length (withoutObject a (withoutObject b (withoutObject c cards))) + 3 =
    length cards.
Proof.
  intros Ha Hb Hc Hab Hbc Hac.
  destruct (spliceOut_found c cards) as (e1 & He1 & -> & Hl1 & Hin1).
  { exists c. split; [done|]. by apply sameObject_eq. }
  apply sameObject_eq in He1.
  destruct (spliceOut_found b (withoutObject c cards)) as (e2 & He2 & -> & Hl2 & Hin2).
  { destruct (Hin1 b Hb) as [->|Hb1].
    - destruct (Hin1 c Hc) as [->|Hc1]; [done|].
      exists c. split; [done|]. apply sameObject_eq. congruence.
    - exists b. split; [done|]. by apply sameObject_eq. }
  apply sameObject_eq in He2.
  destruct (spliceOut_found a (withoutObject b (withoutObject c cards)))
    as (e3 & He3 & -> & Hl3 & Hin3).
  { destruct (Hin1 a Ha) as [->|Ha1].
    - destruct (Hin1 c Hc) as [->|Hc1]; [done|].
      destruct (Hin2 c Hc1) as [->|Hc2].
      + destruct (Hin1 b Hb) as [->|Hb1]; [done|].
        destruct (Hin2 b Hb1) as [->|Hb2]; [done|].
        exists b. split; [done|]. apply sameObject_eq. congruence.
      + exists c. split; [done|]. apply sameObject_eq. congruence.
    - destruct (Hin2 a Ha1) as [->|Ha2].
      + destruct (Hin1 b Hb) as [->|Hb1].
        * destruct (Hin1 c Hc) as [->|Hc1]; [done|].
          destruct (Hin2 c Hc1) as [->|Hc2]; [done|].
          exists c. split; [done|]. apply sameObject_eq. congruence.
        * destruct (Hin2 b Hb1) as [->|Hb2]; [done|].
          exists b. split; [done|]. apply sameObject_eq. congruence.
      + exists a. split; [done|]. by apply sameObject_eq. }
  split; [done|lia].
Qed.

(** *** The sort by rank of the code and the rank-sorted hand *)

Lemma sortInsert_skip {A : Type} (cmp : A → A → Z) (x : A) (l1 l2 : list A) :
  Forall (λ y, (0 < cmp x y)%Z) l1 →
  sortInsert cmp x (l1 ++ l2) = l1 ++ sortInsert cmp x l2.
Proof.
  induction 1 as [|y l1 Hy _ IH]; simpl; [done|].
  destruct (Z.leb_spec (cmp x y) 0); [lia|]. by rewrite IH.
Qed.

Lemma sortInsert_here {A : Type} (cmp : A → A → Z) (x : A) (l : list A) :
  Forall (λ y, (cmp x y ≤ 0)%Z) l → sortInsert cmp x l = x :: l.
Proof.
  destruct 1 as [|y l Hy _]; simpl; [done|].
  by destruct (Z.leb_spec (cmp x y) 0); [|lia].
Qed.

Lemma ranks_below (x : Card) (r : Rank) (l : list Card) :
  (rankToNumber r < rankToNumber (rank x))%Z →
  Forall (λ y, (0 < byRank x y)%Z) (filter (λ c, rank c = r) l).
Proof.
  intros Hr. apply Forall_forall. intros y [Hy _]%list_elem_of_filter.
  unfold byRank. rewrite Hy. lia.
Qed.

Lemma ranks_from (x : Card) (r : Rank) (l : list Card) :
  (rankToNumber (rank x) ≤ rankToNumber r)%Z →
  Forall (λ y, (byRank x y ≤ 0)%Z) (filter (λ c, rank c = r) l).
Proof.
  intros Hr. apply Forall_forall. intros y [Hy _]%list_elem_of_filter.
  unfold byRank. rewrite Hy. lia.
Qed.

(** [sort] with the comparator of the code gives the rank-sorted hand. *)
Lemma jsSort_byRank_rankSorted (hand : list Card) :
  jsSort byRank hand = rankSorted hand.
Proof.
  induction hand as [|x hand IH]; [done|].
  cbn [jsSort foldr]. fold (jsSort byRank hand). rewrite IH.
  unfold rankSorted. csimpl. rewrite !filter_cons.
  destruct x as [u s r]. cbn [rank].
  destruct r; cbn [decide decide_rel Rank_eq_dec];
    repeat (case_decide; [discriminate || idtac|congruence || idtac]);
    cbn [app];
    repeat (rewrite sortInsert_skip by (apply ranks_below; by vm_compute));
    repeat (apply (f_equal (app _)));
    apply sortInsert_here;
    repeat (apply Forall_app; split; [apply ranks_from; by vm_compute|]);
    constructor.
Qed.

Lemma filter_rank_other (r r' : Rank) (hand : list Card) :
  r' ≠ r →
  filter (λ c, rank c = r) (filter (λ c, rank c = r') hand) = [].
Proof.
  intros Hr. induction hand as [|c hand IH]; [done|].
  rewrite filter_cons. case_decide; [|done].
  rewrite filter_cons. case_decide; [congruence|done].
Qed.

Lemma filter_rank_same (r : Rank) (hand : list Card) :
  filter (λ c, rank c = r) (filter (λ c, rank c = r) hand)
  = filter (λ c, rank c = r) hand.
Proof.
  induction hand as [|c hand IH]; [done|].
  rewrite filter_cons. case_decide; [|done].
  rewrite filter_cons. case_decide; [by rewrite IH|done].
Qed.

(** The cards of one rank keep the order of the hand. *)
Lemma rankSorted_filter (hand : list Card) (r : Rank) :
  filter (λ c, rank c = r) (rankSorted hand) = filter (λ c, rank c = r) hand.
Proof.
  unfold rankSorted. csimpl. rewrite !filter_app.
  destruct r; rewrite ?filter_rank_same, ?filter_rank_other by done;
    by rewrite ?app_nil_r.
Qed.

Lemma rankSorted_perm (hand : list Card) : rankSorted hand ≡ₚ hand.
Proof. rewrite <- jsSort_byRank_rankSorted. apply jsSort_perm. Qed.

Lemma firstThreeOfAKind_bounds hand i j k :
  firstThreeOfAKind hand = Some (i, j, k) → i < j ∧ j < k ∧ k < length hand.
Proof.
  intros H. apply head_filter_Some in H as [H _].
  by apply elem_of_indexTriples in H.
Qed.

Lemma firstRunOfThree_cards hand a b c :
  firstRunOfThree hand = Some (a, b, c) →
  a ∈ hand ∧ b ∈ hand ∧ c ∈ hand ∧ a ≠ b ∧ b ≠ c ∧ a ≠ c.
Proof.
  intros H. apply head_filter_Some in H as [Hin Hrun].
  apply elem_of_windows3 in Hin. rewrite !(rankSorted_perm hand) in Hin.
  destruct Hin as (? & ? & ?).
  unfold isRunOfThree in Hrun. apply bool_decide_eq_true in Hrun. simpl in Hrun.
  destruct Hrun as (_ & _ & Hr1 & Hr2).
  repeat split; try done; intros ->; lia.
Qed.

(** The code's extraction is the one the specification describes. *)
Lemma findAndRemoveMeld_spec cards :
  snd <$> findAndRemoveMeld cards = extractMeld cards.
Proof.
  unfold findAndRemoveMeld, extractMeld.
  rewrite findSetIndices_spec.
  destruct (firstThreeOfAKind cards) as [[[i j] k]|] eqn:Eset.
  - apply firstThreeOfAKind_bounds in Eset as (? & ? & ?).
    simpl. f_equal. by apply splice_three.
  - rewrite findRunWindow_spec, jsSort_byRank_rankSorted.
    fold (firstRunOfThree cards).
    destruct (firstRunOfThree cards) as [[[a b] c]|] eqn:Erun; [|done].
    apply firstRunOfThree_cards in Erun as (? & ? & ? & ? & ? & ?).
    simpl. f_equal. by apply spliceOut_three.
Qed.

Lemma extractMeld_length hand rest :
  extractMeld hand = Some rest → length rest + 3 = length hand.
Proof.
  unfold extractMeld.
  destruct (firstThreeOfAKind hand) as [[[i j] k]|] eqn:Eset.
  - apply firstThreeOfAKind_bounds in Eset as (? & ? & ?).
    intros [= <-]. rewrite <- splice_three, !splice1_nat by done.
    assert (L1 : length (delete k hand) = length hand - 1)
      by (apply length_delete, lookup_lt_is_Some; lia).
    assert (L2 : length (delete j (delete k hand)) = length hand - 2)
      by (rewrite length_delete; [lia|apply lookup_lt_is_Some; lia]).
    rewrite length_delete; [lia|apply lookup_lt_is_Some; lia].
  - destruct (firstRunOfThree hand) as [[[a b] c]|] eqn:Erun; [|done].
    apply firstRunOfThree_cards in Erun as (? & ? & ? & ? & ? & ?).
    intros [= <-]. by apply spliceOut_three.
Qed.

Lemma findAndRemoveMeld_None cards :
  findAndRemoveMeld cards = None ↔ extractMeld cards = None.
Proof.
  rewrite <- findAndRemoveMeld_spec. by destruct (findAndRemoveMeld cards).
Qed.

(** With [length cards] iterations allowed the loop leaves through its
    [break], at the hand the repeated extraction reaches. *)
Lemma meldLoop_extractsTo fuel cards melds :
  length cards ≤ fuel → extractsTo cards (meldLoop fuel cards melds).1.
Proof.
  revert cards melds. induction fuel as [|fuel IH]; intros cards melds Hlen.
  - destruct cards; [|simpl in Hlen; lia]. by apply extracts_done.
  - simpl. pose proof (findAndRemoveMeld_spec cards) as Hspec.
    destruct (findAndRemoveMeld cards) as [[m cards']|]; simpl in Hspec.
    + eapply extracts_more; [done|]. apply IH.
      symmetry in Hspec. apply extractMeld_length in Hspec. lia.
    + by apply extracts_done.
Qed.

Lemma extractsTo_final hand final :
  extractsTo hand final → extractMeld final = None.
Proof. induction 1; done. Qed.

Lemma extractsTo_deterministic hand final1 final2 :
  extractsTo hand final1 → extractsTo hand final2 → final1 = final2.
Proof.
  intros H1. revert final2.
  induction H1 as [hand Hnone|hand rest final Hsome _ IH]; intros final2 H2.
  - destruct H2; [done|congruence].
  - destruct H2 as [hand Hnone|hand rest' final' Hsome' H2]; [congruence|].
    apply IH. by simplify_eq.
Qed.

Lemma meldLoop_exits hand melds :
  findAndRemoveMeld (meldLoop (length hand) hand melds).1 = None.
Proof.
  apply findAndRemoveMeld_None. eapply extractsTo_final.
  by apply meldLoop_extractsTo.
Qed.

Lemma calculateCardPoints_value c : calculateCardPoints c = cardValue c.
Proof. unfold calculateCardPoints, cardValue. by destruct (rank c). Qed.

Lemma foldl_points (l : list Card) (acc : nat) :
  foldl (fun total card => total + calculateCardPoints card) acc l =
  acc + sum_list (cardValue <$> l).
Proof.
  revert acc. induction l as [|c l IH]; intros acc; csimpl; [lia|].
  rewrite IH, calculateCardPoints_value. lia.
Qed.

(** The first triple found has equal ranks and no triple before it, in the
    order of the scan, has. *)
Lemma firstThreeOfAKind_least hand i j k :
  firstThreeOfAKind hand = Some (i, j, k) →
  sameRankAt hand (i, j, k) = true ∧
  ∃ before after,
    indexTriples (length hand) = before ++ (i, j, k) :: after ∧
    ∀ t, t ∈ before → sameRankAt hand t = false.
Proof.
  unfold firstThreeOfAKind. rewrite <- firstSome_head_filter.
  intros H. apply firstSome_Some_inv in H as (l1 & t & l2 & Hl & Ht & Hl1).
  destruct (sameRankAt hand t) eqn:E; [|done]. injection Ht as ->.
  split; [done|]. exists l1, l2. split; [done|].
  intros t Hin. specialize (Hl1 t Hin). by destruct (sameRankAt hand t).
Qed.

(** The rank-sorted hand has the cards of the hand, in the order of their
    rank numbers. *)
Lemma rankSorted_sorted (hand : list Card) :
  Sorted Z.le ((λ c, rankToNumber (rank c)) <$> rankSorted hand).
Proof.
  rewrite <- jsSort_byRank_rankSorted. by apply jsSort_sorted.
Qed.

(** C4. [calculateHandPoints] extracts melds one after the other, each time
    the first three-of-a-kind of the scan over the index triples and else the
    first run of three of the rank-sorted hand, until none is left, and adds
    up the values of the cards that remain (ace 1, 2 to 10 face value,
    J, Q, K 10). The rank-sorted hand holds the cards of the hand by
    increasing rank number, ace first and king last, the cards of one rank in
    the order of the hand. The hand A, 2, 3 of spades with the king of hearts
    scores 10, and so it does with the 2 held before the ace, where no three
    cards in a row of the hand as held are a run. *)
Theorem C4_calculateHandPoints_greedy :
  (∀ (hand : list Card) (secretMelds : list (list (option Card))),
     ∃ rest, extractsTo hand rest ∧
             (∀ rest', extractsTo hand rest' → rest' = rest) ∧
             calculateHandPoints hand secretMelds = sum_list (cardValue <$> rest)) ∧
  (∀ hand : list Card,
     rankSorted hand ≡ₚ hand ∧
     Sorted Z.le ((λ c, rankToNumber (rank c)) <$> rankSorted hand) ∧
     ∀ r, filter (λ c, rank c = r) (rankSorted hand)
          = filter (λ c, rank c = r) hand) ∧
  calculateHandPoints
    [mkCard 0 spades rA; mkCard 1 spades r2; mkCard 2 spades r3;
     mkCard 3 hearts rK] [] = 10 ∧
  windows3 [mkCard 1 spades r2; mkCard 0 spades rA; mkCard 2 spades r3;
            mkCard 3 hearts rK]
    = [(mkCard 1 spades r2, mkCard 0 spades rA, mkCard 2 spades r3);
       (mkCard 0 spades rA, mkCard 2 spades r3, mkCard 3 hearts rK)] ∧
  isRunOfThree (mkCard 1 spades r2, mkCard 0 spades rA, mkCard 2 spades r3)
    = false ∧
  isRunOfThree (mkCard 0 spades rA, mkCard 2 spades r3, mkCard 3 hearts rK)
    = false ∧
  calculateHandPoints
    [mkCard 1 spades r2; mkCard 0 spades rA; mkCard 2 spades r3;
     mkCard 3 hearts rK] [] = 10.
Proof.
  split; [|split; [|by vm_compute]].
  2: { intros hand. split; [apply rankSorted_perm|].
       split; [apply rankSorted_sorted|apply rankSorted_filter]. }
  intros hand secretMelds.
  exists (meldLoop (length hand) hand secretMelds).1.
  assert (Hext : extractsTo hand (meldLoop (length hand) hand secretMelds).1)
    by (by apply meldLoop_extractsTo).
  split; [done|]. split.
  - intros rest' Hrest'. by eapply extractsTo_deterministic.
  - by rewrite calculateHandPoints_eq, foldl_points.
Qed.

(** ** Ending a round (claims C7 and C8) *)

Lemma playerId_distinct (ps : list Player) i j p q :
  NoDup (playerId <$> ps) → ps !! i = Some p → ps !! j = Some q →
  playerId p = playerId q → i = j.
Proof.
  intros Hnd Hi Hj Heq.
  eapply NoDup_lookup; [exact Hnd|..]; rewrite list_lookup_fmap.
  - by rewrite Hi.
  - rewrite Hj. simpl. by f_equal.
Qed.

Lemma namedCards_Some (p : Player) (cardIndices : list Z) :
  namedCards (Some p) cardIndices = Some (jsAt (hand p) <$> cardIndices).
Proof. by destruct cardIndices. Qed.




(** The reduction keeps the first of the lowest scores. *)
Lemma lowestScore_first (scores : list (string * nat)) :
  scores ≠ [] →
  ∃ w sw, lowestScore scores = Some sw ∧ scores !! w = Some sw ∧
    (∀ i s, scores !! i = Some s → sw.2 ≤ s.2) ∧
    (∀ i s, i < w → scores !! i = Some s → sw.2 < s.2).
Proof.
  destruct scores as [|s0 rest]; [done|]. intros _. unfold lowestScore.
  induction rest as [|x rest IH] using rev_ind.
  - exists 0, s0. simpl. repeat split; [|intros; lia].
    intros [|i] s Hs; simpl in Hs; [by injection Hs as <-|by destruct i].
  - destruct IH as (w & sw & [= Hfold] & Hw & Hmin & Hfirst).
    rewrite foldl_app. simpl. rewrite Hfold.
    assert (Hlen : length (s0 :: rest) = S (length rest)) by done.
    destruct (Nat.ltb_spec x.2 sw.2) as [Hlt|Hge].
    + exists (length (s0 :: rest)), x. split; [done|].
      change (s0 :: rest ++ [x]) with ((s0 :: rest) ++ [x]).
      split; [by rewrite lookup_app_r, Nat.sub_diag by lia|]. split.
      * intros i s Hs. apply lookup_app_Some in Hs as [Hs|[_ Hs]].
        -- apply Hmin in Hs. lia.
        -- destruct (i - length (s0 :: rest)) as [|k]; simpl in Hs; [|by destruct k].
           injection Hs as <-. lia.
      * intros i s Hi Hs. rewrite lookup_app_l in Hs by lia.
        apply Hmin in Hs. lia.
    + exists w, sw. split; [done|].
      change (s0 :: rest ++ [x]) with ((s0 :: rest) ++ [x]).
      pose proof (lookup_lt_Some _ _ _ Hw) as Hwlt.
      split; [by rewrite lookup_app_l by lia|]. split.
      * intros i s Hs. apply lookup_app_Some in Hs as [Hs|[_ Hs]].
        -- by apply Hmin in Hs.
        -- destruct (i - length (s0 :: rest)) as [|k]; simpl in Hs; [|by destruct k].
           injection Hs as <-. lia.
      * intros i s Hi Hs. rewrite lookup_app_l in Hs by lia.
        by eapply Hfirst.
Qed.

(** C8 (as amended). In a session of at least one player whose players have
    pairwise distinct socket ids, calling the draw ends the round at once:
    every player is scored on the hand held, with no secret meld taken into
    account; the winner is the first player in seat order among those of
    lowest score, gains a consecutive win, and every other streak is
    reset. *)
Theorem C8_callDraw_lowest_hand_wins :
  ∀ (rand : nat → nat) (g : Game),
    players g ≠ [] →
    NoDup (playerId <$> players g) →
    ∃ g' w pw,
      onPlayerAction rand g (currentPlayerIndex g) callDraw = Done g' ∧
      gameEnded g' = true ∧
      winner g' = Some w ∧
      players g !! w = Some pw ∧
      (∀ i q, players g !! i = Some q → handPoints pw ≤ handPoints q) ∧
      (∀ i q, i < w → players g !! i = Some q → handPoints pw < handPoints q) ∧
      (∀ i q, players g !! i = Some q →
              ∃ q', players g' !! i = Some q' ∧
                    score q' = calculateHandPoints (hand q) [] ∧
                    hand q' = hand q ∧
                    consecutiveWins q' =
                      if bool_decide (i = w) then consecutiveWins q + 1 else 0).
Proof.
  intros rand g Hne Hids.
  unfold onPlayerAction. rewrite Nat.eqb_refl. cbn [negb handlePlayerAction].
  unfold handleCallDraw.
  set (scores := (λ player, (playerId player, calculateHandPoints (hand player) []))
                   <$> players g).
  destruct (lowestScore_first scores) as (w & sw & -> & Hw & Hmin & Hfirst).
  { subst scores. by destruct (players g). }
  subst scores. rewrite list_lookup_fmap in Hw.
  destruct (players g !! w) as [pw|] eqn:Epw; [|done].
  injection Hw as <-. cbn [fst snd].
  set (upd := λ q : Player,
         if bool_decide (playerId q = playerId pw)
         then P.withConsecutiveWins (consecutiveWins q + 1)
                (P.withScore (calculateHandPoints (hand q) []) q)
         else P.withConsecutiveWins 0
                (P.withScore (calculateHandPoints (hand q) []) q)).
  match goal with |- context [mapM ?f _] => set (update := f) end.
  assert (Hmap : mapM update (players g) = Some (upd <$> players g)).
  { apply mapM_Some. apply Forall2_fmap_r, Forall_Forall2_diag.
    apply Forall_lookup. intros i q Hq. subst update. cbn beta.
    set (entry := λ player : Player,
           (playerId player, calculateHandPoints (hand player) [])).
    assert (Hfind : list_find (λ s : string * nat, s.1 = playerId q)
                      (entry <$> players g) = Some (i, entry q)).
    { apply list_find_Some. rewrite list_lookup_fmap, Hq. split; [done|].
      split; [done|]. intros j s Hs Hlt Heq.
      rewrite list_lookup_fmap in Hs.
      destruct (players g !! j) as [q'|] eqn:Eq'; [|done]. injection Hs as <-.
      assert (j = i) by (by eapply playerId_distinct). lia. }
    rewrite Hfind. done. }
  rewrite Hmap.
  assert (Hwin : list_find (λ q, playerId q = playerId pw) (upd <$> players g)
                 = Some (w, upd pw)).
  { apply list_find_Some. rewrite list_lookup_fmap, Epw. split; [done|].
    assert (Hid : ∀ q, playerId (upd q) = playerId q).
    { intros q. unfold upd. by case_bool_decide. }
    split; [apply Hid|]. intros j q' Hq' Hlt Heq.
    rewrite list_lookup_fmap in Hq'.
    destruct (players g !! j) as [q|] eqn:Eq; [|done]. injection Hq' as <-.
    rewrite Hid in Heq.
    assert (j = w) by (by eapply playerId_distinct). lia. }
  rewrite Hwin. eexists _, w, pw. split; [reflexivity|]. cbn.
  split; [done|]. split; [done|]. split; [done|]. split; [|split].
  - intros i q Hq. apply (Hmin i (playerId q, calculateHandPoints (hand q) [])).
    by rewrite list_lookup_fmap, Hq.
  - intros i q Hi Hq.
    apply (Hfirst i (playerId q, calculateHandPoints (hand q) [])); [done|].
    by rewrite list_lookup_fmap, Hq.
  - intros i q Hq. exists (upd q). rewrite list_lookup_fmap, Hq.
    split; [done|]. unfold upd.
    case_bool_decide as Hid; case_bool_decide as Hiw; try done.
    + exfalso. apply Hiw. by eapply playerId_distinct.
    + exfalso. apply Hid. subst i. congruence.
Qed.

Lemma C8_witness :
  ∃ g' w pw,
    onPlayerAction fixedRand lateGame 0 callDraw = Done g' ∧
    gameEnded g' = true ∧ winner g' = Some w ∧
    players lateGame !! w = Some pw ∧
    (∀ i q, players lateGame !! i = Some q → handPoints pw ≤ handPoints q) ∧
    (∀ i q, i < w → players lateGame !! i = Some q → handPoints pw < handPoints q) ∧
    (∀ i q, players lateGame !! i = Some q →
            ∃ q', players g' !! i = Some q' ∧
                  score q' = calculateHandPoints (hand q) [] ∧
                  hand q' = hand q ∧
                  consecutiveWins q' =
                    if bool_decide (i = w) then consecutiveWins q + 1 else 0).
Proof.
  apply (C8_callDraw_lowest_hand_wins fixedRand lateGame).
  - discriminate.
  - apply (bool_decide_unpack _). vm_compute. exact I.
Defined.

(** C8 fails as stated when a socket holds two seats: [handleCallDraw] looks
    the scores and the winner up by socket id. In the session of a socket that
    joined twice, freshly started, seat 1 is given 38, the score of the hand
    of seat 0, though its own hand scores 45. In the late session with seats 0
    and 1 of one socket, seat 0 wins with the lowest score 0, and seat 1,
    which is not the winner, is given score 0 though its hand scores 10 and
    has its streak raised from 1 to 2. *)
Lemma C8_counterexample :
  (∃ g' q q',
     onPlayerAction fixedRand twiceJoined (currentPlayerIndex twiceJoined) callDraw
       = Done g' ∧
     gameEnded g' = true ∧
     players twiceJoined !! 1 = Some q ∧
     players g' !! 1 = Some q' ∧
     calculateHandPoints (hand q) [] = 45 ∧ score q' = 38 ∧
     score q' ≠ calculateHandPoints (hand q) []) ∧
  (∃ g' q q',
     onPlayerAction fixedRand twiceSeated (currentPlayerIndex twiceSeated) callDraw
       = Done g' ∧
     gameEnded g' = true ∧
     winner g' = Some 0 ∧
     players twiceSeated !! 1 = Some q ∧
     players g' !! 1 = Some q' ∧
     calculateHandPoints (hand q) [] = 10 ∧ score q' = 0 ∧
     score q' ≠ calculateHandPoints (hand q) [] ∧
     consecutiveWins q = 1 ∧ consecutiveWins q' = 2 ∧
     consecutiveWins q' ≠ (if bool_decide (1 = 0) then consecutiveWins q + 1 else 0)).
Proof.
  split; eexists _, _, _; repeat (split; [by vm_compute|]); by vm_compute.
Qed.

(** ** Removing the named cards from a hand *)

Lemma sortInsert_descending x l :
  descending l → x ∉ l → descending (sortInsert (λ a b, (b - a)%Z) x l).
Proof.
  induction l as [|y r IH]; simpl; intros Hd Hx.
  - by split.
  - destruct Hd as [Hy Hr]. apply not_elem_of_cons in Hx as [Hxy Hxr].
    destruct (Z.leb_spec (y - x) 0).
    + simpl. repeat split; [|done..]. constructor; [lia|].
      eapply Forall_impl; [exact Hy|]. simpl. lia.
    + simpl. split; [|by apply IH].
      rewrite (sortInsert_perm _ x r). constructor; [lia|done].
Qed.

Lemma jsSort_descending l :
  NoDup l → descending (jsSort (λ a b, (b - a)%Z) l).
Proof.
  induction 1 as [|x l Hx Hnd IH]; simpl; [done|].
  apply sortInsert_descending; [done|]. by rewrite jsSort_perm.
Qed.

Lemma splice1_nonneg {A : Type} (l : list A) (i : Z) :
  (0 ≤ i)%Z → (splice1 l i).2 = delete (Z.to_nat i) l.
Proof. intros Hi. rewrite <- (Z2Nat.id i) at 1 by done. apply splice1_nat. Qed.

Lemma omap_ext_Forall {A B : Type} (f g : A → option B) (l : list A) :
  Forall (λ x, f x = g x) l → omap f l = omap g l.
Proof. induction 1 as [|x l Hx _ IH]; csimpl; [done|]. by rewrite Hx, IH. Qed.

Lemma delete_beyond {A : Type} (l : list A) k : l !! k = None → delete k l = l.
Proof.
  intros H%lookup_ge_None. by rewrite delete_take_drop, take_ge, drop_ge,
    app_nil_r by lia.
Qed.

Lemma delete_option_perm {A : Type} (l : list A) k :
  l ≡ₚ option_list (l !! k) ++ delete k l.
Proof.
  destruct (l !! k) as [x|] eqn:E; simpl.
  - by apply delete_Permutation.
  - by rewrite delete_beyond.
Qed.

Lemma spliceAll_descending (hand : list Card) (s : list Z) :
  descending s → Forall (λ i, (0 ≤ i)%Z) s →
  foldl (fun h index => (splice1 h index).2) hand s
    = withoutPositions (Z.to_nat <$> s) hand ∧
  hand ≡ₚ omap (λ i, hand !! Z.to_nat i) s ++
          foldl (fun h index => (splice1 h index).2) hand s.
Proof.
  revert hand. induction s as [|k r IH]; intros hand Hd Hnn.
  { split; [|done]. symmetry. apply withoutPositionsFrom_below.
    intros p Hp. by apply elem_of_nil in Hp. }
  destruct Hd as [Hk Hr]. apply Forall_cons in Hnn as [Hk0 Hr0].
  cbn [foldl]. rewrite splice1_nonneg by done.
  destruct (IH (delete (Z.to_nat k) hand) Hr Hr0) as [IH1 IH2]. split.
  - rewrite IH1. unfold withoutPositions. csimpl.
    change (Z.to_nat k) with (0 + Z.to_nat k) at 2.
    rewrite withoutPositionsFrom_delete; [done|].
    intros p (i & -> & Hi)%list_elem_of_fmap.
    rewrite Forall_forall in Hk, Hr0.
    specialize (Hk i Hi). specialize (Hr0 i Hi). simpl. lia.
  - rewrite (delete_option_perm hand (Z.to_nat k)) at 1.
    rewrite IH2 at 1.
    assert (Hsame : omap (λ i, delete (Z.to_nat k) hand !! Z.to_nat i) r
                    = omap (λ i, hand !! Z.to_nat i) r).
    { apply omap_ext_Forall. rewrite Forall_forall in *. intros i Hi.
      apply list_lookup_delete_lt.
      specialize (Hk i Hi). specialize (Hr0 i Hi). lia. }
    rewrite Hsame. csimpl.
    destruct (hand !! Z.to_nat k); simpl; by rewrite ?app_assoc.
Qed.

Lemma defined_jsAt (hand : list Card) (idxs : list Z) :
  Forall (λ i, (0 ≤ i)%Z) idxs →
  defined (jsAt hand <$> idxs) = omap (λ i, hand !! Z.to_nat i) idxs.
Proof.
  unfold defined. induction 1 as [|i idxs Hi _ IH]; csimpl; [done|].
  rewrite IH. unfold jsAt. by destruct (Z.ltb_spec i 0); [lia|].
Qed.

(** The named cards leave the hand: with pairwise distinct indices the hand
    is split into the cards named and the hand left. *)
Lemma spliceAll_spec (hand : list Card) (idxs : list Z) :
  NoDup idxs → Forall (λ i, (0 ≤ i)%Z) idxs →
  spliceAll hand idxs = withoutPositions (Z.to_nat <$> idxs) hand ∧
  hand ≡ₚ defined (jsAt hand <$> idxs) ++ spliceAll hand idxs.
Proof.
  intros Hnd Hnn. unfold spliceAll.
  set (s := jsSort (λ a b, (b - a)%Z) idxs).
  assert (Hperm : s ≡ₚ idxs) by apply jsSort_perm.
  destruct (spliceAll_descending hand s) as [H1 H2].
  { by apply jsSort_descending. }
  { by rewrite Hperm. }
  split.
  - rewrite H1. apply withoutPositionsFrom_ext. intros p. by rewrite Hperm.
  - rewrite defined_jsAt by done. by rewrite <- Hperm.
Qed.

(** ** Drawing (claim C6) *)

Section FilterPositions.
Context {A : Type} (P : A → Prop) `{!∀ x, Decision (P x)}.

Lemma filter_lookup_back (l : list A) b y :
  filter P l !! b = Some y → ∃ j, l !! j = Some y ∧ P y.
Proof.
  intros Hb. assert (Hy : y ∈ filter P l) by (by eapply list_elem_of_lookup_2).
  apply list_elem_of_filter in Hy as [HP Hy].
  apply list_elem_of_lookup in Hy as [j Hj]. eauto.
Qed.

Lemma filter_lookup_forth (l : list A) j y :
  l !! j = Some y → P y → ∃ b, filter P l !! b = Some y.
Proof.
  intros Hj HP. apply list_elem_of_lookup, list_elem_of_filter. split; [done|].
  by eapply list_elem_of_lookup_2.
Qed.

(** Two slots of the filtered array, in order, are two slots of the array,
    in the same order, and conversely. *)
Lemma filter_lookup_pair (l : list A) x y :
  (∃ a b, a < b ∧ filter P l !! a = Some x ∧ filter P l !! b = Some y) ↔
  (∃ i j, i < j ∧ l !! i = Some x ∧ l !! j = Some y ∧ P x ∧ P y).
Proof.
  induction l as [|z l IH]. { split; intros (? & ? & ? & ? & ?); done. }
  rewrite filter_cons. split.
  - intros (a & b & Hab & Ha & Hb). destruct (decide (P z)) as [Hz|Hz].
    + destruct a as [|a]; simpl in Ha.
      * injection Ha as ->. destruct b as [|b]; [lia|]. simpl in Hb.
        destruct (filter_lookup_back l b y Hb) as (j & Hj & Hy).
        exists 0, (S j). repeat split; [lia|done..].
      * destruct b as [|b]; [lia|]. simpl in Hb.
        destruct (proj1 IH) as (i & j & ? & ? & ? & ? & ?).
        { exists a, b. repeat split; [lia|done..]. }
        exists (S i), (S j). repeat split; [lia|done..].
    + destruct (proj1 IH) as (i & j & ? & ? & ? & ? & ?); [by eauto|].
      exists (S i), (S j). repeat split; [lia|done..].
  - intros (i & j & Hij & Hi & Hj & Hx & Hy).
    destruct j as [|j]; [lia|]. simpl in Hj.
    destruct i as [|i]; simpl in Hi.
    + injection Hi as ->. rewrite decide_True by done.
      destruct (filter_lookup_forth l j y Hj Hy) as [b Hb].
      exists 0, (S b). repeat split; [lia|done].
    + destruct (proj2 IH) as (a & b & ? & ? & ?).
      { exists i, j. repeat split; [lia|done..]. }
      destruct (decide (P z)).
      * exists (S a), (S b). repeat split; [lia|done..].
      * exists a, b. repeat split; [lia|done..].
Qed.

Lemma filter_length_two (l : list A) :
  2 ≤ length (filter P l) ↔
  ∃ i j x y, i < j ∧ l !! i = Some x ∧ l !! j = Some y ∧ P x ∧ P y.
Proof.
  split.
  - intros Hlen. destruct (filter P l) as [|x [|y r]] eqn:E; simpl in Hlen; try lia.
    destruct (proj1 (filter_lookup_pair l x y)) as (i & j & ?).
    { exists 0, 1. rewrite E. repeat split; lia. }
    exists i, j, x, y. done.
  - intros (i & j & x & y & Hij).
    destruct (proj2 (filter_lookup_pair l x y)) as (a & b & Hab & Ha & Hb).
    { exists i, j. done. }
    apply lookup_lt_Some in Hb. lia.
Qed.
End FilterPositions.

Lemma firstSome_is_Some {A B : Type} (f : A → option B) (l : list A) x :
  x ∈ l → is_Some (f x) → is_Some (firstSome f l).
Proof.
  induction l as [|y l IH]; [by intros ?%elem_of_nil|].
  intros [->|Hx]%elem_of_cons Hf; simpl.
  - by destruct Hf as [? ->].
  - destruct (f y); [done|by apply IH].
Qed.

Lemma threeOfAKind_valid (a b c : Card) :
  rank b = rank a → rank c = rank a → isValidMeld [Some a; Some b; Some c] = true.
Proof.
  intros Hb Hc. unfold isValidMeld, isThreeOfAKind. simpl.
  by rewrite Hb, Hc, !bool_decide_true.
Qed.

Lemma isValidMeld_three_cases (a b c : Card) :
  isValidMeld [Some a; Some b; Some c] = true →
  (rank b = rank a ∧ rank c = rank a) ∨ (suit b = suit a ∧ suit c = suit a).
Proof.
  intros H. apply (isValidMeld_spec [a; b; c]) in H as [[_ [r Hr]]|(_ & [s Hs] & _)].
  - left. rewrite (Hr a), (Hr b), (Hr c) by repeat constructor. done.
  - right. rewrite (Hs a), (Hs b), (Hs c) by repeat constructor. done.
Qed.

(** [canFormMeldWithCard] answers whether the card makes a meld with two
    cards of the hand. *)
Lemma canFormMeldWithCard_spec (card : Card) (playerHand : list Card) :
  (canFormMeldWithCard card playerHand).1 = true ↔
  ∃ i j ci cj, i < j ∧ playerHand !! i = Some ci ∧ playerHand !! j = Some cj ∧
               isValidMeld [Some card; Some ci; Some cj] = true.
Proof.
  unfold canFormMeldWithCard.
  destruct (Nat.leb_spec 2 (length (filter (λ c, rank c = rank card) playerHand)))
    as [Hrank|Hrank].
  - simpl. split; [intros _|done].
    apply filter_length_two in Hrank as (i & j & x & y & ? & ? & ? & ? & ?).
    exists i, j, x, y. repeat split; try done. by apply threeOfAKind_valid.
  - set (sameSuitCards := filter (λ c, suit c = suit card) playerHand).
    match goal with |- context [firstSome ?f ?l] => set (loop := firstSome f l) end.
    assert (Hloop : is_Some loop ↔
      ∃ a b ca cb, a < b ∧ sameSuitCards !! a = Some ca ∧
                   sameSuitCards !! b = Some cb ∧
                   isValidMeld [Some card; Some ca; Some cb] = true).
    { subst loop. unfold range. split.
      - intros [idx Hsome].
        apply firstSome_Some_inv in Hsome as (l0 & a & l0' & Ha & Hsome & _).
        apply firstSome_Some_inv in Hsome as (l1 & b & l2 & Hb & Hsome & _).
        assert (Hb' : b ∈ seq (a + 1) (length sameSuitCards - (a + 1)))
          by (rewrite Hb, elem_of_app; right; left).
        apply elem_of_seq in Hb'.
        destruct (sameSuitCards !! a) as [ca|] eqn:Ea; [|done].
        destruct (sameSuitCards !! b) as [cb|] eqn:Eb; [|done].
        destruct (isValidMeld [Some card; Some ca; Some cb]) eqn:E; [|done].
        exists a, b, ca, cb. repeat split; [lia|done..].
      - intros (a & b & ca & cb & Hab & Ha & Hb & Hv).
        pose proof (lookup_lt_Some _ _ _ Hb) as Hblt.
        apply (firstSome_is_Some _ _ a); [apply elem_of_seq; lia|].
        apply (firstSome_is_Some _ _ b); [apply elem_of_seq; lia|].
        by rewrite Ha, Hb, Hv. }
    trans (is_Some loop).
    { destruct loop as [idx|]; simpl.
      - split; [by eauto|done].
      - split; [done|by intros [? ?]]. }
    rewrite Hloop. split.
    + intros (a & b & ca & cb & Hab & Ha & Hb & Hv).
      destruct (proj1 (filter_lookup_pair (λ c, suit c = suit card)
                         playerHand ca cb))
        as (i & j & ? & ? & ? & _); [by eauto|].
      exists i, j, ca, cb. done.
    + intros (i & j & ci & cj & Hij & Hi & Hj & Hv).
      destruct (isValidMeld_three_cases _ _ _ Hv) as [[Hr1 Hr2]|[Hs1 Hs2]].
      * exfalso. assert (2 ≤ length (filter (λ c, rank c = rank card) playerHand));
          [|lia].
        apply filter_length_two. exists i, j, ci, cj. done.
      * destruct (proj2 (filter_lookup_pair (λ c, suit c = suit card)
                           playerHand ci cj)) as (a & b & ? & ? & ?).
        { exists i, j. done. }
        exists a, b, ci, cj. done.
Qed.

Lemma rankMatches_as_omap (card : Card) (xs : list (nat * Card)) (acc : list Z) :
  foldl (fun acc ic => if bool_decide (rank ic.2 = rank card)
                       then acc ++ [Z.of_nat ic.1] else acc) acc xs
  = acc ++ omap (λ ic, if bool_decide (rank ic.2 = rank card)
                       then Some (Z.of_nat ic.1) else None) xs.
Proof.
  revert acc. induction xs as [|ic xs IH]; intros acc; csimpl.
  - by rewrite app_nil_r.
  - rewrite IH. destruct (bool_decide _); [by rewrite <- app_assoc|done].
Qed.

Lemma rankMatches_length (card : Card) (h : nat → nat) (l : list Card) :
  length (omap (λ ic : nat * Card,
                  if bool_decide (rank ic.2 = rank card)
                  then Some (Z.of_nat ic.1) else None)
               (imap (λ i c, (h i, c)) l))
  = length (filter (λ c, rank c = rank card) l).
Proof.
  revert h. induction l as [|c l IH]; intros h; [done|].
  rewrite imap_cons, filter_cons. csimpl.
  specialize (IH (h ∘ S)). unfold compose in *.
  case_bool_decide; [rewrite decide_True by done|rewrite decide_False by done];
    simpl; by rewrite IH.
Qed.

(** With two cards of the rank in hand, the answer is given by the search
    for equal ranks: two positions of the hand holding that rank. *)
Lemma canFormMeldWithCard_rank_first (card : Card) (playerHand : list Card) :
  2 ≤ length (filter (λ c, rank c = rank card) playerHand) →
  (canFormMeldWithCard card playerHand).1 = true ∧
  length (canFormMeldWithCard card playerHand).2 = 2 ∧
  ∀ z, z ∈ (canFormMeldWithCard card playerHand).2 →
       ∃ k c, z = Z.of_nat k ∧ playerHand !! k = Some c ∧ rank c = rank card.
Proof.
  intros Hlen. unfold canFormMeldWithCard.
  destruct (Nat.leb_spec 2 (length (filter (λ c, rank c = rank card) playerHand)));
    [|lia].
  cbn [fst snd]. rewrite rankMatches_as_omap, app_nil_l.
  split; [done|]. split.
  - rewrite length_take, (rankMatches_length card (λ i, i)). lia.
  - intros z Hz. apply elem_of_take in Hz as (n & Hz & _).
    apply list_elem_of_lookup_2, list_elem_of_omap in Hz as ([k c] & Hin & Hsome).
    apply elem_of_lookup_imap in Hin as (k' & c' & [= -> ->] & Hk).
    simpl in Hsome. case_bool_decide; [|done]. injection Hsome as <-.
    by exists k', c'.
Qed.

Lemma jsAt_nat {A : Type} (l : list A) (k : nat) : jsAt l (Z.of_nat k) = l !! k.
Proof.
  unfold jsAt. destruct (Z.ltb_spec (Z.of_nat k) 0); [lia|]. by rewrite Nat2Z.id.
Qed.

Lemma handleDraw_already_drawn g fromDeck meldIndices :
  hasDrawnThisTurn g = true → handleDraw g fromDeck meldIndices = Done g.
Proof. intros H. unfold handleDraw. by rewrite H. Qed.

Lemma handleDraw_pile_raises g meldIndices :
  hasDrawnThisTurn g = false → discardPile g ≠ [] →
  handleDraw g false meldIndices = Thrown g.
Proof.
  intros Hd Hpile. unfold handleDraw. rewrite Hd.
  destruct (last (discardPile g)) eqn:E; [done|].
  by apply last_None in E.
Qed.

Lemma handleDraw_sets_drawn g fromDeck meldIndices g' :
  handleDraw g fromDeck meldIndices = Done g' →
  g' = g ∨ hasDrawnThisTurn g' = true.
Proof.
  unfold handleDraw. intros H.
  repeat (case_match; simplify_eq; auto).
Qed.

(** C6. The draw, against the claim. As claimed: a draw changes nothing once
    the player has drawn, and nothing for seat 0 before its first discard;
    [canFormMeldWithCard] holds exactly when the card makes a meld with two
    cards of the hand, equal ranks being searched first; every draw that
    returns and changes the session sets [hasDrawnThisTurn]. Not as claimed:
    server.mjs calls [canFormMeldWithCard] without importing it, so that a draw
    from a discard pile that holds an entry, by a player that has not drawn,
    raises a [ReferenceError] and leaves the session as it was, whatever the
    hand and the indices. After the first discard of the fixed session the
    nine of spades is on top of the pile and seat 1 holds the nines of hearts
    and of diamonds at positions 0 and 1: [canFormMeldWithCard] answers with
    these two positions, the three cards are a valid meld, and the draw of
    seat 1 that names the two cards exposes nothing and takes nothing. *)
Theorem C6_discard_pile_draw_raises :
  (∀ rand g playerIndex fromDeck meldIndices,
     hasDrawnThisTurn g = true →
     onPlayerAction rand g playerIndex (draw fromDeck meldIndices) = Done g) ∧
  (∀ rand g fromDeck meldIndices,
     firstPlayerHasPlayed g = false →
     onPlayerAction rand g 0 (draw fromDeck meldIndices) = Done g) ∧
  (∀ rand g fromDeck meldIndices,
     firstPlayerHasPlayed g = true ∨ currentPlayerIndex g ≠ 0 →
     onPlayerAction rand g (currentPlayerIndex g) (draw fromDeck meldIndices)
       = handleDraw g fromDeck meldIndices) ∧
  (∀ card playerHand,
     (canFormMeldWithCard card playerHand).1 = true ↔
     ∃ i j ci cj, i < j ∧ playerHand !! i = Some ci ∧ playerHand !! j = Some cj ∧
                  isValidMeld [Some card; Some ci; Some cj] = true) ∧
  (∀ card playerHand,
     2 ≤ length (filter (λ c, rank c = rank card) playerHand) →
     (canFormMeldWithCard card playerHand).1 = true ∧
     length (canFormMeldWithCard card playerHand).2 = 2 ∧
     ∀ z, z ∈ (canFormMeldWithCard card playerHand).2 →
          ∃ k c, z = Z.of_nat k ∧ playerHand !! k = Some c ∧ rank c = rank card) ∧
  (∀ g fromDeck meldIndices g',
     handleDraw g fromDeck meldIndices = Done g' →
     g' = g ∨ hasDrawnThisTurn g' = true) ∧
  (∀ g meldIndices,
     hasDrawnThisTurn g = false → discardPile g ≠ [] →
     handleDraw g false meldIndices = Thrown g) ∧
  (currentPlayerIndex afterFirstDiscard = 1 ∧
   hasDrawnThisTurn afterFirstDiscard = false ∧
   last (discardPile afterFirstDiscard) = Some (Some (mkCard 47 spades r9)) ∧
   hand (seatOf afterFirstDiscard 1) !! 0 = Some (mkCard 8 hearts r9) ∧
   hand (seatOf afterFirstDiscard 1) !! 1 = Some (mkCard 21 diamonds r9) ∧
   canFormMeldWithCard (mkCard 47 spades r9) (hand (seatOf afterFirstDiscard 1))
     = (true, [0%Z; 1%Z]) ∧
   isValidMeld [Some (mkCard 8 hearts r9); Some (mkCard 21 diamonds r9);
                Some (mkCard 47 spades r9)] = true ∧
   onPlayerAction fixedRand afterFirstDiscard 1 (draw false [0%Z; 1%Z])
     = Thrown afterFirstDiscard).
Proof.
  split; [|split; [|split; [|split; [|split; [|split; [|split]]]]]].
  - intros rand g pi fd mi Hd. unfold onPlayerAction.
    destruct (pi =? currentPlayerIndex g); [|done]. simpl.
    destruct ((pi =? 0) && negb (firstPlayerHasPlayed g)); [done|].
    by apply handleDraw_already_drawn.
  - intros rand g fd mi Hf. unfold onPlayerAction.
    destruct (0 =? currentPlayerIndex g); [|done]. simpl. by rewrite Hf.
  - intros rand g fd mi Hgate. unfold onPlayerAction. rewrite Nat.eqb_refl. simpl.
    destruct Hgate as [->|Hne]; [by rewrite andb_false_r|].
    by rewrite (proj2 (Nat.eqb_neq _ _) Hne).
  - apply canFormMeldWithCard_spec.
  - apply canFormMeldWithCard_rank_first.
  - apply handleDraw_sets_drawn.
  - apply handleDraw_pile_raises.
  - by vm_compute.
Qed.

Lemma C6_witness :
  handleDraw afterFirstDiscard false [0%Z; 1%Z] = Thrown afterFirstDiscard.
Proof.
  destruct C6_discard_pile_draw_raises as (_ & _ & _ & _ & _ & _ & Hraise & _).
  apply (Hraise afterFirstDiscard [0%Z; 1%Z]).
  - vm_compute. reflexivity.
  - vm_compute. discriminate.
Defined.

(** ** Rejected actions (claim C2) *)

Lemma namedCards_out_of_range (h : list Card) (idxs : list Z)
    (old : list (option Card)) :
  Exists (λ i, inBounds h i = false) idxs →
  isValidMeld (old ++ (jsAt h <$> idxs)) = false.
Proof.
  intros Hex. destruct (isValidMeld _) eqn:E; [|done]. exfalso.
  apply isValidMeld_defined in E as [cs Hcs].
  apply Exists_exists in Hex as (i & Hi & Hout).
  assert (Hnone : None ∈ old ++ (jsAt h <$> idxs)).
  { apply elem_of_app. right. apply list_elem_of_fmap. exists i. split; [|done].
    unfold jsAt, inBounds in *. destruct (Z.ltb_spec i 0); [done|].
    symmetry. apply lookup_ge_None.
    apply andb_false_iff in Hout as [Hout|Hout].
    - apply Z.leb_gt in Hout. lia.
    - apply Z.ltb_ge in Hout. lia. }
  rewrite Hcs in Hnone. by apply list_elem_of_fmap in Hnone as (? & ? & ?).
Qed.

Lemma rejected_no_op rand g playerIndex a :
  rejected g playerIndex a = true → onPlayerAction rand g playerIndex a = Done g.
Proof.
  unfold rejected, onPlayerAction.
  destruct (Nat.eqb_spec playerIndex (currentPlayerIndex g)) as [->|Hne]; [|done].
  cbn [negb orb].
  destruct (players g !! currentPlayerIndex g) as [p|] eqn:Ep;
    [|by destruct a].
  destruct a as [fromDeck meldIndices|cardIndex|idxs|t m idxs| | | | | | |];
    try done; cbn [handlePlayerAction].
  - destruct ((currentPlayerIndex g =? 0) && negb (firstPlayerHasPlayed g));
      [done|].
    rewrite orb_false_r. unfold handleDraw.
    destruct (hasDrawnThisTurn g); [done|]. cbn [orb]. cbv zeta.
    destruct (if fromDeck then None else last (discardPile g)) as [top|];
      [done|].
    intros Hdeck%bool_decide_eq_true. by rewrite Hdeck.
  - intros [Hd Hc]%andb_true_iff. unfold handleDiscard. rewrite Hd, Hc.
    cbn [andb]. by destruct (currentPlayerIndex g =? 0).
  - intros Hv%negb_true_iff. unfold handleMeld.
    by rewrite Ep, namedCards_Some, Hv.
  - unfold handleSapaw. rewrite Ep, namedCards_Some.
    destruct (jsAt (players g) t) as [tp|]; [|done].
    destruct (jsAt (exposedMelds tp) m) as [old|]; [|done].
    by intros ->.
Qed.

(** Asked for the top discard when the pile is empty, the handler takes the
    top of the deck instead. *)
Lemma handleDraw_empty_pile g p deck' card meldIndices :
  hasDrawnThisTurn g = false →
  players g !! currentPlayerIndex g = Some p →
  discardPile g = [] →
  deck g = deck' ++ [card] →
  ∃ g',
    handleDraw g false meldIndices = Done g' ∧
    deck g' = deck' ∧
    hand (seatOf g' (currentPlayerIndex g)) = hand p ++ [card] ∧
    hasDrawnThisTurn g' = true.
Proof.
  intros Hd Hp Hpile Hdeck. unfold handleDraw.
  rewrite Hd, Hp, Hpile, Hdeck. cbn [last]. rewrite last_snoc, removelast_last.
  eexists. split; [reflexivity|]. cbn. unfold seatOf. cbn.
  rewrite list_lookup_insert_eq by (by eapply lookup_lt_Some). done.
Qed.

(** C2 (as amended). Acting out of turn, drawing after the draw of the turn
    or as seat 0 before its first discard, drawing from the deck when it is
    exhausted (asked for, or fallen back to because the discard pile is empty),
    discarding before the draw as a seat other than 0, and a meld, or a sapaw
    on an existing meld, whose cards do not validate leave the session
    unchanged and raise no error; an out-of-range card index makes a meld or
    sapaw fail validation. Nothing is said of a draw from a discard pile that
    holds an entry. *)
Theorem C2_rejected_actions_change_nothing :
  (∀ rand g playerIndex a,
     rejected g playerIndex a = true →
     onPlayerAction rand g playerIndex a = Done g) ∧
  (∀ (h : list Card) (idxs : list Z) (old : list (option Card)),
     Exists (λ i, inBounds h i = false) idxs →
     isValidMeld (old ++ (jsAt h <$> idxs)) = false).
Proof. split; [apply rejected_no_op|apply namedCards_out_of_range]. Qed.

Lemma C2_witness :
  onPlayerAction fixedRand fixedGame 0 (meld [0; 99]%Z) = Done fixedGame.
Proof.
  apply (proj1 C2_rejected_actions_change_nothing fixedRand fixedGame 0
           (meld [0; 99]%Z)).
  vm_compute. reflexivity.
Defined.

(** C2 fails as stated: a discard with an out-of-range index puts
    [undefined] on the discard pile and passes the turn, and a sapaw on a
    meld index that does not exist raises a [TypeError]. *)
Lemma C2_counterexample :
  stateOf (onPlayerAction fixedRand fixedGame 0 (discard 99)) ≠ fixedGame ∧
  discardPile (stateOf (onPlayerAction fixedRand fixedGame 0 (discard 99)))
    = [None] ∧
  currentPlayerIndex (stateOf (onPlayerAction fixedRand fixedGame 0 (discard 99)))
    = 1 ∧
  onPlayerAction fixedRand fixedGame 0 (sapaw 0 5 [0]%Z) = Thrown fixedGame.
Proof.
  split; [|split; [|split]]; [|by vm_compute..].
  intros H. apply (f_equal currentPlayerIndex) in H. vm_compute in H. discriminate.
Qed.

(** ** Discarding and the turn (claim C5) *)

Lemma splice1_in_bounds {A : Type} (l : list A) (i : nat) (x : A) :
  l !! i = Some x → splice1 l (Z.of_nat i) = ([x], delete i l).
Proof.
  intros Hi. pose proof (lookup_lt_Some _ _ _ Hi) as Hlt.
  unfold splice1, spliceStart. destruct (Z.ltb_spec (Z.of_nat i) 0); [lia|].
  rewrite Nat2Z.id, Nat.min_l by lia. f_equal.
  rewrite <- (take_drop_middle l i x Hi) at 1.
  rewrite drop_app_length'; [done|]. rewrite length_take. lia.
Qed.

(** An accepted discard: after the draw of the turn, or at any time for
    seat 0. *)
Lemma handleDiscard_accepted g p i c :
  hasDrawnThisTurn g = true ∨ currentPlayerIndex g = 0 →
  players g !! currentPlayerIndex g = Some p →
  hand p !! i = Some c →
  ∃ g' p',
    handleDiscard g (Z.of_nat i) = Done g' ∧
    discardPile g' = discardPile g ++ [Some c] ∧
    players g' !! currentPlayerIndex g = Some p' ∧
    hand p' = delete i (hand p) ∧
    turnsPlayed p' = turnsPlayed p + 1 ∧
    currentPlayerIndex g' = (currentPlayerIndex g + 1) mod length (players g) ∧
    hasDrawnThisTurn g' = false ∧
    deck g' = deck g.
Proof.
  intros Hgate Hp Hc. unfold handleDiscard.
  assert (negb (hasDrawnThisTurn g) && negb (currentPlayerIndex g =? 0) = false)
    as ->.
  { destruct Hgate as [->| ->]; [done|]. by rewrite andb_false_r. }
  rewrite Hp, (splice1_in_bounds _ _ _ Hc). eexists _, _.
  split; [reflexivity|]. cbn.
  rewrite list_lookup_insert_eq by (by eapply lookup_lt_Some). repeat split.
Qed.

(** No action but a discard, or the start of a new round, moves the turn. *)
Lemma turn_kept rand g playerIndex a :
  (∀ i, a ≠ discard i) → a ≠ nextGame → a ≠ resetGame →
  currentPlayerIndex (stateOf (onPlayerAction rand g playerIndex a))
    = currentPlayerIndex g.
Proof.
  intros Hd Hn Hr. unfold onPlayerAction.
  destruct (playerIndex =? currentPlayerIndex g); [|done]. cbn [negb].
  destruct a; cbn [handlePlayerAction]; try done.
  - unfold handleDraw. repeat (case_match; try done).
  - by specialize (Hd cardIndex).
  - unfold handleMeld, handleTongits. repeat (case_match; try done).
  - unfold handleSapaw. repeat (case_match; try done).
  - unfold handleCallDraw. repeat (case_match; try done).
  - unfold handleAutoSort. repeat (case_match; try done).
  - unfold handleShuffle. repeat (case_match; try done).
Qed.

(** C5 fails on the code: when the turn is back at seat 0 after its first
    discard, seat 0 has not drawn, and its discard is accepted all the same:
    the card goes to the pile and the turn passes to seat 1. *)
Theorem C5_seat0_discards_without_drawing :
  currentPlayerIndex backAtSeat0 = 0 ∧
  hasDrawnThisTurn backAtSeat0 = false ∧
  firstPlayerHasPlayed backAtSeat0 = true ∧
  length (hand (seatOf backAtSeat0 0)) = 12 ∧
  ∃ g',
    onPlayerAction fixedRand backAtSeat0 0 (discard 0) = Done g' ∧
    discardPile g' = discardPile backAtSeat0 ++ [Some (mkCard 39 spades rA)] ∧
    length (hand (seatOf g' 0)) = 11 ∧
    turnsPlayed (seatOf g' 0) = 2 ∧
    currentPlayerIndex g' = 1 ∧
    hasDrawnThisTurn g' = false.
Proof.
  repeat split; try (vm_compute; reflexivity).
  eexists. split; [vm_compute; reflexivity|]. repeat split.
Qed.

(** ** The sapaw flag (claim C9) *)

Lemma flagAt_flags g t :
  flagAt g t = default false ((isSapawed <$> players g) !! t).
Proof. unfold flagAt. by rewrite list_lookup_fmap. Qed.

Lemma fmap_insert_same {B : Type} (φ : Player → B) (ps : list Player) (i : nat) p p' :
  ps !! i = Some p → φ p' = φ p → φ <$> <[i := p']> ps = φ <$> ps.
Proof.
  intros Hp Hφ. rewrite list_fmap_insert, Hφ. apply list_insert_id.
  by rewrite list_lookup_fmap, Hp.
Qed.

Lemma fmap_alter_same {B : Type} (φ : Player → B) f (ps : list Player) (i : nat) :
  (∀ p, φ (f p) = φ p) → φ <$> alter f i ps = φ <$> ps.
Proof.
  intros Hφ. revert i. induction ps as [|p ps IH]; intros [|i]; csimpl; try done.
  - by rewrite Hφ.
  - by rewrite IH.
Qed.

Lemma fmap_fmap_same {B : Type} (φ : Player → B) f (ps : list Player) :
  (∀ p, φ (f p) = φ p) → φ <$> (f <$> ps) = φ <$> ps.
Proof.
  intros Hφ. rewrite <- list_fmap_compose. apply list_fmap_ext.
  intros ? p _. apply Hφ.
Qed.

Lemma mapM_fmap_same {B : Type} (φ : Player → B) (f : Player → option Player)
    (ps ps' : list Player) :
  (∀ p p', f p = Some p' → φ p' = φ p) →
  mapM f ps = Some ps' → φ <$> ps' = φ <$> ps.
Proof.
  intros Hφ Hm%mapM_Some. induction Hm as [|p p' ps ps' Hp _ IH]; csimpl; [done|].
  by rewrite (Hφ _ _ Hp), IH.
Qed.

(** What the handlers other than [handleSapaw] and the round restarts do to
    a field of the player objects they do not assign. *)
Section Untouched.
Context {B : Type} (φ : Player → B).
Hypothesis φ_hand : ∀ v p, φ (P.withHand v p) = φ p.
Hypothesis φ_exposed : ∀ v p, φ (P.withExposedMelds v p) = φ p.
Hypothesis φ_score : ∀ v p, φ (P.withScore v p) = φ p.
Hypothesis φ_wins : ∀ v p, φ (P.withConsecutiveWins v p) = φ p.
Hypothesis φ_turns : ∀ v p, φ (P.withTurnsPlayed v p) = φ p.

Lemma handleDraw_untouched g fromDeck meldIndices :
  φ <$> players (stateOf (handleDraw g fromDeck meldIndices)) = φ <$> players g.
Proof.
  unfold handleDraw.
  repeat (case_match; try done); cbn;
    (eapply fmap_insert_same; [done|]); by rewrite ?φ_exposed, ?φ_hand.
Qed.

Lemma handleDiscard_untouched g cardIndex :
  φ <$> players (stateOf (handleDiscard g cardIndex)) = φ <$> players g.
Proof.
  unfold handleDiscard.
  repeat (case_match; try done); cbn.
  eapply fmap_insert_same; [done|]. by rewrite φ_turns, φ_hand.
Qed.

Lemma handleTongits_untouched g :
  φ <$> players (stateOf (handleTongits g)) = φ <$> players g.
Proof.
  unfold handleTongits. case_match; [|done]. cbn.
  rewrite fmap_fmap_same.
  - eapply fmap_insert_same; [done|]. by rewrite φ_wins, φ_score.
  - intros q. case_bool_decide; [|done]. by rewrite φ_wins, φ_score.
Qed.

Lemma handleMeld_untouched g cardIndices :
  φ <$> players (stateOf (handleMeld g cardIndices)) = φ <$> players g.
Proof.
  unfold handleMeld.
  repeat (case_match; try done); rewrite ?handleTongits_untouched; cbn;
    (eapply fmap_insert_same; [done|]); by rewrite φ_hand, φ_exposed.
Qed.

Lemma handleCallDraw_untouched g :
  φ <$> players (stateOf (handleCallDraw g)) = φ <$> players g.
Proof.
  unfold handleCallDraw.
  destruct (lowestScore _) as [w|]; [|done].
  match goal with |- context [mapM ?f _] => destruct (mapM f (players g)) as [ps|] eqn:Em end;
    [|done].
  cbn. eapply mapM_fmap_same; [|exact Em].
  intros q q' Hq. cbn beta in Hq. case_match; [|done]. case_match.
  injection Hq as <-. case_bool_decide; by rewrite φ_wins, φ_score.
Qed.

Lemma handleAutoSort_untouched g playerIndex :
  φ <$> players (stateOf (handleAutoSort g playerIndex)) = φ <$> players g.
Proof.
  unfold handleAutoSort. case_match; [|done]. cbn.
  eapply fmap_insert_same; [done|]. by rewrite φ_hand.
Qed.

Lemma handleShuffle_untouched rand g playerIndex :
  φ <$> players (stateOf (handleShuffle rand g playerIndex)) = φ <$> players g.
Proof.
  unfold handleShuffle. case_match; [|done]. cbn.
  eapply fmap_insert_same; [done|]. by rewrite φ_hand.
Qed.
End Untouched.

Lemma dealtPlayers_lookup hands deck reset ps t :
  (dealtPlayers hands deck reset ps).1 !! t =
  (λ player,
     reset (P.withHand
              (if t =? 0 then default [] (hands !! t) ++ option_list (last deck)
               else default [] (hands !! t)) player)) <$> ps !! t.
Proof. unfold dealtPlayers. cbn [fst]. by rewrite list_lookup_imap. Qed.

Lemma handleNextGame_flag rand g t :
  flagAt (stateOf (handleNextGame rand g)) t = false.
Proof.
  unfold handleNextGame, flagAt.
  destruct (dealCards _ _ _) as [hands remainingDeck].
  destruct (dealtPlayers _ _ _ _) as [ps deck'] eqn:Ed. cbn.
  assert (Hps : ps = (dealtPlayers hands remainingDeck resetForNextGame (players g)).1)
    by (by rewrite Ed).
  assert (Hflag : default false (isSapawed <$> ps !! t) = false).
  { rewrite Hps, dealtPlayers_lookup. by destruct (players g !! t). }
  by destruct ps.
Qed.

Lemma handleResetGame_flag rand g t :
  flagAt (stateOf (handleResetGame rand g)) t = false.
Proof. apply handleNextGame_flag. Qed.

Lemma handleSapaw_flag g t' m idxs t :
  flagAt g t = false →
  flagAt (stateOf (handleSapaw g t' m idxs)) t = true →
  ∃ (tp : Player) (old cards : list (option Card)),
    t' = Z.of_nat t ∧
    players g !! t = Some tp ∧
    jsAt (exposedMelds tp) m = Some old ∧
    namedCards (players g !! currentPlayerIndex g) idxs = Some cards ∧
    isValidMeld (old ++ cards) = true.
Proof.
  intros Hoff. unfold handleSapaw.
  destruct (namedCards (players g !! currentPlayerIndex g) idxs)
    as [cards|] eqn:Ecards; [|simpl; congruence].
  destruct (jsAt (players g) t') as [tp|] eqn:Etp; [|simpl; congruence].
  destruct (jsAt (exposedMelds tp) m) as [old|] eqn:Eold; [|simpl; congruence].
  destruct (isValidMeld (old ++ cards)) eqn:Ev; [|simpl; congruence].
  cbn [negb stateOf]. unfold jsAt in Etp.
  destruct (Z.ltb_spec t' 0) as [|Ht']; [done|].
  destruct (decide (t = Z.to_nat t')) as [->|Hne].
  - intros _. exists tp, old, cards. by rewrite Z2Nat.id.
  - intros Hon. exfalso. unfold flagAt in Hon, Hoff.
    cbn [players G.withSelectedCardIndices G.withPlayers] in Hon.
    rewrite list_lookup_alter_ne in Hon by done.
    rewrite <- (list_lookup_fmap isSapawed) in Hon.
    rewrite !fmap_alter_same in Hon by done.
    rewrite list_lookup_fmap in Hon. congruence.
Qed.

Lemma flag_kept (g g' : Game) t :
  isSapawed <$> players g' = isSapawed <$> players g → flagAt g' t = flagAt g t.
Proof. intros H. by rewrite !flagAt_flags, H. Qed.

(** The flag of a seat is raised only by an accepted sapaw on a meld of that
    seat, whoever lays off. *)
Lemma handlePlayerAction_flag rand g a playerIndex t :
  flagAt g t = false →
  flagAt (stateOf (handlePlayerAction rand g a playerIndex)) t = true →
  ∃ (m : Z) (idxs : list Z) (tp : Player) (old cards : list (option Card)),
    a = sapaw (Z.of_nat t) m idxs ∧
    players g !! t = Some tp ∧
    jsAt (exposedMelds tp) m = Some old ∧
    namedCards (players g !! currentPlayerIndex g) idxs = Some cards ∧
    isValidMeld (old ++ cards) = true.
Proof.
  intros Hoff.
  destruct a as [fromDeck meldIndices|cardIndex|idxs|t' m idxs| | | | | | |];
    cbn [handlePlayerAction].
  - destruct ((playerIndex =? 0) && negb (firstPlayerHasPlayed g));
      [simpl; congruence|].
    rewrite (flag_kept g); [congruence|]. by apply handleDraw_untouched.
  - assert (Hinner : flagAt (stateOf (handleDiscard g cardIndex)) t = false).
    { rewrite (flag_kept g); [done|]. by apply handleDiscard_untouched. }
    destruct (handleDiscard g cardIndex) as [g'|g']; [|simpl in *; congruence].
    destruct ((playerIndex =? 0) && negb (firstPlayerHasPlayed g'));
      simpl in *; unfold flagAt in *; simpl; congruence.
  - rewrite (flag_kept g); [congruence|]. by apply handleMeld_untouched.
  - intros Hon.
    destruct (handleSapaw_flag g t' m idxs t Hoff Hon)
      as (tp & old & cards & -> & ? & ? & ? & ?).
    by exists m, idxs, tp, old, cards.
  - rewrite (flag_kept g); [congruence|]. by apply handleCallDraw_untouched.
  - rewrite (flag_kept g); [congruence|done].
  - rewrite (flag_kept g); [congruence|]. by apply handleAutoSort_untouched.
  - rewrite (flag_kept g); [congruence|]. by apply handleShuffle_untouched.
  - by rewrite handleNextGame_flag.
  - by rewrite handleResetGame_flag.
  - simpl. congruence.
Qed.

Lemma flag_raised_by_sapaw g e t :
  flagAt g t = false → flagAt (step g e) t = true → sapawAccepted g e t.
Proof.
  intros Hoff. unfold step, onPlayerAction.
  destruct (Nat.eqb_spec (evPlayer e) (currentPlayerIndex g)) as [Hturn|?];
    [|simpl; congruence].
  cbn [negb]. intros Hon.
  destruct (handlePlayerAction_flag _ _ _ _ _ Hoff Hon)
    as (m & idxs & tp & old & cards & ? & ? & ? & ? & ?).
  split; [done|]. by exists m, idxs, tp, old, cards.
Qed.

Lemma run_snoc g evs e : run g (evs ++ [e]) = step (run g evs) e.
Proof. unfold run. by rewrite foldl_app. Qed.

Lemma flag_history g0 evs t :
  flagAt g0 t = false →
  flagAt (run g0 evs) t = true →
  ∃ evs1 e evs2,
    evs = evs1 ++ e :: evs2 ∧
    sapawAccepted (run g0 evs1) e t ∧
    ∀ k, k ≤ length evs2 → flagAt (run g0 (evs1 ++ e :: take k evs2)) t = true.
Proof.
  intros H0. induction evs as [|e evs IH] using rev_ind; [simpl; congruence|].
  rewrite run_snoc. intros Hon.
  destruct (flagAt (run g0 evs) t) eqn:Hprev.
  - destruct (IH eq_refl) as (evs1 & e1 & evs2 & -> & Hacc & Hkeep).
    exists evs1, e1, (evs2 ++ [e]). split; [by rewrite <- app_assoc|].
    split; [done|]. intros k Hk. rewrite length_app in Hk. simpl in Hk.
    destruct (decide (k ≤ length evs2)) as [Hle|Hgt].
    + rewrite take_app_le by done. by apply Hkeep.
    + rewrite take_ge by (rewrite length_app; simpl; lia).
      replace (evs1 ++ e1 :: evs2 ++ [e]) with ((evs1 ++ e1 :: evs2) ++ [e])
        by (by rewrite <- app_assoc).
      by rewrite run_snoc.
  - exists evs, e, []. split; [done|]. split.
    + by apply flag_raised_by_sapaw.
    + intros k Hk. rewrite take_nil. by rewrite run_snoc.
Qed.

Lemma freshGame_flag rand gid ids names t :
  flagAt (freshGame rand gid ids names) t = false.
Proof.
  unfold freshGame, startGame. cbn -[dealCards createDeck].
  destruct (dealCards _ _ _) as [hands remainingDeck]. cbn.
  unfold flagAt. cbn. by destruct t as [|[|[|t]]].
Qed.

(** C9 (as amended). In a session run from a fresh start, the [isSapawed]
    flag of a seat is set only if, this round, a sapaw on an exposed meld of
    that seat was accepted, laid off by the player in turn, who may be the
    owner of the meld; the flag has been set ever since. *)
Theorem C9_flag_set_by_accepted_sapaw :
  ∀ rand gid ids names (evs : list Event) (t : nat),
    flagAt (run (freshGame rand gid ids names) evs) t = true →
    ∃ evs1 e evs2,
      evs = evs1 ++ e :: evs2 ∧
      sapawAccepted (run (freshGame rand gid ids names) evs1) e t ∧
      ∀ k, k ≤ length evs2 →
           flagAt (run (freshGame rand gid ids names) (evs1 ++ e :: take k evs2)) t
             = true.
Proof.
  intros rand gid ids names evs t. apply flag_history, freshGame_flag.
Qed.

Lemma C9_witness :
  ∃ evs1 e evs2,
    selfSapaw = evs1 ++ e :: evs2 ∧
    sapawAccepted
      (run (freshGame fixedRand "g" ("s0", "s1", "s2") ("ann", "ben", "cy")) evs1)
      e 0 ∧
    ∀ k, k ≤ length evs2 →
         flagAt (run (freshGame fixedRand "g" ("s0", "s1", "s2")
                        ("ann", "ben", "cy"))
                     (evs1 ++ e :: take k evs2)) 0 = true.
Proof.
  apply (C9_flag_set_by_accepted_sapaw fixedRand "g" ("s0", "s1", "s2")
           ("ann", "ben", "cy") selfSapaw 0).
  vm_compute. reflexivity.
Defined.

(** C9 fails as stated: seat 0 melds, lays a card off on its own meld, and
    its own flag is set, no other seat having acted. *)
Lemma C9_counterexample :
  flagAt (run fixedGame selfSapaw) 0 = true ∧
  Forall (λ e, evPlayer e = 0) selfSapaw ∧
  legalTrace legalAction fixedGame selfSapaw = true.
Proof.
  split; [by vm_compute|]. split; [by repeat constructor|by vm_compute].
Qed.

(** ** Card conservation (claim C1) *)

Lemma insert_exchange {A : Type} (l : list A) i x y :
  l !! i = Some x → x :: <[i := y]> l ≡ₚ y :: l.
Proof.
  revert i. induction l as [|z l IH]; intros [|i] Hi; simplify_eq/=.
  - apply perm_swap.
  - rewrite perm_swap, (IH i Hi). apply perm_swap.
Qed.

Lemma alter_as_insert {A : Type} (f : A → A) (l : list A) i x :
  l !! i = Some x → alter f i l = <[i := f x]> l.
Proof.
  revert i. induction l as [|z l IH]; intros [|i] Hi; simplify_eq/=; [done|].
  by rewrite (IH i Hi).
Qed.

Lemma swap_perm {A : Type} (arr : list A) i j : swap arr i j ≡ₚ arr.
Proof.
  unfold swap. destruct (arr !! i) as [x|] eqn:Ei; [|done].
  destruct (arr !! j) as [y|] eqn:Ej; [|done].
  destruct (decide (i = j)) as [->|Hne].
  - simplify_eq. by rewrite list_insert_insert_eq, list_insert_id.
  - apply (Permutation_cons_inv (a := y)).
    rewrite insert_exchange by (by rewrite list_lookup_insert_ne).
    by apply insert_exchange.
Qed.

Lemma shuffleLoop_perm {A : Type} rand i (arr : list A) :
  shuffleLoop rand i arr ≡ₚ arr.
Proof.
  revert arr. induction i as [|i IH]; intros arr; simpl; [done|].
  by rewrite IH, swap_perm.
Qed.

Lemma shuffleDeck_perm {A : Type} rand (deck : list A) :
  shuffleDeck rand deck ≡ₚ deck.
Proof. apply shuffleLoop_perm. Qed.







Lemma createDeck_perm rand : createDeck rand ≡ₚ orderedDeck.
Proof. apply shuffleDeck_perm. Qed.


(** The deal of a fresh session, whatever the shuffle: thirteen cards for
    seat 0, twelve for seats 1 and 2, fifteen left in the deck, nothing
    discarded or melded, seat 0 in turn and armed. *)
Lemma freshGame_deal rand gid ids names :
  (length ∘ hand) <$> players (freshGame rand gid ids names) = [13; 12; 12] ∧
  length (deck (freshGame rand gid ids names)) = 15 ∧
  discardPile (freshGame rand gid ids names) = [] ∧
  (exposedMelds <$> players (freshGame rand gid ids names)) = [[]; []; []] ∧
  (secretMelds <$> players (freshGame rand gid ids names)) = [[]; []; []] ∧
  currentPlayerIndex (freshGame rand gid ids names) = 0 ∧
  hasDrawnThisTurn (freshGame rand gid ids names) = true ∧
  firstPlayerHasPlayed (freshGame rand gid ids names) = false.
Proof.
  unfold freshGame, startGame. cbn -[dealCards createDeck].
  assert (Hlen : length (createDeck rand) = 52) by (by rewrite createDeck_perm).
  destruct (createDeck rand) as [|c d]; [done|].
  do 51 (destruct d as [|? d]; [done|]).
  destruct d; [|done]. by vm_compute.
Qed.







(** A meld that validates names cards of the hand only. *)
Lemma valid_indices_nonneg (h : list Card) (idxs : list Z)
    (before after : list (option Card)) :
  isValidMeld (before ++ (jsAt h <$> idxs) ++ after) = true →
  Forall (λ i, (0 ≤ i)%Z) idxs.
Proof.
  intros [cs Hcs]%isValidMeld_defined. apply Forall_forall. intros i Hi.
  assert (Hin : jsAt h i ∈ Some <$> cs).
  { rewrite <- Hcs, !elem_of_app. right. left. by apply list_elem_of_fmap_2. }
  apply list_elem_of_fmap in Hin as (c & Hc & _).
  unfold jsAt in Hc. by destruct (Z.ltb_spec i 0).
Qed.










Lemma lookup_alter_hand (ps : list Player) (f : Player → Player) T cur p :
  ps !! cur = Some p → (∀ x, hand (f x) = hand x) →
  ∃ q, alter f T ps !! cur = Some q ∧ hand q = hand p.
Proof.
  intros Hp Hf. destruct (decide (T = cur)) as [->|Hne].
  - exists (f p). by rewrite list_lookup_alter_eq, Hp.
  - exists p. by rewrite list_lookup_alter_ne.
Qed.

#[local] Instance defined_Permutation {A : Type} :
  Proper ((≡ₚ) ==> (≡ₚ)) (@defined A).
Proof. intros l1 l2 Hl. unfold defined. by rewrite Hl. Qed.







(** * Further properties of the code *)

(** ** Shuffling and dealing *)

Section ShuffleReach.
Context {A : Type}.
Implicit Types arr target : list A.

Lemma shuffleLoop_ext rand1 rand2 i arr :
  (∀ k, k ≤ i → rand1 k = rand2 k) →
  shuffleLoop rand1 i arr = shuffleLoop rand2 i arr.
Proof.
  revert arr. induction i as [|i IH]; intros arr H; [done|].
  simpl. rewrite (H (S i)) by lia. apply IH. intros k Hk. apply H. lia.
Qed.

Lemma take_swap n arr i j :
  i < n → j < n → take n (swap arr i j) = swap (take n arr) i j.
Proof.
  intros Hi Hj. unfold swap.
  rewrite !lookup_take_lt by done.
  destruct (arr !! i), (arr !! j); try done.
  by rewrite !take_insert_lt by done.
Qed.

Lemma drop_swap n arr i j :
  i < n → j < n → drop n (swap arr i j) = drop n arr.
Proof.
  intros Hi Hj. unfold swap.
  destruct (arr !! i), (arr !! j); try done.
  by rewrite !drop_insert_lt by done.
Qed.

Lemma swap_lookup arr i j x y :
  arr !! i = Some x → arr !! j = Some y → swap arr i j !! i = Some y.
Proof.
  intros Hi Hj. unfold swap. rewrite Hi, Hj.
  pose proof (lookup_lt_Some _ _ _ Hi). pose proof (lookup_lt_Some _ _ _ Hj).
  destruct (decide (i = j)) as [->|Hne].
  - rewrite list_lookup_insert_eq by (by rewrite length_insert). congruence.
  - rewrite list_lookup_insert_ne by done.
    by rewrite list_lookup_insert_eq.
Qed.

Lemma swap_length arr i j : length (swap arr i j) = length arr.
Proof. unfold swap. repeat case_match; by rewrite ?length_insert. Qed.

Lemma shuffleLoop_reach i arr target :
  i < length arr →
  take (S i) arr ≡ₚ take (S i) target →
  drop (S i) arr = drop (S i) target →
  ∃ rand, shuffleLoop rand i arr = target.
Proof.
  revert arr. induction i as [|i IH]; intros arr Hlt Hp Hd.
  - exists (λ _, 0). simpl.
    rewrite <- (take_drop 1 arr), <- (take_drop 1 target), Hd. f_equal.
    destruct arr as [|a arr], target as [|t target]; simpl in *;
      try done.
    + by apply Permutation_nil_cons in Hp.
    + symmetry in Hp. by apply Permutation_nil_cons in Hp.
    + by apply Permutation_singleton_r in Hp.
  - assert (Hlen : length (take (S (S i)) target) = S (S i)).
    { rewrite <- Hp, length_take. lia. }
    rewrite length_take in Hlen.
    destruct (lookup_lt_is_Some_2 target (S i)) as [t Ht]; [lia|].
    assert (Hin : t ∈ take (S (S i)) arr).
    { rewrite Hp. apply list_elem_of_lookup. exists (S i).
      by rewrite lookup_take_lt by lia. }
    apply list_elem_of_lookup in Hin as [j Hj].
    pose proof (lookup_lt_Some _ _ _ Hj) as Hjlt. rewrite length_take in Hjlt.
    rewrite lookup_take_lt in Hj by lia.
    destruct (lookup_lt_is_Some_2 arr (S i)) as [x Hx]; [lia|].
    set (arr' := swap arr (S i) j).
    assert (Hi' : arr' !! S i = Some t) by (by eapply swap_lookup).
    destruct (IH arr') as [rand0 Hrand0].
    + unfold arr'. rewrite swap_length. lia.
    + apply (Permutation_app_inv_r [t]).
      rewrite <- (take_S_r arr' (S i) t Hi'), <- (take_S_r target (S i) t Ht).
      unfold arr'. rewrite take_swap by lia. by rewrite swap_perm.
    + rewrite (drop_S arr' t (S i) Hi'), (drop_S target t (S i) Ht).
      f_equal. unfold arr'. rewrite drop_swap by lia. done.
    + exists (λ k, if k =? S i then j else rand0 k).
      cbn [shuffleLoop]. cbn beta.
      rewrite Nat.eqb_refl, Nat.mod_small by lia. fold arr'.
      rewrite <- Hrand0. apply shuffleLoop_ext. intros k Hk.
      destruct (Nat.eqb_spec k (S i)); [lia|done].
Qed.
End ShuffleReach.

Lemma shuffleDeck_reach {A : Type} (deck target : list A) :
  target ≡ₚ deck → ∃ rand, shuffleDeck rand deck = target.
Proof.
  intros Hp. unfold shuffleDeck.
  destruct deck as [|c deck].
  { apply Permutation_nil_r in Hp as ->. by exists (λ _, 0). }
  assert (Hl : length target = length (c :: deck)) by (by rewrite Hp).
  apply shuffleLoop_reach.
  - simpl. lia.
  - replace (S (length (c :: deck) - 1)) with (length (c :: deck))
      by (simpl; lia).
    rewrite firstn_all. rewrite <- Hl, firstn_all. done.
  - rewrite !drop_ge; [done|simpl in *; lia..].
Qed.

(** X1. The results of [shuffleDeck] over all outcomes of the random draws
    are exactly the rearrangements of the deck: every result holds the same
    cards, and every ordering of them is produced by some outcome. *)
Theorem X1_shuffleDeck_orderings {A : Type} (deck target : list A) :
  (∃ rand, shuffleDeck rand deck = target) ↔ target ≡ₚ deck.
Proof.
  split.
  - intros [rand <-]. apply shuffleDeck_perm.
  - apply shuffleDeck_reach.
Qed.

Lemma foldl_seq_S {B : Type} (f : B → nat → B) (b : B) (k : nat) :
  foldl f b (seq 0 (S k)) = f (foldl f b (seq 0 k)) k.
Proof. by rewrite seq_S, foldl_app. Qed.

(** The state of [dealCards] after [i] full rounds and [j'] steps of the
    next one: [t = i * n + j'] cards have been asked for. *)
Lemma dealOne_step (deck : list Card) n i j' st :
  j' < n →
  st.2 = take (length deck - (i * n + j')) deck →
  st.1 = (λ j, omap (λ i', reverse deck !! (i' * n + j))
                 (seq 0 (if j <? j' then S i else i))) <$> seq 0 n →
  (dealOne st j').2 = take (length deck - (i * n + S j')) deck ∧
  (dealOne st j').1 = (λ j, omap (λ i', reverse deck !! (i' * n + j))
                              (seq 0 (if j <? S j' then S i else i))) <$> seq 0 n.
Proof.
  intros Hj Hd Hh. unfold dealOne.
  set (m := length deck - (i * n + j')) in *.
  destruct (decide (m = 0)) as [Hm|Hm].
  - rewrite Hd, Hm. simpl. split.
    + rewrite Hd, Hm. simpl. replace (length deck - _) with 0 by lia. done.
    + rewrite Hh. apply list_fmap_ext. intros k j Hk.
      apply lookup_seq in Hk as [-> Hk]. simpl.
      destruct (Nat.ltb_spec k j'), (Nat.ltb_spec k (S j')); try done; try lia.
      assert (k = j') as -> by lia.
      rewrite seq_S, omap_app. simpl.
      rewrite (lookup_ge_None_2 (reverse deck)) by (rewrite length_reverse; lia).
      simpl. by rewrite app_nil_r.
  - assert (Hlast : last st.2 = reverse deck !! (i * n + j')).
    { rewrite Hd, last_lookup, length_take, Nat.min_l by lia.
      rewrite lookup_take_lt by lia. rewrite reverse_lookup by lia.
      f_equal. lia. }
    destruct (lookup_lt_is_Some_2 (reverse deck) (i * n + j')) as [card Hc].
    { rewrite length_reverse. lia. }
    rewrite Hlast, Hc. simpl. split.
    + rewrite Hd. replace m with (S (length deck - (i * n + S j'))) by lia.
      apply removelast_firstn. lia.
    + rewrite Hh. apply list_eq. intros k.
      destruct (decide (k = j')) as [->|Hne].
      * rewrite list_lookup_alter_eq, !list_lookup_fmap.
        rewrite lookup_seq_lt by done. simpl.
        rewrite Nat.ltb_irrefl.
        destruct (Nat.ltb_spec j' (S j')); [|lia].
        by rewrite seq_S, omap_app; simpl; rewrite Hc.
      * rewrite list_lookup_alter_ne by done. rewrite !list_lookup_fmap.
        destruct (seq 0 n !! k) as [j|] eqn:Hk; [|done]. simpl.
        apply lookup_seq in Hk as [-> Hk]. simpl.
        by destruct (Nat.ltb_spec k j'), (Nat.ltb_spec k (S j')); try done; lia.
Qed.

Lemma dealRound_state (deck : list Card) n i st :
  st.2 = take (length deck - i * n) deck →
  st.1 = (λ j, omap (λ i', reverse deck !! (i' * n + j)) (seq 0 i)) <$> seq 0 n →
  (foldl dealOne st (seq 0 n)).2 = take (length deck - S i * n) deck ∧
  (foldl dealOne st (seq 0 n)).1
    = (λ j, omap (λ i', reverse deck !! (i' * n + j)) (seq 0 (S i))) <$> seq 0 n.
Proof.
  intros Hd Hh.
  assert (Hgen : ∀ j', j' ≤ n →
    (foldl dealOne st (seq 0 j')).2 = take (length deck - (i * n + j')) deck ∧
    (foldl dealOne st (seq 0 j')).1
      = (λ j, omap (λ i', reverse deck !! (i' * n + j))
                (seq 0 (if j <? j' then S i else i))) <$> seq 0 n).
  { induction j' as [|j' IH]; intros Hj.
    - simpl. by rewrite Nat.add_0_r.
    - rewrite foldl_seq_S.
      destruct IH as [IH1 IH2]; [lia|]. by apply dealOne_step. }
  destruct (Hgen n) as [H1 H2]; [done|]. split.
  - rewrite H1. f_equal. lia.
  - rewrite H2. apply list_fmap_ext. intros k j Hk.
    apply lookup_seq in Hk as [-> Hk]. simpl.
    by destruct (Nat.ltb_spec k n); [|lia].
Qed.

(** X2. [dealCards] deals round-robin from the end of the deck, the end that
    [pop] draws from: taking the deck from its last card backwards, the
    [i]-th card of player [j] is the one at position [i * n + j], and what
    is left is the front of the deck. When the deck runs out the deal stops
    without an error, the hands served last being the shorter ones. *)
Theorem X2_dealCards_round_robin (deck : list Card) (numPlayers cardsPerPlayer : nat) :
  (dealCards deck numPlayers cardsPerPlayer).1
    = (λ j, omap (λ i, reverse deck !! (i * numPlayers + j)) (seq 0 cardsPerPlayer))
        <$> seq 0 numPlayers ∧
  (dealCards deck numPlayers cardsPerPlayer).2
    = take (length deck - numPlayers * cardsPerPlayer) deck.
Proof.
  unfold dealCards, range. rewrite !Nat.sub_0_r.
  set (n := numPlayers).
  assert (Hgen : ∀ k,
    let st := foldl (λ st _, foldl dealOne st (seq 0 n))
                    (replicate n [], deck) (seq 0 k) in
    st.2 = take (length deck - k * n) deck ∧
    st.1 = (λ j, omap (λ i', reverse deck !! (i' * n + j)) (seq 0 k)) <$> seq 0 n).
  { induction k as [|k IH].
    - simpl. rewrite Nat.sub_0_r, firstn_all. split; [done|].
      clear. generalize 0. induction n as [|n IH]; intros a; [done|].
      simpl. by rewrite <- IH.
    - cbv zeta in *. rewrite foldl_seq_S.
      destruct IH as [IH1 IH2]. by apply dealRound_state. }
  destruct (Hgen cardsPerPlayer) as [H1 H2]. split; [done|].
  rewrite H1. f_equal. lia.
Qed.

(** X3. [startGame] on a game of three players, whatever the shuffle: seat 0
    is dealt thirteen cards and seats 1 and 2 twelve each, fifteen cards stay
    in the deck, and hands and deck together are the 52 cards of the pack;
    the discard pile and the exposed melds are emptied and the first turn is
    armed. Who sits where, the seat in turn and the players' secret melds and
    scores are left as they were. *)
Theorem X3_startGame_deal (rand : nat → nat) (g : Game) :
  length (players g) = PLAYERS_REQUIRED →
  (length ∘ hand) <$> players (startGame rand g) = [13; 12; 12] ∧
  length (deck (startGame rand g)) = 15 ∧
  deck (startGame rand g) ++ (players (startGame rand g) ≫= hand) ≡ₚ orderedDeck ∧
  discardPile (startGame rand g) = [] ∧
  exposedMelds <$> players (startGame rand g) = [[]; []; []] ∧
  hasDrawnThisTurn (startGame rand g) = true ∧
  firstPlayerHasPlayed (startGame rand g) = false ∧
  selectedCardIndices (startGame rand g) = [] ∧
  playerId <$> players (startGame rand g) = playerId <$> players g ∧
  secretMelds <$> players (startGame rand g) = secretMelds <$> players g ∧
  score <$> players (startGame rand g) = score <$> players g ∧
  currentPlayerIndex (startGame rand g) = currentPlayerIndex g.
Proof.
  intros Hn. unfold startGame. rewrite Hn. cbn [Nat.eqb PLAYERS_REQUIRED negb].
  destruct (players g) as [|p0 [|p1 [|p2 [|]]]] eqn:Eps; try done.
  pose proof (createDeck_perm rand) as Hperm.
  assert (Hlen : length (createDeck rand) = 52) by (by rewrite Hperm).
  destruct (createDeck rand) as [|c d]; [done|].
  do 51 (destruct d as [|? d]; [done|]).
  destruct d; [|done].
  vm_compute dealCards. cbn.
  repeat split. rewrite <- Hperm. solve_Permutation.
Qed.

Lemma X3_witness :
  (length ∘ hand) <$> players (startGame fixedRand (lobby "g" ["s0"; "s1"; "s2"] ["ann"; "ben"; "cy"]))
    = [13; 12; 12].
Proof.
  apply (X3_startGame_deal fixedRand
           (lobby "g" ["s0"; "s1"; "s2"] ["ann"; "ben"; "cy"])).
  reflexivity.
Defined.


(** ** New rounds *)

Lemma handleNextGame_three (rand : nat → nat) (g : Game) :
  length (players g) = PLAYERS_REQUIRED →
  ∃ g', handleNextGame rand g = Done g' ∧
    (length ∘ hand) <$> players g' = [13; 12; 12] ∧
    length (deck g') = 15 ∧
    tableCards g' ≡ₚ orderedDeck ∧
    discardPile g' = [] ∧
    Forall (λ p, exposedMelds p = [] ∧ secretMelds p = [] ∧ score p = 0 ∧
                 isSapawed p = false ∧ points p = 0 ∧ turnsPlayed p = 0)
           (players g') ∧
    round g' = round g + 1 ∧
    currentPlayerIndex g' = 0 ∧
    hasDrawnThisTurn g' = true ∧
    firstPlayerHasPlayed g' = false ∧
    gameEnded g' = false ∧
    selectedCardIndices g' = [] ∧
    playerId <$> players g' = playerId <$> players g ∧
    consecutiveWins <$> players g' = consecutiveWins <$> players g ∧
    winner g' = winner g.
Proof.
  intros Hn. unfold handleNextGame.
  destruct (players g) as [|p0 [|p1 [|p2 [|]]]] eqn:Eps; try done.
  pose proof (createDeck_perm rand) as Hperm.
  assert (Hlen : length (createDeck rand) = 52) by (by rewrite Hperm).
  destruct (createDeck rand) as [|c d]; [done|].
  do 51 (destruct d as [|? d]; [done|]).
  destruct d; [|done].
  vm_compute dealCards. cbn.
  eexists. split; [reflexivity|]. cbn.
  repeat split; try (repeat constructor; done).
  unfold tableCards. cbn. rewrite <- Hperm. solve_Permutation.
Qed.

(** X4. [handleNextGame] in a game of three players, from any state and
    whatever the shuffle, returns without an error and leaves a fresh round:
    thirteen, twelve and twelve cards in the hands and fifteen in the deck,
    together the 52 cards of the pack with nothing on the discard pile or in
    a meld; scores, points, turn counts and sapaw flags are cleared, seat 0
    is in turn and armed, and the round number is one higher. The players,
    their winning streaks and the [winner] of the round before are kept. *)
Theorem X4_handleNextGame_fresh_round (rand : nat → nat) (g : Game) :
  length (players g) = PLAYERS_REQUIRED →
  ∃ g', handleNextGame rand g = Done g' ∧
    (length ∘ hand) <$> players g' = [13; 12; 12] ∧
    length (deck g') = 15 ∧
    tableCards g' ≡ₚ orderedDeck ∧
    discardPile g' = [] ∧
    Forall (λ p, exposedMelds p = [] ∧ secretMelds p = [] ∧ score p = 0 ∧
                 isSapawed p = false ∧ points p = 0 ∧ turnsPlayed p = 0)
           (players g') ∧
    round g' = round g + 1 ∧
    currentPlayerIndex g' = 0 ∧
    hasDrawnThisTurn g' = true ∧
    firstPlayerHasPlayed g' = false ∧
    gameEnded g' = false ∧
    selectedCardIndices g' = [] ∧
    playerId <$> players g' = playerId <$> players g ∧
    consecutiveWins <$> players g' = consecutiveWins <$> players g ∧
    winner g' = winner g.
Proof. apply handleNextGame_three. Qed.

Lemma X4_witness :
  ∃ g', handleNextGame fixedRand lateGame = Done g' ∧
    (length ∘ hand) <$> players g' = [13; 12; 12] ∧
    length (deck g') = 15 ∧
    tableCards g' ≡ₚ orderedDeck ∧
    discardPile g' = [] ∧
    Forall (λ p, exposedMelds p = [] ∧ secretMelds p = [] ∧ score p = 0 ∧
                 isSapawed p = false ∧ points p = 0 ∧ turnsPlayed p = 0)
           (players g') ∧
    round g' = round lateGame + 1 ∧
    currentPlayerIndex g' = 0 ∧
    hasDrawnThisTurn g' = true ∧
    firstPlayerHasPlayed g' = false ∧
    gameEnded g' = false ∧
    selectedCardIndices g' = [] ∧
    playerId <$> players g' = playerId <$> players lateGame ∧
    consecutiveWins <$> players g' = consecutiveWins <$> players lateGame ∧
    winner g' = winner lateGame.
Proof. apply (X4_handleNextGame_fresh_round fixedRand lateGame). reflexivity. Defined.

(** X5. [handleResetGame] sets the round number to 1 and then runs
    [handleNextGame], which increments it: in a game of three players the
    reset leaves round 2, not 1. Every winning streak is cleared, and the
    rest is the fresh round of [handleNextGame]. *)
Theorem X5_handleResetGame_round_two (rand : nat → nat) (g : Game) :
  length (players g) = PLAYERS_REQUIRED →
  ∃ g', handleResetGame rand g = Done g' ∧
    round g' = 2 ∧
    Forall (λ p, consecutiveWins p = 0) (players g') ∧
    (length ∘ hand) <$> players g' = [13; 12; 12] ∧
    length (deck g') = 15 ∧
    tableCards g' ≡ₚ orderedDeck ∧
    currentPlayerIndex g' = 0 ∧
    gameEnded g' = false ∧
    playerId <$> players g' = playerId <$> players g.
Proof.
  intros Hn. unfold handleResetGame.
  set (g1 := G.withPlayers (P.withConsecutiveWins 0 <$> players g)
               (G.withRound 1 g)).
  destruct (handleNextGame_three rand g1) as (g' & Hg' & H).
  { unfold g1. cbn. by rewrite length_fmap. }
  exists g'. split; [done|].
  destruct H as (Hh & Hd & Ht & _ & _ & Hr & Hc & _ & _ & He & _ & Hid & Hw & _).
  repeat split; try done.
  - apply Forall_forall. intros p [i Hp]%list_elem_of_lookup.
    assert (Hi : (consecutiveWins <$> players g') !! i = Some (consecutiveWins p))
      by (by rewrite list_lookup_fmap, Hp).
    rewrite Hw in Hi. unfold g1 in Hi. cbn in Hi.
    rewrite <- list_fmap_compose, list_lookup_fmap in Hi.
    destruct (players g !! i); by simplify_eq/=.
  - rewrite Hid. unfold g1. cbn. by rewrite <- list_fmap_compose.
Qed.

Lemma X5_witness :
  ∃ g', handleResetGame fixedRand lateGame = Done g' ∧
    round g' = 2 ∧
    Forall (λ p, consecutiveWins p = 0) (players g') ∧
    (length ∘ hand) <$> players g' = [13; 12; 12] ∧
    length (deck g') = 15 ∧
    tableCards g' ≡ₚ orderedDeck ∧
    currentPlayerIndex g' = 0 ∧
    gameEnded g' = false ∧
    playerId <$> players g' = playerId <$> players lateGame.
Proof. apply (X5_handleResetGame_round_two fixedRand lateGame). reflexivity. Defined.


(** ** Sorting a hand *)

Section SortFacts.
Context {A : Type} (cmp : A → A → Z).

Lemma sortInsert_sorted_total x l :
  (∀ a b, (0 < cmp a b)%Z → (cmp b a ≤ 0)%Z) →
  Sorted (λ a b, (cmp a b ≤ 0)%Z) l →
  Sorted (λ a b, (cmp a b ≤ 0)%Z) (sortInsert cmp x l).
Proof.
  intros Htot. induction l as [|y l IH]; simpl; intros Hs.
  - repeat constructor.
  - destruct (Z.leb_spec (cmp x y) 0) as [Hle|Hgt].
    + constructor; [done|]. by constructor.
    + apply Sorted_inv in Hs as [Hs Hhd].
      constructor; [by apply IH|].
      destruct l as [|z l]; simpl.
      * constructor. by apply Htot.
      * destruct (Z.leb_spec (cmp x z) 0); constructor.
        -- by apply Htot.
        -- by apply HdRel_inv in Hhd.
Qed.

Lemma jsSort_sorted_total l :
  (∀ a b, (0 < cmp a b)%Z → (cmp b a ≤ 0)%Z) →
  Sorted (λ a b, (cmp a b ≤ 0)%Z) (jsSort cmp l).
Proof.
  intros Htot. induction l as [|x l IH]; simpl; [constructor|].
  by apply sortInsert_sorted_total.
Qed.

(** Sorting an array that is in order leaves it as it is. *)
Lemma jsSort_fixed l :
  Sorted (λ a b, (cmp a b ≤ 0)%Z) l → jsSort cmp l = l.
Proof.
  induction l as [|x l IH]; [done|]. intros [Hs Hhd]%Sorted_inv.
  simpl. rewrite IH by done. destruct Hhd as [|y l Hxy]; [done|].
  simpl. by destruct (Z.leb_spec (cmp x y) 0); [|lia].
Qed.

(** The sort is stable: elements that compare as equal keep their order. *)
Lemma sortInsert_stable (P : A → Prop) `{!∀ x, Decision (P x)} x l :
  (∀ a b, P a → P b → (cmp a b ≤ 0)%Z) →
  filter P (sortInsert cmp x l) = filter P (x :: l).
Proof.
  intros Heq. induction l as [|y l IH]; [done|]. simpl.
  destruct (Z.leb_spec (cmp x y) 0) as [Hle|Hgt]; [done|].
  rewrite (filter_cons _ y), IH, !filter_cons.
  destruct (decide (P x)) as [Hx|Hx], (decide (P y)) as [Hy|Hy]; try done.
  specialize (Heq x y Hx Hy). lia.
Qed.

Lemma jsSort_stable (P : A → Prop) `{!∀ x, Decision (P x)} l :
  (∀ a b, P a → P b → (cmp a b ≤ 0)%Z) →
  filter P (jsSort cmp l) = filter P l.
Proof.
  intros Heq. induction l as [|x l IH]; [done|]. simpl.
  rewrite sortInsert_stable by done. by rewrite !filter_cons, IH.
Qed.
End SortFacts.

Lemma Sorted_impl_ {A : Type} (R1 R2 : A → A → Prop) (l : list A) :
  (∀ a b, R1 a b → R2 a b) → Sorted R1 l → Sorted R2 l.
Proof.
  intros H Hs. rewrite <- (list_fmap_id l). by apply (Sorted_fmap id R1 R2).
Qed.

Lemma autoSortCompare_key (a b : Card) :
  (autoSortCompare a b ≤ 0)%Z ↔ (autoSortKey a ≤ autoSortKey b)%Z.
Proof.
  destruct a as [ua sa ra], b as [ub sb rb].
  unfold autoSortCompare, autoSortKey. cbn [suit rank].
  destruct sa, sb, ra, rb; vm_compute; split; intros H; congruence.
Qed.

(** X6. [handleAutoSort] rearranges the hand of the seat named and touches
    nothing else. The hand comes out ordered by suit name (clubs, diamonds,
    hearts, spades) and, in a suit, by rank name compared as a string, which
    puts 10 before 2 and K before Q; sorting it again changes nothing. On a
    seat that does not exist the handler raises a [TypeError]. *)
Theorem X6_handleAutoSort_order (g : Game) (playerIndex : nat) :
  match players g !! playerIndex with
  | Some player =>
      ∃ sorted,
        handleAutoSort g playerIndex
          = Done (G.withPlayers
                    (<[playerIndex := P.withHand sorted player]> (players g)) g) ∧
        sorted ≡ₚ hand player ∧
        Sorted Z.le (autoSortKey <$> sorted) ∧
        handleAutoSort
          (G.withPlayers (<[playerIndex := P.withHand sorted player]> (players g)) g)
          playerIndex
          = Done (G.withPlayers
                    (<[playerIndex := P.withHand sorted player]> (players g)) g)
  | None => handleAutoSort g playerIndex = Thrown g
  end.
Proof.
  unfold handleAutoSort. destruct (players g !! playerIndex) as [player|] eqn:Hp;
    [|done].
  assert (Hs : Sorted (λ a b, (autoSortCompare a b ≤ 0)%Z)
                 (jsSort autoSortCompare (hand player))).
  { apply jsSort_sorted_total. intros a b Hab.
    apply autoSortCompare_key.
    assert (¬ (autoSortKey a ≤ autoSortKey b)%Z); [|lia].
    rewrite <- autoSortCompare_key. lia. }
  pose proof (jsSort_perm autoSortCompare (hand player)) as Hperm.
  pose proof (jsSort_fixed autoSortCompare _ Hs) as Hfix.
  set (sorted := jsSort autoSortCompare (hand player)) in *.
  exists sorted. split; [done|]. split; [done|]. split.
  - eapply Sorted_fmap; [|exact Hs]. intros x y. by apply autoSortCompare_key.
  - cbn. rewrite list_lookup_insert_eq by (by eapply lookup_lt_Some).
    cbn -[jsSort]. rewrite Hfix. by rewrite list_insert_insert_eq.
Qed.

Lemma sortCardsCompare_rank (a b : Card) :
  sortCardsCompare a b = (rankToNumber (rank b) - rankToNumber (rank a))%Z.
Proof. unfold sortCardsCompare. by destruct (suit a), (suit b). Qed.

(** X7. [sortCards] looks the suit names up in an array of suit symbols,
    where none of the four names is found, so the suits play no part in the
    order: the result holds the same cards ordered by rank from king down to
    ace, and the cards of one rank stay in the order they came in, whatever
    their suits. *)
Theorem X7_sortCards_by_rank_only (cards : list Card) :
  sortCards cards ≡ₚ cards ∧
  Sorted (λ a b, (rankToNumber (rank b) ≤ rankToNumber (rank a))%Z)
         (sortCards cards) ∧
  ∀ r, filter (λ c, rank c = r) (sortCards cards)
       = filter (λ c, rank c = r) cards.
Proof.
  unfold sortCards. split; [apply jsSort_perm|]. split.
  - apply (Sorted_impl_ (λ a b, (sortCardsCompare a b ≤ 0)%Z)).
    + intros a b. rewrite sortCardsCompare_rank. lia.
    + apply jsSort_sorted_total.
      intros a b. rewrite !sortCardsCompare_rank. lia.
  - intros r. apply jsSort_stable. intros a b Ha Hb.
    rewrite sortCardsCompare_rank, Ha, Hb. lia.
Qed.


(** ** Melds found when scoring *)

Lemma withoutObject_perm (x : Card) (cards : list Card) :
  coherent cards → x ∈ cards → cards ≡ₚ x :: withoutObject x cards.
Proof.
  induction cards as [|y cards IH]; intros Hco Hx.
  { by apply elem_of_nil in Hx. }
  simpl. destruct (sameObject y x) eqn:E.
  - apply sameObject_eq in E. apply Hco in E as ->; [done|left|done].
  - apply elem_of_cons in Hx as [->|Hx].
    { unfold sameObject in E. by rewrite Nat.eqb_refl in E. }
    rewrite perm_swap. constructor. apply IH; [|done].
    intros a b Ha Hb. apply Hco; by right.
Qed.

Lemma coherent_perm_tail (x : Card) (cards rest : list Card) :
  cards ≡ₚ x :: rest → coherent cards → coherent rest.
Proof.
  intros Hp Hco a b Ha Hb. apply Hco; rewrite Hp; by right.
Qed.

Lemma firstThreeOfAKind_None (cards : list Card) i j k a b c :
  firstThreeOfAKind cards = None →
  i < j → j < k →
  cards !! i = Some a → cards !! j = Some b → cards !! k = Some c →
  ¬ (rank a = rank b ∧ rank b = rank c).
Proof.
  unfold firstThreeOfAKind. intros Hnone Hij Hjk Ha Hb Hc Hr.
  apply head_None in Hnone.
  assert (Hin : (i, j, k) ∈ filter (λ t, sameRankAt cards t = true)
                              (indexTriples (length cards))).
  { apply list_elem_of_filter. split.
    - unfold sameRankAt. simpl. rewrite Ha, Hb, Hc. by apply bool_decide_eq_true.
    - apply elem_of_indexTriples. pose proof (lookup_lt_Some _ _ _ Hc). lia. }
  rewrite Hnone in Hin. by apply elem_of_nil in Hin.
Qed.

Lemma findAndRemoveMeld_sound (cards : list Card) :
  coherent cards →
  match findAndRemoveMeld cards with
  | Some (meldFound, cards') =>
      length meldFound = 3 ∧
      isValidMeld (Some <$> meldFound) = true ∧
      cards ≡ₚ meldFound ++ cards'
  | None =>
      ∀ i j k a b c,
        i < j → j < k →
        cards !! i = Some a → cards !! j = Some b → cards !! k = Some c →
        ¬ (rank a = rank b ∧ rank b = rank c)
  end.
Proof.
  intros Hco. unfold findAndRemoveMeld. rewrite findSetIndices_spec.
  destruct (firstThreeOfAKind cards) as [[[i j] k]|] eqn:Eset.
  - pose proof (firstThreeOfAKind_bounds _ _ _ _ Eset) as (Hij & Hjk & Hk).
    apply firstThreeOfAKind_least in Eset as [Hsame _].
    unfold sameRankAt in Hsame. simpl in Hsame.
    destruct (cards !! i) as [a|] eqn:Ha; [|done].
    destruct (cards !! j) as [b|] eqn:Hb; [|done].
    destruct (cards !! k) as [c|] eqn:Hc; [|done].
    apply bool_decide_eq_true in Hsame as [Hab Hbc].
    cbv beta iota zeta. rewrite !splice1_nat.
    csimpl. rewrite Ha, Hb, Hc. csimpl. split; [done|]. split.
    + apply threeOfAKind_valid; congruence.
    + rewrite (delete_Permutation cards k c Hc) at 1.
      assert (Hb' : delete k cards !! j = Some b)
        by (by rewrite list_lookup_delete_lt).
      rewrite (delete_Permutation _ j b Hb') at 1.
      assert (Ha' : delete j (delete k cards) !! i = Some a)
        by (by rewrite !list_lookup_delete_lt by lia).
      rewrite (delete_Permutation _ i a Ha') at 1.
      solve_Permutation.
  - rewrite findRunWindow_spec, jsSort_byRank_rankSorted.
    fold (firstRunOfThree cards).
    destruct (firstRunOfThree cards) as [[[a b] c]|] eqn:Erun.
    + pose proof (firstRunOfThree_cards _ _ _ _ Erun)
        as (Ha & Hb & Hc & Hab & Hbc & Hac).
      apply head_filter_Some in Erun as [_ Hrun].
      unfold isRunOfThree in Hrun. apply bool_decide_eq_true in Hrun.
      simpl in Hrun. destruct Hrun as (Hs1 & Hs2 & Hr1 & Hr2).
      split; [done|]. split.
      * apply (isValidMeld_spec [a; b; c]). right. split; [simpl; lia|]. split.
        -- exists (suit a). intros x Hx.
           repeat (apply elem_of_cons in Hx as [->|Hx]); try congruence.
           by apply elem_of_nil in Hx.
        -- exists (rankToNumber (rank a)). csimpl. unfold compose.
           rewrite Hr2, Hr1. done.
      * destruct (spliceOut_three cards a b c) as [-> _]; try done.
        pose proof (withoutObject_perm c cards Hco Hc) as P1.
        assert (Hb1 : b ∈ withoutObject c cards).
        { rewrite P1 in Hb. by apply elem_of_cons in Hb as [->|?]. }
        assert (Ha1 : a ∈ withoutObject c cards).
        { rewrite P1 in Ha. by apply elem_of_cons in Ha as [->|?]. }
        pose proof (coherent_perm_tail _ _ _ P1 Hco) as Hco1.
        pose proof (withoutObject_perm b _ Hco1 Hb1) as P2.
        assert (Ha2 : a ∈ withoutObject b (withoutObject c cards)).
        { rewrite P2 in Ha1. by apply elem_of_cons in Ha1 as [->|?]. }
        pose proof (coherent_perm_tail _ _ _ P2 Hco1) as Hco2.
        pose proof (withoutObject_perm a _ Hco2 Ha2) as P3.
        rewrite P1 at 1. rewrite P2 at 1. rewrite P3 at 1. solve_Permutation.
    + intros i j k a b c. by apply firstThreeOfAKind_None.
Qed.

(** X8. On an array whose references are coherent: when
    [findAndRemoveMeld] returns a meld, it is three cards of the array that
    [isValidMeld] accepts, and the array is left holding exactly the other
    cards; when it returns [null], the array holds no three cards of one
    rank. *)
Theorem X8_findAndRemoveMeld_takes_a_meld (cards : list Card) :
  coherent cards →
  match findAndRemoveMeld cards with
  | Some (meldFound, cards') =>
      length meldFound = 3 ∧
      isValidMeld (Some <$> meldFound) = true ∧
      cards ≡ₚ meldFound ++ cards'
  | None =>
      ∀ i j k a b c,
        i < j → j < k →
        cards !! i = Some a → cards !! j = Some b → cards !! k = Some c →
        ¬ (rank a = rank b ∧ rank b = rank c)
  end.
Proof. apply findAndRemoveMeld_sound. Qed.

Lemma coherent_NoDup (cards : list Card) : NoDup (uid <$> cards) → coherent cards.
Proof.
  intros Hnd a b [i Hi]%list_elem_of_lookup [j Hj]%list_elem_of_lookup Hab.
  assert (i = j); [|congruence].
  apply (NoDup_lookup (uid <$> cards) i j (uid a)); [done|..].
  - by rewrite list_lookup_fmap, Hi.
  - by rewrite list_lookup_fmap, Hj, Hab.
Qed.

Lemma X8_witness :
  match findAndRemoveMeld
          [mkCard 0 spades rA; mkCard 1 spades r2; mkCard 2 spades r3;
           mkCard 3 hearts rK] with
  | Some (meldFound, cards') =>
      length meldFound = 3 ∧
      isValidMeld (Some <$> meldFound) = true ∧
      [mkCard 0 spades rA; mkCard 1 spades r2; mkCard 2 spades r3;
       mkCard 3 hearts rK] ≡ₚ meldFound ++ cards'
  | None =>
      ∀ i j k a b c,
        i < j → j < k →
        [mkCard 0 spades rA; mkCard 1 spades r2; mkCard 2 spades r3;
         mkCard 3 hearts rK] !! i = Some a →
        [mkCard 0 spades rA; mkCard 1 spades r2; mkCard 2 spades r3;
         mkCard 3 hearts rK] !! j = Some b →
        [mkCard 0 spades rA; mkCard 1 spades r2; mkCard 2 spades r3;
         mkCard 3 hearts rK] !! k = Some c →
        ¬ (rank a = rank b ∧ rank b = rank c)
  end.
Proof.
  apply (X8_findAndRemoveMeld_takes_a_meld
           [mkCard 0 spades rA; mkCard 1 spades r2; mkCard 2 spades r3;
            mkCard 3 hearts rK]).
  apply coherent_NoDup. apply (bool_decide_unpack _). vm_compute. exact I.
Defined.

Lemma rawPoints_cardValue (l : list Card) :
  sum_list (cardValue <$> l) = rawPoints l.
Proof. reflexivity. Qed.

Lemma rawPoints_perm (l1 l2 : list Card) : l1 ≡ₚ l2 → rawPoints l1 = rawPoints l2.
Proof. intros Hp. unfold rawPoints. by rewrite Hp. Qed.

Lemma rawPoints_app (l1 l2 : list Card) :
  rawPoints (l1 ++ l2) = rawPoints l1 + rawPoints l2.
Proof.
  unfold rawPoints. induction l1 as [|c l1 IH]; csimpl; [done|].
  rewrite IH. lia.
Qed.

Lemma coherent_perm_app (m cards rest : list Card) :
  cards ≡ₚ m ++ rest → coherent cards → coherent rest.
Proof.
  intros Hp Hco a b Ha Hb. apply Hco; rewrite Hp, elem_of_app; by right.
Qed.

Lemma meldLoop_split fuel (cards : list Card) melds :
  coherent cards → length cards ≤ fuel →
  ∃ melded n,
    cards ≡ₚ melded ++ (meldLoop fuel cards melds).1 ∧
    length melded = 3 * n ∧
    coherent (meldLoop fuel cards melds).1.
Proof.
  revert cards melds. induction fuel as [|fuel IH]; intros cards melds Hco Hlen.
  { exists [], 0. by simpl. }
  simpl. pose proof (findAndRemoveMeld_sound cards Hco) as Hs.
  destruct (findAndRemoveMeld cards) as [[m cards']|].
  - destruct Hs as (Hm & _ & Hp).
    assert (Hl : length cards = 3 + length cards')
      by (by rewrite Hp, length_app, Hm).
    destruct (IH cards' (melds ++ [Some <$> m])) as (melded & n & Hp' & Hn & Hco').
    { by eapply coherent_perm_app. }
    { lia. }
    exists (m ++ melded), (S n). split; [|split; [|done]].
    + rewrite Hp, Hp' at 1. by rewrite app_assoc.
    + rewrite length_app. lia.
  - exists [], 0. by simpl.
Qed.

(** X9. The points of a hand whose references are coherent are the values
    of the cards left once the melds found are taken out: the hand splits
    into cards melded, three at a time, and cards counted; among the cards
    counted no rank occurs three times; melded and counted values add up to
    the value of the whole hand, so the points never exceed it. *)
Theorem X9_calculateHandPoints_leftover (hand : list Card)
    (secretMelds : list (list (option Card))) :
  coherent hand →
  ∃ melded counted n,
    hand ≡ₚ melded ++ counted ∧
    length melded = 3 * n ∧
    calculateHandPoints hand secretMelds = rawPoints counted ∧
    calculateHandPoints hand secretMelds + rawPoints melded = rawPoints hand ∧
    ∀ i j k a b c,
      i < j → j < k →
      counted !! i = Some a → counted !! j = Some b → counted !! k = Some c →
      ¬ (rank a = rank b ∧ rank b = rank c).
Proof.
  intros Hco.
  destruct (meldLoop_split (length hand) hand secretMelds Hco)
    as (melded & n & Hp & Hn & Hco'); [done|].
  set (counted := (meldLoop (length hand) hand secretMelds).1) in *.
  assert (Hpts : calculateHandPoints hand secretMelds = rawPoints counted).
  { rewrite calculateHandPoints_eq. fold counted.
    by rewrite foldl_points, rawPoints_cardValue. }
  exists melded, counted, n. repeat split; try done.
  - rewrite Hpts, (rawPoints_perm hand _ Hp), rawPoints_app. lia.
  - pose proof (findAndRemoveMeld_sound counted Hco') as Hs.
    unfold counted in Hs at 1. by rewrite meldLoop_exits in Hs.
Qed.

Lemma X9_witness :
  ∃ melded counted n,
    [mkCard 0 spades rA; mkCard 1 spades r2; mkCard 2 spades r3;
     mkCard 3 hearts rK] ≡ₚ melded ++ counted ∧
    length melded = 3 * n ∧
    calculateHandPoints
      [mkCard 0 spades rA; mkCard 1 spades r2; mkCard 2 spades r3;
       mkCard 3 hearts rK] [] = rawPoints counted ∧
    calculateHandPoints
      [mkCard 0 spades rA; mkCard 1 spades r2; mkCard 2 spades r3;
       mkCard 3 hearts rK] [] + rawPoints melded
    = rawPoints [mkCard 0 spades rA; mkCard 1 spades r2; mkCard 2 spades r3;
                 mkCard 3 hearts rK] ∧
    ∀ i j k a b c,
      i < j → j < k →
      counted !! i = Some a → counted !! j = Some b → counted !! k = Some c →
      ¬ (rank a = rank b ∧ rank b = rank c).
Proof.
  apply (X9_calculateHandPoints_leftover
           [mkCard 0 spades rA; mkCard 1 spades r2; mkCard 2 spades r3;
            mkCard 3 hearts rK] []).
  apply coherent_NoDup. apply (bool_decide_unpack _). vm_compute. exact I.
Defined.


(** ** Melds named by a client *)

Lemma slots_all_defined {A : Type} (l : list (option A)) :
  Forall is_Some l → l = Some <$> defined l.
Proof.
  unfold defined. induction 1 as [|x l [a ->] _ IH]; csimpl; [done|].
  by rewrite <- IH.
Qed.

Lemma isValidMeld_perm_slots (cards1 cards2 : list (option Card)) :
  cards1 ≡ₚ cards2 → isValidMeld cards1 = true → isValidMeld cards2 = true.
Proof.
  intros Hp Hv. destruct (isValidMeld_defined _ Hv) as [cs1 ->].
  assert (Hall : Forall is_Some cards2).
  { rewrite <- Hp. apply Forall_fmap, Forall_forall. by eauto. }
  rewrite (slots_all_defined _ Hall).
  rewrite <- (isValidMeld_perm cs1); [done|].
  unfold defined. rewrite <- Hp. clear.
  induction cs1 as [|c cs1 IH]; csimpl; [done|]. by constructor.
Qed.

(** X10. Whether [isValidMeld] accepts an array depends on what it holds and
    not on the order: two arrays with the same entries, [undefined] slots
    counted, are both accepted or both refused. *)
Theorem X10_isValidMeld_order_independent (cards1 cards2 : list (option Card)) :
  cards1 ≡ₚ cards2 → isValidMeld cards1 = isValidMeld cards2.
Proof.
  intros Hp. apply eq_true_iff_eq.
  split; apply isValidMeld_perm_slots; [done|by symmetry].
Qed.

Lemma X10_witness :
  isValidMeld [Some (mkCard 0 clubs r5); Some (mkCard 1 clubs r3);
               Some (mkCard 2 clubs r4)]
  = isValidMeld [Some (mkCard 1 clubs r3); Some (mkCard 2 clubs r4);
                 Some (mkCard 0 clubs r5)].
Proof.
  apply (X10_isValidMeld_order_independent
           [Some (mkCard 0 clubs r5); Some (mkCard 1 clubs r3);
            Some (mkCard 2 clubs r4)]
           [Some (mkCard 1 clubs r3); Some (mkCard 2 clubs r4);
            Some (mkCard 0 clubs r5)]).
  apply (Permutation_app_comm [Some (mkCard 0 clubs r5)]
           [Some (mkCard 1 clubs r3); Some (mkCard 2 clubs r4)]).
Defined.

(** ** Discarding at any index *)

Lemma take1_drop {A : Type} (l : list A) (s : nat) :
  head (take 1 (drop s l)) = l !! s.
Proof.
  revert s. induction l as [|x l IH]; intros [|s]; simpl; done.
Qed.

(** X11. A discard that passes the guard is carried out for every integer
    index, with the semantics of [splice]: an index from [0] to the
    length of the hand names that card, a negative index counts from the end
    of the hand (and names the first card when it reaches before the
    start), and an index at or beyond the length removes nothing. The card
    removed, or [undefined] when none is, goes on the discard pile, the
    player's turn count rises and the turn passes to the next seat. *)
Theorem X11_handleDiscard_any_index (g : Game) (p : Player) (cardIndex : Z) :
  hasDrawnThisTurn g = true ∨ currentPlayerIndex g = 0 →
  players g !! currentPlayerIndex g = Some p →
  let position :=
    if (cardIndex <? 0)%Z
    then Z.to_nat (Z.max (Z.of_nat (length (hand p)) + cardIndex) 0)
    else Z.to_nat cardIndex in
  ∃ g' p',
    handleDiscard g cardIndex = Done g' ∧
    players g' !! currentPlayerIndex g = Some p' ∧
    hand p' = delete position (hand p) ∧
    discardPile g' = discardPile g ++ [hand p !! position] ∧
    turnsPlayed p' = turnsPlayed p + 1 ∧
    currentPlayerIndex g' = (currentPlayerIndex g + 1) mod length (players g) ∧
    hasDrawnThisTurn g' = false ∧
    deck g' = deck g ∧
    ((Z.of_nat (length (hand p)) ≤ cardIndex)%Z →
     hand p' = hand p ∧ discardPile g' = discardPile g ++ [None]).
Proof.
  intros Hgate Hp position. unfold handleDiscard.
  assert (negb (hasDrawnThisTurn g) && negb (currentPlayerIndex g =? 0) = false)
    as ->.
  { destruct Hgate as [->| ->]; [done|]. by rewrite andb_false_r. }
  rewrite Hp. unfold splice1.
  assert (Hdel : delete (spliceStart (hand p) cardIndex) (hand p)
                 = delete position (hand p)).
  { unfold spliceStart, position. destruct (cardIndex <? 0)%Z; [done|].
    apply delete_min. }
  assert (Hget : hand p !! spliceStart (hand p) cardIndex = hand p !! position).
  { unfold spliceStart, position. destruct (cardIndex <? 0)%Z; [done|].
    destruct (decide (Z.to_nat cardIndex < length (hand p))).
    - by rewrite Nat.min_l by lia.
    - rewrite Nat.min_r by lia. by rewrite !lookup_ge_None_2 by lia. }
  eexists _, _. split; [reflexivity|]. cbn.
  rewrite list_lookup_insert_eq by (by eapply lookup_lt_Some).
  rewrite take1_drop, Hdel, Hget. repeat split.
  - rewrite delete_beyond; [done|].
    apply lookup_ge_None_2. unfold position.
    destruct (Z.ltb_spec cardIndex 0); lia.
  - rewrite lookup_ge_None_2; [done|]. unfold position.
    destruct (Z.ltb_spec cardIndex 0); lia.
Qed.

Lemma X11_witness :
  ∃ g' p',
    handleDiscard fixedGame (-1) = Done g' ∧
    players g' !! currentPlayerIndex fixedGame = Some p' ∧
    hand p' = delete 12 (hand (seatOf fixedGame 0)) ∧
    discardPile g' = discardPile fixedGame ++ [hand (seatOf fixedGame 0) !! 12] ∧
    turnsPlayed p' = turnsPlayed (seatOf fixedGame 0) + 1 ∧
    currentPlayerIndex g' = 1 ∧
    hasDrawnThisTurn g' = false ∧
    deck g' = deck fixedGame ∧
    ((13 ≤ -1)%Z →
     hand p' = hand (seatOf fixedGame 0) ∧
     discardPile g' = discardPile fixedGame ++ [None]).
Proof.
  apply (X11_handleDiscard_any_index fixedGame (seatOf fixedGame 0) (-1)).
  - left. vm_compute. reflexivity.
  - vm_compute. reflexivity.
Defined.


(** ** Seats, turns and errors *)

Lemma handleSapaw_seats g t m idxs :
  seatId <$> players (stateOf (handleSapaw g t m idxs)) = seatId <$> players g.
Proof.
  unfold handleSapaw. repeat (case_match; try done). cbn.
  by rewrite !fmap_alter_same.
Qed.

Lemma dealtPlayers_seats hands deck reset ps :
  (∀ p, seatId (reset p) = seatId p) →
  seatId <$> (dealtPlayers hands deck reset ps).1 = seatId <$> ps.
Proof.
  intros Hreset. unfold dealtPlayers. cbn [fst].
  apply list_eq. intros i. rewrite !list_lookup_fmap, list_lookup_imap.
  destruct (ps !! i); [|done]. simpl. by rewrite Hreset.
Qed.

Lemma handleNextGame_seats rand g :
  seatId <$> players (stateOf (handleNextGame rand g)) = seatId <$> players g.
Proof.
  unfold handleNextGame.
  destruct (dealCards _ _ _) as [hands remainingDeck].
  pose proof (dealtPlayers_seats hands remainingDeck resetForNextGame (players g))
    as Hs.
  destruct (dealtPlayers _ _ _ _) as [ps deck']. cbn [fst] in Hs.
  rewrite <- Hs by done. by destruct ps.
Qed.

Lemma handleNextGame_turn rand g :
  currentPlayerIndex (stateOf (handleNextGame rand g)) = 0.
Proof.
  unfold handleNextGame.
  destruct (dealCards _ _ _) as [hands remainingDeck].
  destruct (dealtPlayers _ _ _ _) as [ps deck']. by destruct ps.
Qed.

Lemma onPlayerAction_seats rand g playerIndex a :
  seatId <$> players (stateOf (onPlayerAction rand g playerIndex a))
  = seatId <$> players g.
Proof.
  unfold onPlayerAction. destruct (negb _); [done|].
  destruct a; cbn [handlePlayerAction]; try done.
  - destruct (_ && _); [done|]. by apply handleDraw_untouched.
  - pose proof (handleDiscard_untouched seatId) as H.
    specialize (H ltac:(done) ltac:(done) g cardIndex).
    destruct (handleDiscard g cardIndex) as [g'|g']; [|done].
    by destruct (_ && _).
  - by apply handleMeld_untouched.
  - apply handleSapaw_seats.
  - by apply handleCallDraw_untouched.
  - by apply handleAutoSort_untouched.
  - by apply handleShuffle_untouched.
  - apply handleNextGame_seats.
  - unfold handleResetGame. rewrite handleNextGame_seats. cbn.
    by rewrite fmap_fmap_same.
Qed.

Lemma onPlayerAction_turn rand g playerIndex a :
  currentPlayerIndex g < length (players g) →
  currentPlayerIndex (stateOf (onPlayerAction rand g playerIndex a))
  < length (players g).
Proof.
  intros Hcur.
  destruct a; try (rewrite turn_kept; [done|done..]);
    unfold onPlayerAction;
    (destruct (negb (playerIndex =? currentPlayerIndex g)); [exact Hcur|]);
    cbn [handlePlayerAction].
  - unfold handleDiscard.
    destruct (negb (hasDrawnThisTurn g) && _); [by destruct (_ && _)|].
    destruct (players g !! currentPlayerIndex g); [|exact Hcur].
    destruct (splice1 _ _). cbn -[Nat.modulo].
    assert ((currentPlayerIndex g + 1) mod length (players g)
            < length (players g)) by (apply Nat.mod_upper_bound; lia).
    by destruct (_ && _).
  - rewrite handleNextGame_turn. lia.
  - unfold handleResetGame. rewrite handleNextGame_turn. lia.
Qed.

(** X12. No action adds, removes or reorders players, whoever sends it and
    whether it is accepted or not: along every sequence of player actions
    the seats are held by the same players, and the seat in turn, once it
    exists, exists at every later moment. *)
Theorem X12_seats_and_turn_stay_valid (g : Game) (evs : list Event) :
  currentPlayerIndex g < length (players g) →
  seatId <$> players (run g evs) = seatId <$> players g ∧
  length (players (run g evs)) = length (players g) ∧
  currentPlayerIndex (run g evs) < length (players (run g evs)).
Proof.
  intros Hcur.
  assert (H : seatId <$> players (run g evs) = seatId <$> players g ∧
              currentPlayerIndex (run g evs) < length (players g)).
  { induction evs as [|e evs IH] using rev_ind; [done|].
    rewrite run_snoc. destruct IH as [IH1 IH2]. unfold step.
    assert (Hl : length (players (run g evs)) = length (players g)).
    { by rewrite <- (length_fmap seatId), IH1, length_fmap. }
    split.
    - by rewrite onPlayerAction_seats.
    - rewrite <- Hl. apply onPlayerAction_turn. by rewrite Hl. }
  destruct H as [H1 H2].
  assert (Hl : length (players (run g evs)) = length (players g)).
  { by rewrite <- (length_fmap seatId), H1, length_fmap. }
  rewrite Hl. done.
Qed.

Lemma X12_witness :
  seatId <$> players (run fixedGame doubledIndexDraw) = seatId <$> players fixedGame ∧
  length (players (run fixedGame doubledIndexDraw)) = length (players fixedGame) ∧
  currentPlayerIndex (run fixedGame doubledIndexDraw)
  < length (players (run fixedGame doubledIndexDraw)).
Proof.
  apply (X12_seats_and_turn_stay_valid fixedGame doubledIndexDraw).
  vm_compute. lia.
Defined.

Lemma handleCallDraw_update_found (g : Game) (q : Player) :
  q ∈ players g →
  ∃ j q1,
    list_find (λ s : string * nat, s.1 = playerId q)
      ((λ player, (playerId player, calculateHandPoints (hand player) []))
         <$> players g)
    = Some (j, (playerId q1, calculateHandPoints (hand q1) [])) ∧
    list_find (λ p, playerId p = playerId q) (players g) = Some (j, q1).
Proof.
  intros Hq. rewrite list_find_fmap.
  destruct (list_find_elem_of (λ p, playerId p = playerId q) (players g) q)
    as [[j q1] Hfind]; [done..|].
  exists j, q1. split; [|done].
  unfold compose. cbn [fst]. by rewrite Hfind.
Qed.

Lemma handleCallDraw_returns (g : Game) :
  players g ≠ [] → ∃ g', handleCallDraw g = Done g'.
Proof.
  intros Hne. unfold handleCallDraw.
  destruct (lowestScore _) as [w|] eqn:Ew.
  2:{ destruct (players g); [done|]. discriminate. }
  match goal with |- context [mapM ?f _] => set (update := f) end.
  destruct (mapM_is_Some_2 update (players g)) as [ps ->]; [|by eexists].
  apply Forall_forall. intros q Hq. unfold compose, update.
  destruct (handleCallDraw_update_found g q Hq) as (j & q1 & -> & _).
  by eexists.
Qed.

Lemma dealtPlayers_nonempty hands deck reset ps :
  ps ≠ [] → (dealtPlayers hands deck reset ps).1 ≠ [].
Proof. by destruct ps. Qed.

Lemma handleNextGame_returns rand (g : Game) :
  players g ≠ [] → ∃ g', handleNextGame rand g = Done g'.
Proof.
  intros Hne. unfold handleNextGame.
  destruct (dealCards _ _ _) as [hands remainingDeck].
  pose proof (dealtPlayers_nonempty hands remainingDeck resetForNextGame
                (players g) Hne) as Hps.
  destruct (dealtPlayers _ _ _ _) as [ps deck']. cbn [fst] in Hps.
  destruct ps; [done|]. by eexists.
Qed.

(** X13. While the seat in turn exists, an error escapes the handling of a
    player action that carries the fields of its type in two cases only, both
    in turn: a sapaw naming a player or an exposed meld that does not exist
    (a [TypeError]), and a draw asking for the discard pile when the pile
    holds an entry, the player has not drawn and the draw is not the one
    refused to seat 0 before its first discard (the [ReferenceError] of the
    call of [canFormMeldWithCard], which server.mjs does not import). In both
    the session is left exactly as it was; every other such action, in or out
    of turn, valid or not, returns. *)
Theorem X13_errors_raised (rand : nat → nat) (g : Game) (playerIndex : nat)
    (a : Action) :
  currentPlayerIndex g < length (players g) →
  (∃ g', onPlayerAction rand g playerIndex a = Thrown g') ↔
  onPlayerAction rand g playerIndex a = Thrown g ∧
  playerIndex = currentPlayerIndex g ∧ failing g playerIndex a.
Proof.
  intros Hcur.
  destruct (lookup_lt_is_Some_2 _ _ Hcur) as [p Hp].
  assert (Hne : players g ≠ []) by (by destruct (players g)).
  split; [|intros [H _]; by eexists].
  intros [g' Hthrown]. revert Hthrown. unfold onPlayerAction.
  destruct (Nat.eqb_spec playerIndex (currentPlayerIndex g)) as [Hturn|];
    [|done].
  cbn [negb]. destruct a; cbn [handlePlayerAction failing].
  - destruct (Nat.eqb_spec playerIndex 0) as [H0|H0];
      destruct (firstPlayerHasPlayed g) eqn:Efp; cbn [andb negb]; try done;
      unfold handleDraw; rewrite Hp; cbv zeta;
      (destruct (hasDrawnThisTurn g) eqn:Ehd; [done|]);
      (destruct fromDeck; [by repeat case_match|]);
      (destruct (last (discardPile g)) as [top|] eqn:Etop;
       [|by repeat case_match]);
      intros _; (split; [done|]); (split; [done|]);
      (split; [done|]); (split; [intros [? ?]; congruence|]);
      intros Hnil; by rewrite Hnil in Etop.
  - unfold handleDiscard. rewrite Hp.
    destruct (_ && _); [by destruct (_ && _)|].
    destruct (splice1 _ _). by destruct (_ && _).
  - unfold handleMeld. rewrite Hp, namedCards_Some.
    destruct (negb _); [done|].
    destruct (_ =? 0); [|done].
    unfold handleTongits. cbn.
    by rewrite list_lookup_insert_eq by (by eapply lookup_lt_Some).
  - unfold handleSapaw. rewrite Hp, namedCards_Some.
    destruct (jsAt (players g) targetPlayerIndex) as [tp|]; [|done].
    destruct (jsAt (exposedMelds tp) targetMeldIndex) as [old|]; [|done].
    by destruct (negb _).
  - destruct (handleCallDraw_returns g Hne) as [g1 ->]. done.
  - done.
  - unfold handleAutoSort. rewrite Hturn, Hp. done.
  - unfold handleShuffle. rewrite Hturn, Hp. done.
  - destruct (handleNextGame_returns rand g Hne) as [g1 ->]. done.
  - unfold handleResetGame.
    destruct (handleNextGame_returns rand
                (G.withPlayers (P.withConsecutiveWins 0 <$> players g)
                   (G.withRound 1 g))) as [g1 ->]; [|done].
    cbn. by destruct (players g).
  - done.
Qed.

Lemma X13_witness :
  (∃ g', onPlayerAction fixedRand fixedGame 0 (sapaw 5 0 []) = Thrown g') ↔
  onPlayerAction fixedRand fixedGame 0 (sapaw 5 0 []) = Thrown fixedGame ∧
  0 = currentPlayerIndex fixedGame ∧ failing fixedGame 0 (sapaw 5 0 []).
Proof.
  apply (X13_errors_raised fixedRand fixedGame 0 (sapaw 5 0 [])).
  vm_compute. lia.
Defined.

(** X14. [gameEnded] and [winner] are assigned by [callDraw], by a meld and
    by the two round restarts only: every other action leaves them as they
    are. A discard of the last card of a hand does not end the round, nor
    does an empty deck. *)
Theorem X14_round_ends_by_meld_or_callDraw (rand : nat → nat) (g : Game)
    (playerIndex : nat) (a : Action) :
  a ≠ callDraw → (∀ cardIndices, a ≠ meld cardIndices) →
  a ≠ nextGame → a ≠ resetGame →
  gameEnded (stateOf (onPlayerAction rand g playerIndex a)) = gameEnded g ∧
  winner (stateOf (onPlayerAction rand g playerIndex a)) = winner g.
Proof.
  intros Hc Hm Hn Hr. unfold onPlayerAction.
  destruct (negb (playerIndex =? currentPlayerIndex g)); [done|].
  destruct a; cbn [handlePlayerAction]; try done.
  - unfold handleDraw. by repeat (case_match; try done).
  - unfold handleDiscard.
    destruct (negb (hasDrawnThisTurn g) && _); [by destruct (_ && _)|].
    destruct (players g !! currentPlayerIndex g); [|done].
    destruct (splice1 _ _). by destruct (_ && _).
  - by specialize (Hm cardIndices).
  - unfold handleSapaw. by repeat (case_match; try done).
  - unfold handleAutoSort. by repeat (case_match; try done).
  - unfold handleShuffle. by repeat (case_match; try done).
Qed.

Lemma X14_witness :
  gameEnded (stateOf (onPlayerAction fixedRand fixedGame 0 (discard 0))) = gameEnded fixedGame ∧
  winner (stateOf (onPlayerAction fixedRand fixedGame 0 (discard 0))) = winner fixedGame.
Proof.
  apply (X14_round_ends_by_meld_or_callDraw fixedRand fixedGame 0 (discard 0));
    discriminate.
Defined.


(** ** Calling the draw when a socket holds several seats *)

Lemma list_find_fmap_same {A : Type} (P : A → Prop) `{!∀ x, Decision (P x)}
    (f : A → A) (l : list A) :
  (∀ x, P (f x) ↔ P x) →
  fst <$> list_find P (f <$> l) = fst <$> list_find P l.
Proof.
  intros Hf. induction l as [|x l IH]; [done|]. csimpl.
  destruct (decide (P (f x))) as [Hx|Hx], (decide (P x)) as [Hx'|Hx'];
    try done.
  - destruct Hx'. by apply Hf.
  - destruct Hx. by apply Hf.
  - destruct (list_find P (f <$> l)) as [[? ?]|],
      (list_find P l) as [[? ?]|]; simplify_eq/=; done.
Qed.

(** X15. [handleCallDraw] returns in every game with a player, and looks
    players up by socket id: a seat is given the hand points of the first
    seat that has its id, the streak is incremented at every seat that has
    the id of the first seat of lowest hand points and reset at the others,
    and [winner] is the first seat with that id. With pairwise distinct ids
    these are the seat itself and the seat of lowest points; a socket that
    joined twice shares score, streak and win between its seats. *)
Theorem X15_callDraw_looks_up_by_id (g : Game) :
  players g ≠ [] →
  ∃ g' w pw,
    handleCallDraw g = Done g' ∧
    players g !! w = Some pw ∧
    (∀ i q, players g !! i = Some q → handPoints pw ≤ handPoints q) ∧
    (∀ i q, i < w → players g !! i = Some q → handPoints pw < handPoints q) ∧
    gameEnded g' = true ∧
    winner g' = fst <$> list_find (λ p, playerId p = playerId pw) (players g) ∧
    length (players g') = length (players g) ∧
    ∀ i q, players g !! i = Some q →
      ∃ q' j q1,
        players g' !! i = Some q' ∧
        list_find (λ p, playerId p = playerId q) (players g) = Some (j, q1) ∧
        score q' = handPoints q1 ∧
        hand q' = hand q ∧
        consecutiveWins q' =
          if bool_decide (playerId q = playerId pw) then consecutiveWins q + 1
          else 0.
Proof.
  intros Hne. unfold handleCallDraw.
  set (entry := λ player : Player,
         (playerId player, calculateHandPoints (hand player) [])).
  destruct (lowestScore_first (entry <$> players g))
    as (w & sw & -> & Hw & Hmin & Hfirst).
  { by destruct (players g). }
  rewrite list_lookup_fmap in Hw.
  destruct (players g !! w) as [pw|] eqn:Epw; [|done].
  injection Hw as <-. cbn [fst snd entry].
  set (first := λ q : Player,
         default q (snd <$> list_find (λ p, playerId p = playerId q) (players g))).
  set (upd := λ q : Player,
         if bool_decide (playerId q = playerId pw)
         then P.withConsecutiveWins (consecutiveWins q + 1)
                (P.withScore (calculateHandPoints (hand (first q)) []) q)
         else P.withConsecutiveWins 0
                (P.withScore (calculateHandPoints (hand (first q)) []) q)).
  match goal with |- context [mapM ?f _] => set (update := f) end.
  assert (Hmap : mapM update (players g) = Some (upd <$> players g)).
  { apply mapM_Some. apply Forall2_fmap_r, Forall_Forall2_diag.
    apply Forall_forall. intros q Hq. subst update. cbn beta.
    destruct (handleCallDraw_update_found g q Hq) as (j & q1 & Hf & Hf').
    fold entry in Hf. rewrite Hf. cbn [snd].
    unfold compose, upd, first. cbn beta. rewrite Hf'. done. }
  rewrite Hmap.
  assert (Hid : ∀ q, playerId (upd q) = playerId q).
  { intros q. unfold upd. by case_bool_decide. }
  exists (G.withGameEnded true
            (G.withWinner
               (fst <$> list_find (λ p, playerId p = playerId pw) (upd <$> players g))
               (G.withPlayers (upd <$> players g) g))), w, pw.
  split; [done|]. split; [done|]. split; [|split].
  - intros i q Hq. apply (Hmin i (entry q)). by rewrite list_lookup_fmap, Hq.
  - intros i q Hi Hq. apply (Hfirst i (entry q)); [done|].
    by rewrite list_lookup_fmap, Hq.
  - cbn. split; [done|]. split; [|split].
    + apply list_find_fmap_same. intros q. by rewrite Hid.
    + by rewrite length_fmap.
    + intros i q Hq.
      destruct (handleCallDraw_update_found g q) as (j & q1 & _ & Hf').
      { by eapply list_elem_of_lookup_2. }
      exists (upd q), j, q1. rewrite list_lookup_fmap, Hq.
      split; [done|]. split; [done|].
      unfold upd, first, handPoints. rewrite Hf'.
      by case_bool_decide.
Qed.

Lemma X15_witness :
  ∃ g' w pw,
    handleCallDraw lateGame = Done g' ∧
    players lateGame !! w = Some pw ∧
    (∀ i q, players lateGame !! i = Some q → handPoints pw ≤ handPoints q) ∧
    (∀ i q, i < w → players lateGame !! i = Some q → handPoints pw < handPoints q) ∧
    gameEnded g' = true ∧
    winner g' = fst <$> list_find (λ p, playerId p = playerId pw) (players lateGame) ∧
    length (players g') = length (players lateGame) ∧
    ∀ i q, players lateGame !! i = Some q →
      ∃ q' j q1,
        players g' !! i = Some q' ∧
        list_find (λ p, playerId p = playerId q) (players lateGame) = Some (j, q1) ∧
        score q' = handPoints q1 ∧
        hand q' = hand q ∧
        consecutiveWins q' =
          if bool_decide (playerId q = playerId pw) then consecutiveWins q + 1
          else 0.
Proof. apply (X15_callDraw_looks_up_by_id lateGame). discriminate. Defined.


(** ** Melding and laying off *)

Lemma fmap_alter_field {B : Type} (φ : Player → B) (f : Player → Player)
    (h : B → B) (ps : list Player) (i : nat) (x : Player) :
  (∀ q, φ (f q) = h (φ q)) → ps !! i = Some x →
  φ <$> alter f i ps = <[i := h (φ x)]> (φ <$> ps).
Proof.
  intros Hf Hx. rewrite (list_fmap_alter φ f h).
  - apply alter_as_insert. by rewrite list_lookup_fmap, Hx.
  - apply Forall_forall. intros q _. apply Hf.
Qed.

(** X16. An accepted sapaw: when the player in turn names pairwise distinct
    cards of the hand that validate together with an exposed meld of some
    seat, their own included, the cards leave the hand and are appended to
    that meld in the order named, and the owner of the meld is flagged as
    sapawed. Nothing else changes: the deck, the discard pile, the turn and
    [hasDrawnThisTurn] are as before; a sapaw asks for no draw and does not
    pass the turn. *)
Theorem X16_handleSapaw_lays_off (g : Game) (p tp : Player) (t m : nat)
    (old : Meld) (cardIndices : list Z) :
  players g !! currentPlayerIndex g = Some p →
  players g !! t = Some tp →
  exposedMelds tp !! m = Some old →
  NoDup cardIndices →
  isValidMeld (old ++ (jsAt (hand p) <$> cardIndices)) = true →
  ∃ g',
    handleSapaw g (Z.of_nat t) (Z.of_nat m) cardIndices = Done g' ∧
    hand <$> players g'
      = <[currentPlayerIndex g :=
            withoutPositions (Z.to_nat <$> cardIndices) (hand p)]>
          (hand <$> players g) ∧
    exposedMelds <$> players g'
      = <[t := <[m := old ++ (jsAt (hand p) <$> cardIndices)]> (exposedMelds tp)]>
          (exposedMelds <$> players g) ∧
    isSapawed <$> players g' = <[t := true]> (isSapawed <$> players g) ∧
    seatId <$> players g' = seatId <$> players g ∧
    score <$> players g' = score <$> players g ∧
    turnsPlayed <$> players g' = turnsPlayed <$> players g ∧
    deck g' = deck g ∧
    discardPile g' = discardPile g ∧
    currentPlayerIndex g' = currentPlayerIndex g ∧
    hasDrawnThisTurn g' = hasDrawnThisTurn g ∧
    gameEnded g' = gameEnded g.
Proof.
  intros Hp Htp Hold Hnd Hv. unfold handleSapaw.
  rewrite Hp, namedCards_Some, jsAt_nat, Htp. cbv beta iota.
  rewrite jsAt_nat, Hold, Hv. cbn [negb].
  rewrite !Nat2Z.id.
  assert (Hnn : Forall (λ i, (0 ≤ i)%Z) cardIndices).
  { apply (valid_indices_nonneg (hand p) cardIndices old []).
    by rewrite app_nil_r. }
  destruct (spliceAll_spec (hand p) cardIndices Hnd Hnn) as [Hsp _].
  set (cards := jsAt (hand p) <$> cardIndices) in *.
  set (f1 := λ q : Player,
         P.withExposedMelds (<[m := old ++ cards]> (exposedMelds q)) q).
  set (f2 := λ q : Player, P.withHand (spliceAll (hand q) cardIndices) q).
  eexists. split; [reflexivity|].
  cbn [players deck discardPile currentPlayerIndex hasDrawnThisTurn gameEnded
       G.withSelectedCardIndices G.withPlayers].
  destruct (lookup_alter_hand (players g) f1 t _ p Hp) as (q & Hq & Hhand);
    [done|].
  repeat split.
  - rewrite (fmap_alter_same hand) by done.
    rewrite (fmap_alter_field hand f2 (λ h, spliceAll h cardIndices) _ _ q);
      [|done|done].
    rewrite (fmap_alter_same hand) by done. by rewrite Hhand, Hsp.
  - rewrite (fmap_alter_same exposedMelds) by done.
    rewrite (fmap_alter_same exposedMelds) by done.
    by rewrite (fmap_alter_field exposedMelds f1
                  (λ ms, <[m := old ++ cards]> ms) _ _ tp).
  - assert (Htp3 : ∃ q3, alter f2 (currentPlayerIndex g)
                           (alter f1 t (players g)) !! t = Some q3 ∧
                         isSapawed q3 = isSapawed tp).
    { destruct (decide (currentPlayerIndex g = t)) as [->|Hne].
      - exists (f2 (f1 tp)).
        by rewrite !list_lookup_alter_eq, Htp.
      - exists (f1 tp).
        by rewrite list_lookup_alter_ne, list_lookup_alter_eq, Htp. }
    destruct Htp3 as (q3 & Hq3 & Hflag).
    rewrite (fmap_alter_field isSapawed (P.withIsSapawed true) (λ _, true)
               _ _ q3); [|done|done].
    rewrite !(fmap_alter_same isSapawed) by done. done.
  - by rewrite !(fmap_alter_same seatId).
  - by rewrite !(fmap_alter_same score).
  - by rewrite !(fmap_alter_same turnsPlayed).
Qed.

Lemma X16_witness :
  ∃ g',
    handleSapaw (step fixedGame (ev 0 (meld [0; 1; 2]%Z)))
      (Z.of_nat 0) (Z.of_nat 0) [0%Z] = Done g' ∧
    hand <$> players g'
      = <[currentPlayerIndex (step fixedGame (ev 0 (meld [0; 1; 2]%Z))) :=
            withoutPositions (Z.to_nat <$> [0%Z])
              (hand (seatOf (step fixedGame (ev 0 (meld [0; 1; 2]%Z))) 0))]>
          (hand <$> players (step fixedGame (ev 0 (meld [0; 1; 2]%Z)))) ∧
    exposedMelds <$> players g'
      = <[0 := <[0 := [Some (mkCard 39 spades rA); Some (mkCard 40 spades r2);
                       Some (mkCard 41 spades r3)] ++
                      (jsAt (hand (seatOf (step fixedGame (ev 0 (meld [0; 1; 2]%Z))) 0))
                         <$> [0%Z])]>
                 (exposedMelds (seatOf (step fixedGame (ev 0 (meld [0; 1; 2]%Z))) 0))]>
          (exposedMelds <$> players (step fixedGame (ev 0 (meld [0; 1; 2]%Z)))) ∧
    isSapawed <$> players g'
      = <[0 := true]> (isSapawed <$> players (step fixedGame (ev 0 (meld [0; 1; 2]%Z)))) ∧
    seatId <$> players g' = seatId <$> players (step fixedGame (ev 0 (meld [0; 1; 2]%Z))) ∧
    score <$> players g' = score <$> players (step fixedGame (ev 0 (meld [0; 1; 2]%Z))) ∧
    turnsPlayed <$> players g'
      = turnsPlayed <$> players (step fixedGame (ev 0 (meld [0; 1; 2]%Z))) ∧
    deck g' = deck (step fixedGame (ev 0 (meld [0; 1; 2]%Z))) ∧
    discardPile g' = discardPile (step fixedGame (ev 0 (meld [0; 1; 2]%Z))) ∧
    currentPlayerIndex g' = currentPlayerIndex (step fixedGame (ev 0 (meld [0; 1; 2]%Z))) ∧
    hasDrawnThisTurn g' = hasDrawnThisTurn (step fixedGame (ev 0 (meld [0; 1; 2]%Z))) ∧
    gameEnded g' = gameEnded (step fixedGame (ev 0 (meld [0; 1; 2]%Z))).
Proof.
  apply (X16_handleSapaw_lays_off (step fixedGame (ev 0 (meld [0; 1; 2]%Z)))
           (seatOf (step fixedGame (ev 0 (meld [0; 1; 2]%Z))) 0)
           (seatOf (step fixedGame (ev 0 (meld [0; 1; 2]%Z))) 0) 0 0
           [Some (mkCard 39 spades rA); Some (mkCard 40 spades r2);
            Some (mkCard 41 spades r3)] [0%Z]).
  - vm_compute. reflexivity.
  - vm_compute. reflexivity.
  - vm_compute. reflexivity.
  - apply NoDup_singleton.
  - vm_compute. reflexivity.
Defined.

(** X17. An accepted meld that leaves cards in the hand: when the player in
    turn names pairwise distinct cards that validate, fewer than the hand
    holds, they leave the hand and are exposed as a new meld, the last of
    the player's melds. The round goes on: the turn, [hasDrawnThisTurn],
    the deck, the discard pile, the scores and [gameEnded] are as before;
    a meld asks for no draw and does not pass the turn. *)
Theorem X17_handleMeld_exposes (g : Game) (p : Player) (cardIndices : list Z) :
  players g !! currentPlayerIndex g = Some p →
  NoDup cardIndices →
  isValidMeld (jsAt (hand p) <$> cardIndices) = true →
  length cardIndices < length (hand p) →
  ∃ g',
    handleMeld g cardIndices = Done g' ∧
    hand <$> players g'
      = <[currentPlayerIndex g :=
            withoutPositions (Z.to_nat <$> cardIndices) (hand p)]>
          (hand <$> players g) ∧
    exposedMelds <$> players g'
      = <[currentPlayerIndex g :=
            exposedMelds p ++ [jsAt (hand p) <$> cardIndices]]>
          (exposedMelds <$> players g) ∧
    length (withoutPositions (Z.to_nat <$> cardIndices) (hand p))
      = length (hand p) - length cardIndices ∧
    seatId <$> players g' = seatId <$> players g ∧
    score <$> players g' = score <$> players g ∧
    consecutiveWins <$> players g' = consecutiveWins <$> players g ∧
    isSapawed <$> players g' = isSapawed <$> players g ∧
    deck g' = deck g ∧
    discardPile g' = discardPile g ∧
    currentPlayerIndex g' = currentPlayerIndex g ∧
    hasDrawnThisTurn g' = hasDrawnThisTurn g ∧
    gameEnded g' = gameEnded g ∧
    winner g' = winner g.
Proof.
  intros Hp Hnd Hv Hlen. unfold handleMeld.
  rewrite Hp, namedCards_Some, Hv. cbn [negb].
  assert (Hnn : Forall (λ i, (0 ≤ i)%Z) cardIndices).
  { apply (valid_indices_nonneg (hand p) cardIndices [] []).
    by rewrite app_nil_r. }
  destruct (spliceAll_spec (hand p) cardIndices Hnd Hnn) as [Hsp Hsplit].
  destruct (isValidMeld_defined _ Hv) as [cs Hcs].
  assert (Hl : length (hand p)
               = length cardIndices + length (spliceAll (hand p) cardIndices)).
  { rewrite Hsplit at 1. rewrite length_app. f_equal.
    rewrite Hcs. unfold defined.
    rewrite <- (length_fmap (jsAt (hand p)) cardIndices), Hcs, length_fmap.
    clear. induction cs as [|c cs IH]; csimpl; [done|]. by rewrite IH. }
  destruct (Nat.eqb_spec (length (spliceAll (hand p) cardIndices)) 0) as [H0|_];
    [lia|].
  eexists. split; [reflexivity|].
  cbn [players deck discardPile currentPlayerIndex hasDrawnThisTurn gameEnded
       winner G.withSelectedCardIndices G.withPlayers].
  rewrite <- Hsp.
  repeat split; try (by eapply fmap_insert_same); try lia.
  - rewrite list_fmap_insert. done.
  - rewrite list_fmap_insert. done.
Qed.

Lemma X17_witness :
  ∃ g',
    handleMeld fixedGame [0; 1; 2]%Z = Done g' ∧
    hand <$> players g'
      = <[currentPlayerIndex fixedGame :=
            withoutPositions (Z.to_nat <$> [0; 1; 2]%Z) (hand (seatOf fixedGame 0))]>
          (hand <$> players fixedGame) ∧
    exposedMelds <$> players g'
      = <[currentPlayerIndex fixedGame :=
            exposedMelds (seatOf fixedGame 0) ++
            [jsAt (hand (seatOf fixedGame 0)) <$> [0; 1; 2]%Z]]>
          (exposedMelds <$> players fixedGame) ∧
    length (withoutPositions (Z.to_nat <$> [0; 1; 2]%Z) (hand (seatOf fixedGame 0)))
      = length (hand (seatOf fixedGame 0)) - length [0; 1; 2]%Z ∧
    seatId <$> players g' = seatId <$> players fixedGame ∧
    score <$> players g' = score <$> players fixedGame ∧
    consecutiveWins <$> players g' = consecutiveWins <$> players fixedGame ∧
    isSapawed <$> players g' = isSapawed <$> players fixedGame ∧
    deck g' = deck fixedGame ∧
    discardPile g' = discardPile fixedGame ∧
    currentPlayerIndex g' = currentPlayerIndex fixedGame ∧
    hasDrawnThisTurn g' = hasDrawnThisTurn fixedGame ∧
    gameEnded g' = gameEnded fixedGame ∧
    winner g' = winner fixedGame.
Proof.
  apply (X17_handleMeld_exposes fixedGame (seatOf fixedGame 0) [0; 1; 2]%Z).
  - vm_compute. reflexivity.
  - apply (bool_decide_unpack _). vm_compute. exact I.
  - vm_compute. reflexivity.
  - vm_compute. lia.
Defined.


(** ** The indices returned by [canFormMeldWithCard] *)

Lemma rankMatches_elem (card : Card) (h : nat → nat) (l : list Card) (z : Z) :
  z ∈ omap (λ ic : nat * Card,
              if bool_decide (rank ic.2 = rank card)
              then Some (Z.of_nat ic.1) else None)
           (imap (λ i c, (h i, c)) l) →
  ∃ k c, z = Z.of_nat (h k) ∧ l !! k = Some c ∧ rank c = rank card.
Proof.
  intros ([k c] & Hin & Hsome)%list_elem_of_omap.
  apply elem_of_lookup_imap in Hin as (k' & c' & [= -> ->] & Hk).
  simpl in Hsome. case_bool_decide; [|done]. injection Hsome as <-.
  by exists k', c'.
Qed.

Lemma rankMatches_NoDup (card : Card) (h : nat → nat) (l : list Card) :
  (∀ i j, h i = h j → i = j) →
  NoDup (omap (λ ic : nat * Card,
                 if bool_decide (rank ic.2 = rank card)
                 then Some (Z.of_nat ic.1) else None)
              (imap (λ i c, (h i, c)) l)).
Proof.
  revert h. induction l as [|c l IH]; intros h Hinj; [constructor|].
  rewrite imap_cons. csimpl.
  assert (Htail : NoDup (omap (λ ic : nat * Card,
                    if bool_decide (rank ic.2 = rank card)
                    then Some (Z.of_nat ic.1) else None)
                  (imap (λ i c, ((h ∘ S) i, c)) l))).
  { apply IH. intros i j Hij. apply Hinj in Hij. lia. }
  case_bool_decide; [|done]. constructor; [|done].
  intros (k & c' & Hk & _)%rankMatches_elem. unfold compose in Hk.
  apply Nat2Z.inj, Hinj in Hk. lia.
Qed.

Lemma findIndex_coherent (x : Card) (l : list Card) :
  coherent l → x ∈ l → ∃ a, findIndex x l = Z.of_nat a ∧ l !! a = Some x.
Proof.
  intros Hco Hx.
  destruct (indexOfFrom_found x l 0) as (l1 & e & l2 & Hl & He & Hidx & _).
  { exists x. split; [done|]. by apply sameObject_eq. }
  exists (length l1). unfold findIndex, indexOf. rewrite Hidx. split; [lia|].
  apply sameObject_eq in He.
  assert (e = x) as ->.
  { apply Hco; [|done|done]. rewrite Hl, elem_of_app. right. left. }
  rewrite Hl. by apply list_lookup_middle.
Qed.

Lemma canFormMeldWithCard_indices (card : Card) (playerHand : list Card)
    (indices : list Z) :
  NoDup (uid <$> playerHand) →
  canFormMeldWithCard card playerHand = (true, indices) →
  ∃ a b ca cb,
    indices = [Z.of_nat a; Z.of_nat b] ∧ a ≠ b ∧
    playerHand !! a = Some ca ∧ playerHand !! b = Some cb ∧
    isValidMeld [Some ca; Some cb; Some card] = true.
Proof.
  intros Hnd. unfold canFormMeldWithCard.
  destruct (Nat.leb_spec 2 (length (filter (λ c, rank c = rank card) playerHand)))
    as [Hrank|Hrank].
  - rewrite rankMatches_as_omap, app_nil_l. intros [= <-].
    pose proof (rankMatches_length card (λ i, i) playerHand) as Hl.
    pose proof (rankMatches_NoDup card (λ i, i) playerHand) as Hnd'.
    pose proof (rankMatches_elem card (λ i, i) playerHand) as Hel.
    destruct (omap _ _) as [|z1 [|z2 rest]]; simpl in Hl; try lia.
    destruct (Hel z1) as (a & ca & -> & Ha & Hra); [left|].
    destruct (Hel z2) as (b & cb & -> & Hb & Hrb); [right; left|].
    exists a, b, ca, cb. split; [done|]. split.
    + intros ->. specialize (Hnd' ltac:(done)).
      apply NoDup_cons in Hnd' as [Hnotin _]. apply Hnotin. left.
    + split; [done|]. split; [done|].
      unfold isValidMeld, isThreeOfAKind. simpl.
      by rewrite Hrb, Hra, !bool_decide_true.
  - set (sameSuitCards := filter (λ c, suit c = suit card) playerHand).
    destruct (firstSome _ _) as [idx|] eqn:Eloop; [|done].
    intros [= <-].
    apply firstSome_Some_inv in Eloop as (l0 & i & l0' & Hi & Hsome & _).
    apply firstSome_Some_inv in Hsome as (l1 & j & l2 & Hj & Hsome & _).
    assert (Hj' : j ∈ range (i + 1) (length sameSuitCards))
      by (rewrite Hj, elem_of_app; right; left).
    apply elem_of_seq in Hj'.
    destruct (sameSuitCards !! i) as [ci|] eqn:Ei; [|done].
    destruct (sameSuitCards !! j) as [cj|] eqn:Ej; [|done].
    destruct (isValidMeld [Some card; Some ci; Some cj]) eqn:Ev; [|done].
    injection Hsome as <-.
    assert (Hco : coherent playerHand) by (by apply coherent_NoDup).
    assert (Hci : ci ∈ playerHand).
    { apply list_elem_of_lookup_2 in Ei. by apply list_elem_of_filter in Ei as [_ ?]. }
    assert (Hcj : cj ∈ playerHand).
    { apply list_elem_of_lookup_2 in Ej. by apply list_elem_of_filter in Ej as [_ ?]. }
    destruct (findIndex_coherent ci playerHand Hco Hci) as (a & -> & Ha).
    destruct (findIndex_coherent cj playerHand Hco Hcj) as (b & -> & Hb).
    exists a, b, ci, cj. split; [done|]. split.
    + intros ->. assert (ci = cj) as -> by congruence.
      assert (i = j); [|lia].
      apply (NoDup_lookup sameSuitCards i j cj); [|done|done].
      apply NoDup_filter. by eapply NoDup_fmap_1.
    + split; [done|]. split; [done|].
      rewrite <- Ev. apply (isValidMeld_perm [ci; cj; card] [card; ci; cj]).
      by rewrite (Permutation_app_comm [ci; cj] [card]).
Qed.

(** X18. The indices that [canFormMeldWithCard] returns. When it answers
    that the card can be melded with a hand of distinct cards, the indices are
    two different positions of the hand, and the two cards there make with the
    card a meld that [isValidMeld] accepts, also in the order in which a
    caller lists them, the two hand cards first. When it answers that the
    card cannot be melded, the indices are empty. *)
Theorem X18_canFormMeldWithCard_indices_valid (card : Card)
    (playerHand : list Card) :
  NoDup (uid <$> playerHand) →
  ((canFormMeldWithCard card playerHand).1 = true →
   ∃ a b ca cb,
     (canFormMeldWithCard card playerHand).2 = [Z.of_nat a; Z.of_nat b] ∧
     a ≠ b ∧
     playerHand !! a = Some ca ∧ playerHand !! b = Some cb ∧
     isValidMeld [Some ca; Some cb; Some card] = true ∧
     isValidMeld
       ((jsAt playerHand <$> (canFormMeldWithCard card playerHand).2)
          ++ [Some card]) = true) ∧
  ((canFormMeldWithCard card playerHand).1 = false →
   (canFormMeldWithCard card playerHand).2 = []).
Proof.
  intros Hnd. split.
  - intros Hcan.
    destruct (canFormMeldWithCard card playerHand) as [canMeld indices] eqn:E.
    simpl in Hcan. subst canMeld.
    destruct (canFormMeldWithCard_indices _ _ _ Hnd E)
      as (a & b & ca & cb & -> & Hab & Ha & Hb & Hv).
    exists a, b, ca, cb. cbn [snd]. repeat split; try done.
    csimpl. by rewrite !jsAt_nat, Ha, Hb.
  - unfold canFormMeldWithCard.
    destruct (2 <=? _); [done|]. by destruct (firstSome _ _).
Qed.

Lemma X18_witness :
  ∃ a b ca cb,
    (canFormMeldWithCard (mkCard 47 spades r9)
       (hand (seatOf afterFirstDiscard 1))).2 = [Z.of_nat a; Z.of_nat b] ∧
    a ≠ b ∧
    hand (seatOf afterFirstDiscard 1) !! a = Some ca ∧
    hand (seatOf afterFirstDiscard 1) !! b = Some cb ∧
    isValidMeld [Some ca; Some cb; Some (mkCard 47 spades r9)] = true ∧
    isValidMeld
      ((jsAt (hand (seatOf afterFirstDiscard 1)) <$>
          (canFormMeldWithCard (mkCard 47 spades r9)
             (hand (seatOf afterFirstDiscard 1))).2)
         ++ [Some (mkCard 47 spades r9)]) = true.
Proof.
  apply (X18_canFormMeldWithCard_indices_valid (mkCard 47 spades r9)
           (hand (seatOf afterFirstDiscard 1))).
  - apply (bool_decide_unpack _). vm_compute. exact I.
  - vm_compute. reflexivity.
Defined.


(** ** The connection handlers *)

Lemma joinGame_gameId g socketId playerName :
  gameId (joinGame g socketId playerName) = gameId g.
Proof. unfold joinGame. by destruct (_ && _). Qed.

Lemma joinGame_players g socketId playerName :
  players (joinGame g socketId playerName)
  = players g ++ [mkPlayer socketId playerName (length (players g) + 1)
                    [] [] [] 0 0 false 0 0 false].
Proof. unfold joinGame. by destruct (_ && _). Qed.

Lemma handleNextGame_gameId rand g :
  gameId (stateOf (handleNextGame rand g)) = gameId g.
Proof.
  unfold handleNextGame.
  destruct (dealCards _ _ _) as [hands remainingDeck].
  destruct (dealtPlayers _ _ _ _) as [ps deck']. by destruct ps.
Qed.

Lemma onPlayerAction_gameId rand g playerIndex a :
  gameId (stateOf (onPlayerAction rand g playerIndex a)) = gameId g.
Proof.
  unfold onPlayerAction.
  destruct (negb (playerIndex =? currentPlayerIndex g)); [done|].
  destruct a; cbn [handlePlayerAction]; try done.
  - unfold handleDraw. by repeat (case_match; try done).
  - unfold handleDiscard.
    destruct (negb (hasDrawnThisTurn g) && _); [by destruct (_ && _)|].
    destruct (players g !! currentPlayerIndex g); [|done].
    destruct (splice1 _ _). by destruct (_ && _).
  - unfold handleMeld, handleTongits. by repeat (case_match; try done).
  - unfold handleSapaw. by repeat (case_match; try done).
  - unfold handleCallDraw. by repeat (case_match; try done).
  - unfold handleAutoSort. by repeat (case_match; try done).
  - unfold handleShuffle. by repeat (case_match; try done).
  - apply handleNextGame_gameId.
  - unfold handleResetGame. by rewrite handleNextGame_gameId.
Qed.

Lemma onPlayerAction_players_length rand g playerIndex a :
  length (players (stateOf (onPlayerAction rand g playerIndex a)))
  = length (players g).
Proof.
  by rewrite <- (length_fmap seatId), onPlayerAction_seats, length_fmap.
Qed.

Lemma mapSet_elem (game g : Game) (games : Games) :
  g ∈ mapSet game games → g = game ∨ g ∈ games.
Proof.
  induction games as [|g0 games IH]; simpl.
  - intros ->%list_elem_of_singleton. by left.
  - destruct (String.eqb (gameId g0) (gameId game)).
    + intros [->|?]%elem_of_cons; [by left|]. right. by right.
    + intros [->|?]%elem_of_cons; [right; by left|].
      destruct IH as [?|?]; [done|by left|]. right. by right.
Qed.

Lemma mapSet_ids (game : Game) (games : Games) :
  gameId <$> mapSet game games
  = if bool_decide (gameId game ∈ gameId <$> games) then gameId <$> games
    else (gameId <$> games) ++ [gameId game].
Proof.
  induction games as [|g0 games IH]; [done|]. csimpl.
  destruct (String.eqb_spec (gameId g0) (gameId game)) as [Heq|Hne].
  - rewrite bool_decide_true by (rewrite Heq; left). csimpl. by rewrite Heq.
  - csimpl. rewrite IH.
    assert (Hiff : gameId game ∈ gameId g0 :: (gameId <$> games)
                   ↔ gameId game ∈ gameId <$> games).
    { rewrite elem_of_cons. split; [intros [?|?]; [congruence|done]|by right]. }
    rewrite (bool_decide_ext _ _ Hiff). by case_bool_decide.
Qed.

Lemma mapSet_NoDup (game : Game) (games : Games) :
  NoDup (gameId <$> games) → NoDup (gameId <$> mapSet game games).
Proof.
  intros Hnd. rewrite mapSet_ids. case_bool_decide; [done|].
  apply NoDup_app. split; [done|]. split; [|apply NoDup_singleton].
  intros x Hx ->%list_elem_of_singleton. done.
Qed.

Lemma insert_same_id (games : Games) (i : nat) (g g' : Game) :
  games !! i = Some g → gameId g' = gameId g →
  gameId <$> <[i := g']> games = gameId <$> games.
Proof.
  intros Hi Hid. rewrite list_fmap_insert, Hid. apply list_insert_id.
  by rewrite list_lookup_fmap, Hi.
Qed.

Lemma findSeat_Some (socketId : string) (g : Game) (s : nat) :
  findSeat socketId g = Some s →
  ∃ p, players g !! s = Some p ∧ playerId p = socketId ∧
       ∀ k q, players g !! k = Some q → k < s → playerId q ≠ socketId.
Proof.
  unfold findSeat. destruct (list_find _ _) as [[s' p]|] eqn:E; [|done].
  intros [= <-]. apply list_find_Some in E as (? & ? & ?). by exists p.
Qed.

Lemma registryOk_insert (games : Games) (i : nat) (g g' : Game) :
  registryOk games → games !! i = Some g → gameId g' = gameId g →
  1 ≤ length (players g') ≤ PLAYERS_REQUIRED →
  registryOk (<[i := g']> games).
Proof.
  intros [Hnd Hall] Hi Hid Hlen. split.
  - by rewrite (insert_same_id _ _ g).
  - by apply Forall_insert.
Qed.

(** X19. The three connection handlers keep the Map of the sessions well
    formed: after a join, a player action or a disconnect, every game of
    the Map still has at least one player and never more than three, under
    pairwise distinct keys. In particular a game is not left in the Map
    without players, and a fourth player is never seated. *)
Theorem X19_registry_stays_well_formed (games : Games) :
  registryOk games →
  (∀ now socketId playerName,
     registryOk (onJoinGame now games socketId playerName)) ∧
  (∀ rand socketId action,
     registryOk (onPlayerActionMsg rand games socketId action)) ∧
  (∀ socketId, registryOk (onDisconnect games socketId)).
Proof.
  intros Hok. split; [|split].
  - intros now socketId playerName. unfold onJoinGame.
    destruct (list_find _ games) as [[i g]|] eqn:E.
    + apply list_find_Some in E as (Hi & Hlt & _).
      apply (registryOk_insert _ _ g); [done|done|apply joinGame_gameId|].
      rewrite joinGame_players, length_app. simpl.
      unfold PLAYERS_REQUIRED in *. lia.
    + destruct Hok as [Hnd Hall]. split; [by apply mapSet_NoDup|].
      apply Forall_forall. intros g [->|Hg]%mapSet_elem.
      * rewrite joinGame_players. simpl. unfold PLAYERS_REQUIRED. lia.
      * rewrite Forall_forall in Hall. by apply Hall.
  - intros rand socketId action. unfold onPlayerActionMsg.
    destruct (list_find _ games) as [[i g]|] eqn:E; [|done].
    destruct (findSeat socketId g) as [playerIndex|]; [|done].
    apply list_find_Some in E as (Hi & _ & _).
    apply (registryOk_insert _ _ g); [done|done|apply onPlayerAction_gameId|].
    rewrite onPlayerAction_players_length.
    destruct Hok as [_ Hall]. rewrite Forall_forall in Hall.
    apply Hall. by eapply list_elem_of_lookup_2.
  - intros socketId. unfold onDisconnect.
    destruct (list_find _ games) as [[i g]|] eqn:E; [|done].
    destruct (findSeat socketId g) as [s|] eqn:Es; [|done].
    apply list_find_Some in E as (Hi & _ & _).
    apply findSeat_Some in Es as (p & Hp & _).
    assert (Hg : 1 ≤ length (players g) ≤ PLAYERS_REQUIRED).
    { destruct Hok as [_ Hall]. rewrite Forall_forall in Hall.
      apply Hall. by eapply list_elem_of_lookup_2. }
    cbn [leave players G.withPlayers G.withWinner].
    assert (Hl : length (delete s (players g)) = length (players g) - 1).
    { apply length_delete. by eexists. }
    destruct (Nat.eqb_spec (length (delete s (players g))) 0) as [H0|H0].
    + destruct Hok as [Hnd Hall]. unfold mapDelete. split.
      * clear -Hnd. induction games as [|g0 games IH]; [constructor|].
        csimpl in *. apply NoDup_cons in Hnd as [Hnotin Hnd].
        rewrite filter_cons. case_decide; [|by apply IH].
        csimpl. apply NoDup_cons. split; [|by apply IH].
        intros (g1 & Heq & Hin)%list_elem_of_fmap.
        apply list_elem_of_filter in Hin as [_ Hin].
        apply Hnotin. rewrite Heq. by apply list_elem_of_fmap_2.
      * rewrite Forall_forall in *. intros g1 [_ Hin]%list_elem_of_filter.
        by apply Hall.
    + apply (registryOk_insert _ _ g); [done|done|done|].
      cbn [leave players G.withPlayers G.withWinner]. lia.
Qed.

Lemma X19_witness :
  (∀ now socketId playerName,
     registryOk (onJoinGame now [fixedGame] socketId playerName)) ∧
  (∀ rand socketId action,
     registryOk (onPlayerActionMsg rand [fixedGame] socketId action)) ∧
  (∀ socketId, registryOk (onDisconnect [fixedGame] socketId)).
Proof.
  apply (X19_registry_stays_well_formed [fixedGame]).
  split.
  - apply NoDup_singleton.
  - constructor; [|constructor]. vm_compute. lia.
Defined.

Lemma findSeat_lt (socketId : string) (g : Game) (s : nat) :
  findSeat socketId g = Some s → s < length (players g).
Proof.
  intros (p & Hp & _)%findSeat_Some. by eapply lookup_lt_Some.
Qed.

Lemma onDisconnect_found (games : Games) (socketId : string) (i : nat) (g : Game) :
  list_find (λ g, is_Some (findSeat socketId g)) games = Some (i, g) →
  1 < length (players g) →
  ∃ s p,
    findSeat socketId g = Some s ∧ players g !! s = Some p ∧
    playerId p = socketId ∧
    onDisconnect games socketId = <[i := leave s g]> games.
Proof.
  intros Hfind Hlen. unfold onDisconnect. rewrite Hfind.
  apply list_find_Some in Hfind as (Hi & [s Hs] & _).
  rewrite Hs. destruct (findSeat_Some _ _ _ Hs) as (p & Hp & Hid & _).
  exists s, p. repeat split; try done.
  cbn [leave players G.withPlayers G.withWinner].
  assert (Hl : length (delete s (players g)) = length (players g) - 1).
  { apply length_delete. by eexists. }
  by destruct (Nat.eqb_spec (length (delete s (players g))) 0); [lia|].
Qed.

(** X20. A player who disconnects from a game that keeps other players is
    removed from the seat list, and nothing else of the game is adjusted:
    the seats behind move up by one while [currentPlayerIndex] keeps its
    value, and the cards the player held (hand and melds) are no longer on
    the table, deck and discard pile staying as they were. *)
Theorem X20_disconnect_removes_seat_only (games : Games) (socketId : string)
    (i : nat) (g : Game) :
  list_find (λ g, is_Some (findSeat socketId g)) games = Some (i, g) →
  1 < length (players g) →
  ∃ s p g',
    findSeat socketId g = Some s ∧ players g !! s = Some p ∧
    playerId p = socketId ∧
    onDisconnect games socketId = <[i := g']> games ∧
    players g' = delete s (players g) ∧
    (∀ k, k < s → players g' !! k = players g !! k) ∧
    (∀ k, s ≤ k → players g' !! k = players g !! S k) ∧
    currentPlayerIndex g' = currentPlayerIndex g ∧
    hasDrawnThisTurn g' = hasDrawnThisTurn g ∧
    gameStarted g' = gameStarted g ∧
    gameEnded g' = gameEnded g ∧
    deck g' = deck g ∧
    discardPile g' = discardPile g ∧
    tableCards g ≡ₚ playerCards p ++ tableCards g'.
Proof.
  intros Hfind Hlen.
  destruct (onDisconnect_found _ _ _ _ Hfind Hlen) as (s & p & Hs & Hp & Hid & Hd).
  exists s, p, (leave s g).
  repeat split; try done.
  - intros k Hk. cbn. by apply list_lookup_delete_lt.
  - intros k Hk. cbn. by apply list_lookup_delete_ge.
  - unfold tableCards. cbn [leave deck discardPile players G.withPlayers G.withWinner].
    rewrite (delete_Permutation (players g) s p Hp) at 1. csimpl.
    solve_Permutation.
Qed.

Lemma X20_witness :
  ∃ s p g',
    findSeat "s1" fixedGame = Some s ∧ players fixedGame !! s = Some p ∧
    playerId p = "s1" ∧
    onDisconnect [fixedGame] "s1" = <[0 := g']> [fixedGame] ∧
    players g' = delete s (players fixedGame) ∧
    (∀ k, k < s → players g' !! k = players fixedGame !! k) ∧
    (∀ k, s ≤ k → players g' !! k = players fixedGame !! S k) ∧
    currentPlayerIndex g' = currentPlayerIndex fixedGame ∧
    hasDrawnThisTurn g' = hasDrawnThisTurn fixedGame ∧
    gameStarted g' = gameStarted fixedGame ∧
    gameEnded g' = gameEnded fixedGame ∧
    deck g' = deck fixedGame ∧
    discardPile g' = discardPile fixedGame ∧
    tableCards fixedGame ≡ₚ playerCards p ++ tableCards g'.
Proof.
  apply (X20_disconnect_removes_seat_only [fixedGame] "s1" 0 fixedGame).
  - vm_compute. reflexivity.
  - vm_compute. lia.
Defined.

(** X21. When a player leaves a game in which the last seat is in turn, the
    turn index points behind the seats that are left: no player is in
    turn, and every action of every socket leaves that game exactly as the
    disconnect left it. *)
Theorem X21_turn_lost_after_disconnect (games : Games) (socketId : string)
    (i : nat) (g : Game) :
  list_find (λ g, is_Some (findSeat socketId g)) games = Some (i, g) →
  1 < length (players g) →
  currentPlayerIndex g = length (players g) - 1 →
  ∃ g',
    onDisconnect games socketId !! i = Some g' ∧
    players g' !! currentPlayerIndex g' = None ∧
    ∀ rand sender action,
      onPlayerActionMsg rand (onDisconnect games socketId) sender action !! i
      = Some g'.
Proof.
  intros Hfind Hlen Hcur.
  destruct (onDisconnect_found _ _ _ _ Hfind Hlen) as (s & p & Hs & Hp & Hid & ->).
  set (g' := leave s g).
  assert (Hi : i < length games).
  { apply list_find_Some in Hfind as (Hi & _). by eapply lookup_lt_Some. }
  assert (Hl : length (players g') = length (players g) - 1).
  { unfold g'. cbn. apply length_delete. by eexists. }
  assert (Hg' : <[i := g']> games !! i = Some g')
    by (by apply list_lookup_insert_eq).
  exists g'. split; [done|]. split.
  - apply lookup_ge_None_2. rewrite Hl. unfold g'. cbn. lia.
  - intros rand sender action. unfold onPlayerActionMsg.
    destruct (list_find _ (<[i := g']> games)) as [[j gj]|] eqn:E; [|done].
    destruct (findSeat sender gj) as [playerIndex|] eqn:Eseat; [|done].
    apply list_find_Some in E as (Hj & _ & _).
    destruct (decide (j = i)) as [->|Hne].
    + assert (gj = g') as -> by congruence.
      apply findSeat_lt in Eseat.
      unfold onPlayerAction.
      destruct (Nat.eqb_spec playerIndex (currentPlayerIndex g')) as [Heq|_].
      { unfold g' in Heq, Eseat, Hl. cbn in Heq, Eseat, Hl. lia. }
      cbn [negb stateOf]. by rewrite list_insert_insert_eq.
    + by rewrite list_lookup_insert_ne.
Qed.

Lemma X21_witness :
  ∃ g',
    onDisconnect [lastSeatInTurn] "s0" !! 0 = Some g' ∧
    players g' !! currentPlayerIndex g' = None ∧
    ∀ rand sender action,
      onPlayerActionMsg rand (onDisconnect [lastSeatInTurn] "s0") sender action !! 0
      = Some g'.
Proof.
  apply (X21_turn_lost_after_disconnect [lastSeatInTurn] "s0" 0 lastSeatInTurn).
  - vm_compute. reflexivity.
  - vm_compute. lia.
  - vm_compute. reflexivity.
Defined.


Lemma mapSet_fresh (game : Game) (games : Games) :
  gameId game ∉ gameId <$> games → mapSet game games = games ++ [game].
Proof.
  induction games as [|g0 games IH]; [done|]. csimpl. intros Hnotin.
  apply not_elem_of_cons in Hnotin as [Hne Hnotin].
  destruct (String.eqb_spec (gameId g0) (gameId game)); [congruence|].
  by rewrite IH.
Qed.


Lemma joinGame_gameStarted g socketId playerName :
  gameStarted (joinGame g socketId playerName)
  = gameStarted g || (length (players g) + 1 =? 3).
Proof.
  unfold joinGame. cbn [players G.withPlayers]. rewrite length_app.
  cbn [length]. unfold PLAYERS_REQUIRED.
  destruct (length (players g) + 1 =? 3), (gameStarted g) eqn:E; cbn; by rewrite ?E.
Qed.

Lemma seatedInOrder_step (joins : list Join) (games : Games) (j : Join) :
  NoDup (joinNow <$> (joins ++ [j])) →
  seatedInOrder joins games →
  seatedInOrder (joins ++ [j])
    (onJoinGame (joinNow j) games (joinSocket j) (joinName j)).
Proof.
  intros Hnd [I1 I2]. set (n := length joins).
  assert (Hn : length (joins ++ [j]) = S n) by (rewrite length_app; simpl; lia).
  unfold onJoinGame.
  destruct (list_find _ games) as [[i g]|] eqn:E.
  - apply list_find_Some in E as (Hi & Hlt & _).
    destruct (I2 i g Hi) as (Hin & Hlen & Hst & j0 & Hj0 & Hid).
    fold n in Hin, Hlen. unfold PLAYERS_REQUIRED in Hlt.
    assert (Hs0 : n = 3 * i + length (players g)) by lia.
    assert (Hjoined : players (joinGame g (joinSocket j) (joinName j))
                      = players g ++ [joiner j (length (players g))])
      by apply joinGame_players.
    split.
    + intros m s j' Hs Hj'.
      apply lookup_app_Some in Hj' as [Hj'|[Hge Hj']].
      * destruct (I1 m s j' Hs Hj') as (g1 & Hg1 & Hp1).
        destruct (decide (m = i)) as [->|Hne].
        -- exists (joinGame g (joinSocket j) (joinName j)).
           rewrite list_lookup_insert_eq by (by eapply lookup_lt_Some).
           split; [done|]. rewrite Hjoined.
           assert (g1 = g) as -> by congruence.
           by apply lookup_app_l_Some.
        -- exists g1. by rewrite list_lookup_insert_ne.
      * fold n in Hge, Hj'.
        pose proof (lookup_lt_Some _ _ _ Hj') as Hlt'. simpl in Hlt'.
        assert (m = i ∧ s = length (players g)) as [-> ->] by lia.
        replace (3 * i + length (players g) - n) with 0 in Hj' by lia.
        injection Hj' as <-.
        exists (joinGame g (joinSocket j) (joinName j)).
        rewrite list_lookup_insert_eq by (by eapply lookup_lt_Some).
        split; [done|]. rewrite Hjoined. by apply list_lookup_middle.
    + intros m g1 Hg1. rewrite Hn.
      destruct (decide (m = i)) as [->|Hne].
      * rewrite list_lookup_insert_eq in Hg1 by (by eapply lookup_lt_Some).
        injection Hg1 as <-. split; [lia|].
        rewrite Hjoined, length_app. cbn [length]. split; [lia|]. split.
        -- rewrite joinGame_gameStarted, Hst.
           rewrite bool_decide_false by lia. cbn [orb].
           destruct (Nat.eqb_spec (length (players g) + 1) 3);
             by rewrite ?bool_decide_true, ?bool_decide_false by lia.
        -- exists j0. rewrite joinGame_gameId.
           split; [|done]. by apply lookup_app_l_Some.
      * rewrite list_lookup_insert_ne in Hg1 by done.
        destruct (I2 m g1 Hg1) as (Hin1 & Hlen1 & Hst1 & j1 & Hj1 & Hid1).
        fold n in Hin1, Hlen1.
        split; [lia|]. split; [lia|]. split; [done|].
        exists j1. split; [|done]. by apply lookup_app_l_Some.
  - apply list_find_None in E. rewrite Forall_forall in E.
    assert (Hfull : ∀ m g, games !! m = Some g → 3 * m + 3 ≤ n).
    { intros m g Hg. destruct (I2 m g Hg) as (? & Hlen & _). fold n in Hlen.
      assert (¬ length (players g) < PLAYERS_REQUIRED)
        by (apply E; by eapply list_elem_of_lookup_2).
      unfold PLAYERS_REQUIRED in *. lia. }
    assert (Hcount : n = 3 * length games).
    { destruct (decide (3 * length games < n)) as [Hlt|Hge].
      - destruct (lookup_lt_is_Some_2 joins (3 * length games + 0)) as [j' Hj'];
          [fold n; lia|].
        destruct (I1 (length games) 0 j') as (g & Hg & _); [lia|done|].
        apply lookup_lt_Some in Hg. lia.
      - destruct (decide (length games = 0)) as [H0|H0]; [lia|].
        destruct (lookup_lt_is_Some_2 games (length games - 1)) as [g Hg];
          [lia|].
        specialize (Hfull _ _ Hg). lia. }
    set (new := joinGame (newGame (joinNow j)) (joinSocket j) (joinName j)).
    assert (Hfresh : gameId new ∉ gameId <$> games).
    { unfold new. rewrite joinGame_gameId. cbn.
      intros (g & Heq & [m Hg]%list_elem_of_lookup)%list_elem_of_fmap.
      destruct (I2 m g Hg) as (_ & _ & _ & j0 & Hj0 & Hid).
      rewrite fmap_app in Hnd. apply NoDup_app in Hnd as (_ & Hnd & _).
      apply (Hnd (joinNow j0)).
      - apply list_elem_of_fmap_2. by eapply list_elem_of_lookup_2.
      - rewrite <- Hid, <- Heq. left. }
    rewrite (mapSet_fresh _ _ Hfresh).
    split.
    + intros m s j' Hs Hj'.
      apply lookup_app_Some in Hj' as [Hj'|[Hge Hj']].
      * destruct (I1 m s j' Hs Hj') as (g1 & Hg1 & Hp1).
        exists g1. split; [by apply lookup_app_l_Some|done].
      * fold n in Hge, Hj'.
        pose proof (lookup_lt_Some _ _ _ Hj') as Hlt'. simpl in Hlt'.
        assert (m = length games ∧ s = 0) as [-> ->] by lia.
        replace (3 * length games + 0 - n) with 0 in Hj' by lia.
        injection Hj' as <-.
        exists new. split; [by apply list_lookup_middle|done].
    + intros m g1 Hg1. rewrite Hn.
      apply lookup_app_Some in Hg1 as [Hg1|[Hge Hg1]].
      * destruct (I2 m g1 Hg1) as (Hin1 & Hlen1 & Hst1 & j1 & Hj1 & Hid1).
        fold n in Hin1, Hlen1. specialize (Hfull m g1 Hg1).
        split; [lia|]. split; [lia|]. split; [done|].
        exists j1. split; [|done]. by apply lookup_app_l_Some.
      * pose proof (lookup_lt_Some _ _ _ Hg1) as Hlt'. simpl in Hlt'.
        assert (m = length games) as -> by lia.
        rewrite Nat.sub_diag in Hg1. injection Hg1 as <-.
        split; [lia|]. split.
        { unfold new. rewrite joinGame_players.
          cbn [newGame players length app]. lia. }
        split; [done|].
        exists j. split; [|by unfold new; rewrite joinGame_gameId].
        rewrite lookup_app_r by (fold n; lia).
        fold n. by replace (3 * length games - n) with 0 by lia.
Qed.

Lemma joinAll_seatedInOrder (joins : list Join) :
  NoDup (joinNow <$> joins) → seatedInOrder joins (joinAll [] joins).
Proof.
  induction joins as [|j joins IH] using rev_ind; intros Hnd.
  - split; [by intros m s j _ ?|by intros m g ?].
  - unfold joinAll. rewrite foldl_app. cbn [foldl].
    apply seatedInOrder_step; [done|]. apply IH.
    rewrite fmap_app in Hnd. by apply NoDup_app in Hnd as [? _].
Qed.

(** X22. Joins fill tables of three in the order of arrival: when games
    are created at pairwise distinct times and nothing but joins is
    handled, the join number [3 * m + s] (counting from 0, [s < 3]) is
    seated at seat [s] of the [m]-th game of the Map with player number
    [s + 1], an empty hand and no melds; every game but the last one is
    full, and a game is marked as started exactly when its third player
    has joined. *)
Theorem X22_joins_fill_tables_in_order (joins : list Join) :
  NoDup (joinNow <$> joins) →
  (∀ m s j, s < 3 → joins !! (3 * m + s) = Some j →
     ∃ g, joinAll [] joins !! m = Some g ∧
          players g !! s = Some (joiner j s)) ∧
  (∀ m g, joinAll [] joins !! m = Some g →
     3 * m < length joins ∧
     length (players g) = Nat.min 3 (length joins - 3 * m) ∧
     gameStarted g = bool_decide (length (players g) = 3) ∧
     ∃ j0, joins !! (3 * m) = Some j0 ∧ gameId g = joinNow j0).
Proof. apply joinAll_seatedInOrder. Qed.

Lemma X22_witness :
  (∀ m s j, s < 3 →
     [mkJoin "1" "s0" "ann"; mkJoin "2" "s1" "ben"; mkJoin "3" "s2" "cy";
      mkJoin "4" "s3" "dee"] !! (3 * m + s) = Some j →
     ∃ g, joinAll [] [mkJoin "1" "s0" "ann"; mkJoin "2" "s1" "ben";
                     mkJoin "3" "s2" "cy"; mkJoin "4" "s3" "dee"] !! m = Some g ∧
          players g !! s = Some (joiner j s)) ∧
  (∀ m g, joinAll [] [mkJoin "1" "s0" "ann"; mkJoin "2" "s1" "ben";
                     mkJoin "3" "s2" "cy"; mkJoin "4" "s3" "dee"] !! m = Some g →
     3 * m < length [mkJoin "1" "s0" "ann"; mkJoin "2" "s1" "ben";
                     mkJoin "3" "s2" "cy"; mkJoin "4" "s3" "dee"] ∧
     length (players g)
       = Nat.min 3 (length [mkJoin "1" "s0" "ann"; mkJoin "2" "s1" "ben";
                            mkJoin "3" "s2" "cy"; mkJoin "4" "s3" "dee"] - 3 * m) ∧
     gameStarted g = bool_decide (length (players g) = 3) ∧
     ∃ j0, [mkJoin "1" "s0" "ann"; mkJoin "2" "s1" "ben"; mkJoin "3" "s2" "cy";
            mkJoin "4" "s3" "dee"] !! (3 * m) = Some j0 ∧
           gameId g = joinNow j0).
Proof.
  apply (X22_joins_fill_tables_in_order
           [mkJoin "1" "s0" "ann"; mkJoin "2" "s1" "ben"; mkJoin "3" "s2" "cy";
            mkJoin "4" "s3" "dee"]).
  apply (bool_decide_unpack _). vm_compute. exact I.
Defined.


(** ** Further behaviour of the handlers *)

(** X23. Within a round the discard pile only grows: whatever the action,
    other than the two round restarts, the pile before it is the beginning of
    the pile after it, and a draw leaves the pile as it is. A card once
    discarded is taken by nobody: asked for the discard pile when it holds an
    entry, a draw changes nothing in the session, whether it is out of turn,
    refused, or ended by the [ReferenceError]. *)
Theorem X23_discard_pile_only_grows (rand : nat → nat) (g : Game)
    (playerIndex : nat) (a : Action) :
  a ≠ nextGame → a ≠ resetGame →
  discardPile g `prefix_of`
    discardPile (stateOf (onPlayerAction rand g playerIndex a)) ∧
  (∀ fromDeck meldIndices, a = draw fromDeck meldIndices →
     discardPile (stateOf (onPlayerAction rand g playerIndex a))
       = discardPile g ∧
     (fromDeck = false → discardPile g ≠ [] →
      stateOf (onPlayerAction rand g playerIndex a) = g)).
Proof.
  intros Hn Hr. unfold onPlayerAction.
  destruct (negb (playerIndex =? currentPlayerIndex g)); [done|].
  destruct a; cbn [handlePlayerAction]; try done.
  - assert (Hpile :
      discardPile
        (stateOf (if (playerIndex =? 0) && negb (firstPlayerHasPlayed g)
                  then Done g else handleDraw g fromDeck meldIndices))
      = discardPile g).
    { destruct (_ && _); [done|]. unfold handleDraw.
      by repeat (case_match; try done). }
    split; [by rewrite Hpile|].
    intros fd mi [= <- <-]. split; [done|]. intros -> Hne.
    destruct (_ && _); [done|].
    destruct (hasDrawnThisTurn g) eqn:E.
    + by rewrite handleDraw_already_drawn.
    + by rewrite handleDraw_pile_raises.
  - split; [|done]. unfold handleDiscard.
    destruct (negb (hasDrawnThisTurn g) && _); [by destruct (_ && _)|].
    destruct (players g !! currentPlayerIndex g); [|done].
    destruct (splice1 _ _) as [removed hand'].
    destruct (_ && _); cbn; by eexists.
  - split; [|done]. unfold handleMeld, handleTongits.
    by repeat (case_match; try done).
  - split; [|done]. unfold handleSapaw. by repeat (case_match; try done).
  - split; [|done]. unfold handleCallDraw. by repeat (case_match; try done).
  - split; [|done]. unfold handleAutoSort. by repeat (case_match; try done).
  - split; [|done]. unfold handleShuffle. by repeat (case_match; try done).
Qed.

Lemma X23_witness :
  discardPile afterFirstDiscard `prefix_of`
    discardPile (stateOf (onPlayerAction fixedRand afterFirstDiscard 1
                            (draw false [0; 1]%Z))) ∧
  (∀ fromDeck meldIndices,
     draw false [0; 1]%Z = draw fromDeck meldIndices →
     discardPile (stateOf (onPlayerAction fixedRand afterFirstDiscard 1
                             (draw false [0; 1]%Z)))
       = discardPile afterFirstDiscard ∧
     (fromDeck = false → discardPile afterFirstDiscard ≠ [] →
      stateOf (onPlayerAction fixedRand afterFirstDiscard 1
                 (draw false [0; 1]%Z)) = afterFirstDiscard)).
Proof.
  apply (X23_discard_pile_only_grows fixedRand afterFirstDiscard 1
           (draw false [0; 1]%Z)); discriminate.
Defined.


(** X24. No handler reads [gameEnded] or [winner]: whatever they hold, an
    action is handled in the same way, with the same players, hands, melds,
    deck, discard pile and turn afterwards, and the same failure if any.
    Once a round has ended, drawing, discarding, melding and laying off go
    on as before, until [nextGame] or [resetGame] is sent. *)
Theorem X24_gameEnded_is_not_consulted (rand : nat → nat) (g : Game)
    (playerIndex : nat) (a : Action) (ended : bool) (w : option nat) :
  play (stateOf (onPlayerAction rand (G.withWinner w (G.withGameEnded ended g))
                   playerIndex a))
  = play (stateOf (onPlayerAction rand g playerIndex a)) ∧
  thrown (onPlayerAction rand (G.withWinner w (G.withGameEnded ended g))
            playerIndex a)
  = thrown (onPlayerAction rand g playerIndex a).
Proof.
  unfold onPlayerAction.
  cbn [currentPlayerIndex G.withWinner G.withGameEnded].
  destruct (negb (playerIndex =? currentPlayerIndex g)); [done|].
  destruct a; cbn [handlePlayerAction]; try done.
  - cbn [firstPlayerHasPlayed G.withWinner G.withGameEnded].
    destruct (_ && _); [done|]. unfold handleDraw.
    cbn [players deck discardPile currentPlayerIndex hasDrawnThisTurn
         G.withWinner G.withGameEnded].
    by repeat (case_match; try done).
  - unfold handleDiscard.
    cbn [players deck discardPile currentPlayerIndex hasDrawnThisTurn
         G.withWinner G.withGameEnded].
    destruct (negb (hasDrawnThisTurn g) && _).
    { cbn [firstPlayerHasPlayed G.withWinner G.withGameEnded].
      by destruct (_ && _). }
    destruct (players g !! currentPlayerIndex g); [|done].
    destruct (splice1 _ _). cbn. by destruct (_ && _).
  - unfold handleMeld, handleTongits.
    cbn [players deck discardPile currentPlayerIndex hasDrawnThisTurn
         G.withWinner G.withGameEnded G.withPlayers G.withSelectedCardIndices].
    by repeat (case_match; try done).
  - unfold handleSapaw.
    cbn [players deck discardPile currentPlayerIndex hasDrawnThisTurn
         G.withWinner G.withGameEnded].
    by repeat (case_match; try done).
  - unfold handleCallDraw.
    cbn [players deck discardPile currentPlayerIndex hasDrawnThisTurn
         G.withWinner G.withGameEnded].
    by repeat (case_match; try done).
  - unfold handleAutoSort.
    cbn [players G.withWinner G.withGameEnded].
    by repeat (case_match; try done).
  - unfold handleShuffle.
    cbn [players G.withWinner G.withGameEnded].
    by repeat (case_match; try done).
  - unfold handleNextGame.
    cbn [players round G.withWinner G.withGameEnded].
    destruct (dealCards _ _ _) as [hands remainingDeck].
    destruct (dealtPlayers _ _ _ _) as [ps deck']. by destruct ps.
  - unfold handleResetGame, handleNextGame.
    cbn [players round G.withWinner G.withGameEnded G.withPlayers G.withRound].
    destruct (dealCards _ _ _) as [hands remainingDeck].
    destruct (dealtPlayers _ _ _ _) as [ps deck']. by destruct ps.
Qed.

(** X25. [handleShuffle] rearranges the hand of the seat named and changes
    nothing else; the hands it can leave, over the outcomes of the random
    draws, are exactly the orderings of the cards held. On a seat that does
    not exist it raises a [TypeError]. *)
Theorem X25_handleShuffle_orderings (g : Game) (playerIndex : nat) :
  match players g !! playerIndex with
  | Some player =>
      ∀ shuffled,
        (∃ rand,
           handleShuffle rand g playerIndex
           = Done (G.withPlayers
                     (<[playerIndex := P.withHand shuffled player]> (players g)) g))
        ↔ shuffled ≡ₚ hand player
  | None => ∀ rand, handleShuffle rand g playerIndex = Thrown g
  end.
Proof.
  unfold handleShuffle.
  destruct (players g !! playerIndex) as [player|] eqn:Hp; [|done].
  intros shuffled. split.
  - intros [rand Heq]. injection Heq as Heq.
    assert (Hl : <[playerIndex := P.withHand (shuffleDeck rand (hand player)) player]>
                   (players g) !! playerIndex
                 = <[playerIndex := P.withHand shuffled player]> (players g)
                   !! playerIndex) by (by rewrite Heq).
    rewrite !list_lookup_insert_eq in Hl by (by eapply lookup_lt_Some).
    injection Hl as <-. apply shuffleDeck_perm.
  - intros Hperm. destruct (shuffleDeck_reach _ _ Hperm) as [rand <-].
    by exists rand.
Qed.


(** ** Composing the handlers *)

Lemma perm_same_keys {A : Type} (key : A → Z) (l1 l2 : list A) :
  NoDup (key <$> l1) → l1 ≡ₚ l2 → key <$> l1 = key <$> l2 → l1 = l2.
Proof.
  intros Hnd Hp Hk. apply list_eq. intros i.
  assert (Hki : (key <$> l1) !! i = (key <$> l2) !! i) by (by rewrite Hk).
  rewrite !list_lookup_fmap in Hki.
  destruct (l1 !! i) as [a|] eqn:Ha, (l2 !! i) as [b|] eqn:Hb; try done.
  simpl in Hki. injection Hki as Hab. f_equal.
  assert (Hb1 : b ∈ l1) by (rewrite Hp; by eapply list_elem_of_lookup_2).
  apply list_elem_of_lookup in Hb1 as [j Hj].
  assert (i = j); [|congruence].
  apply (NoDup_lookup (key <$> l1) i j (key a)); [done|..].
  - by rewrite list_lookup_fmap, Ha.
  - by rewrite list_lookup_fmap, Hj, Hab.
Qed.

Lemma autoSort_of_perm (h1 h2 : list Card) :
  NoDup (autoSortKey <$> h1) → h1 ≡ₚ h2 →
  jsSort autoSortCompare h1 = jsSort autoSortCompare h2.
Proof.
  intros Hnd Hp.
  assert (Hs : ∀ h, Sorted Z.le (autoSortKey <$> jsSort autoSortCompare h)).
  { intros h. eapply Sorted_fmap;
      [|apply (jsSort_sorted_total autoSortCompare)].
    - intros x y. by apply autoSortCompare_key.
    - intros a b Hab. apply autoSortCompare_key.
      assert (¬ (autoSortKey a ≤ autoSortKey b)%Z); [|lia].
      rewrite <- autoSortCompare_key. lia. }
  apply (perm_same_keys autoSortKey).
  - by rewrite (jsSort_perm autoSortCompare h1).
  - by rewrite !jsSort_perm.
  - apply Sorted_Zle_unique; [apply Hs..|].
    by rewrite !jsSort_perm, Hp.
Qed.

(** X26. Sorting undoes shuffling: for a hand in which no suit and rank
    occurs twice, [handleAutoSort] after [handleShuffle] leaves the game
    exactly as [handleAutoSort] alone does, whatever the random draws; the
    sorted hand depends on the cards held and not on their order. *)
Theorem X26_autoSort_after_shuffle (rand : nat → nat) (g : Game)
    (playerIndex : nat) (player : Player) :
  players g !! playerIndex = Some player →
  NoDup (autoSortKey <$> hand player) →
  handleAutoSort (stateOf (handleShuffle rand g playerIndex)) playerIndex
  = handleAutoSort g playerIndex.
Proof.
  intros Hp Hnd. unfold handleShuffle, handleAutoSort. rewrite Hp.
  cbn [stateOf players G.withPlayers].
  rewrite list_lookup_insert_eq by (by eapply lookup_lt_Some).
  cbn [hand P.withHand]. rewrite list_insert_insert_eq.
  rewrite (autoSort_of_perm (shuffleDeck rand (hand player)) (hand player)).
  - done.
  - by rewrite (shuffleDeck_perm rand (hand player)).
  - apply shuffleDeck_perm.
Qed.

Lemma X26_witness :
  handleAutoSort (stateOf (handleShuffle fixedRand fixedGame 0)) 0
  = handleAutoSort fixedGame 0.
Proof.
  apply (X26_autoSort_after_shuffle fixedRand fixedGame 0 (seatOf fixedGame 0)).
  - vm_compute. reflexivity.
  - apply (bool_decide_unpack _). vm_compute. exact I.
Defined.


(** X27. A seat freed by a disconnect is filled by the next join: when
    every game of the Map is full and a player leaves one, the next socket
    to join is pushed behind the two players left of that game, with player
    number 3, an empty hand and no melds. The join deals nothing: the hands
    of the others, the deck, the discard pile and [currentPlayerIndex] are
    as the leaver left them; the game is marked as started. *)
Theorem X27_join_after_disconnect (games : Games) (socketId : string)
    (i : nat) (g : Game) (now newSocket newName : string) :
  Forall (λ g, length (players g) = PLAYERS_REQUIRED) games →
  list_find (λ g, is_Some (findSeat socketId g)) games = Some (i, g) →
  ∃ s g',
    findSeat socketId g = Some s ∧
    onJoinGame now (onDisconnect games socketId) newSocket newName
    = <[i := g']> games ∧
    players g'
    = delete s (players g)
      ++ [mkPlayer newSocket newName 3 [] [] [] 0 0 false 0 0 false] ∧
    gameStarted g' = true ∧
    deck g' = deck g ∧
    discardPile g' = discardPile g ∧
    currentPlayerIndex g' = currentPlayerIndex g ∧
    hasDrawnThisTurn g' = hasDrawnThisTurn g ∧
    gameEnded g' = gameEnded g ∧
    gameId g' = gameId g.
Proof.
  intros Hfull Hfind.
  assert (Hi : games !! i = Some g) by (by apply list_find_Some in Hfind as [? _]).
  assert (Hg : length (players g) = PLAYERS_REQUIRED).
  { rewrite Forall_forall in Hfull. apply Hfull. by eapply list_elem_of_lookup_2. }
  unfold PLAYERS_REQUIRED in *.
  destruct (onDisconnect_found _ _ _ _ Hfind) as (s & p & Hs & Hp & _ & ->); [lia|].
  set (g1 := leave s g).
  assert (Hl : length (players g1) = 2).
  { unfold g1. cbn. rewrite length_delete by (by eexists). lia. }
  assert (Hopen : list_find (λ g, length (players g) < PLAYERS_REQUIRED)
                    (<[i := g1]> games) = Some (i, g1)).
  { apply list_find_Some. split; [|split].
    - apply list_lookup_insert_eq. by eapply lookup_lt_Some.
    - unfold PLAYERS_REQUIRED. lia.
    - intros j gj Hj Hji Hlt. rewrite list_lookup_insert_ne in Hj by lia.
      rewrite Forall_forall in Hfull.
      assert (length (players gj) = 3)
        by (apply Hfull; by eapply list_elem_of_lookup_2).
      unfold PLAYERS_REQUIRED in Hlt. lia. }
  unfold onJoinGame. rewrite Hopen, list_insert_insert_eq.
  exists s, (joinGame g1 newSocket newName).
  split; [done|]. split; [done|].
  rewrite joinGame_players, joinGame_gameStarted, joinGame_gameId, Hl.
  unfold joinGame. cbn [players G.withPlayers]. rewrite length_app, Hl.
  cbn [length Nat.add Nat.eqb PLAYERS_REQUIRED andb].
  split; [done|]. split; [apply orb_true_r|].
  by destruct (negb _).
Qed.

Lemma X27_witness :
  ∃ s g',
    findSeat "s0" fixedGame = Some s ∧
    onJoinGame "9" (onDisconnect [fixedGame] "s0") "s9" "dee" = <[0 := g']> [fixedGame] ∧
    players g'
    = delete s (players fixedGame)
      ++ [mkPlayer "s9" "dee" 3 [] [] [] 0 0 false 0 0 false] ∧
    gameStarted g' = true ∧
    deck g' = deck fixedGame ∧
    discardPile g' = discardPile fixedGame ∧
    currentPlayerIndex g' = currentPlayerIndex fixedGame ∧
    hasDrawnThisTurn g' = hasDrawnThisTurn fixedGame ∧
    gameEnded g' = gameEnded fixedGame ∧
    gameId g' = gameId fixedGame.
Proof.
  apply (X27_join_after_disconnect [fixedGame] "s0" 0 fixedGame "9" "s9" "dee").
  - constructor; [|constructor]. vm_compute. reflexivity.
  - vm_compute. reflexivity.
Defined.
